(** * Arabic light stemmer: a shallow embedding of [arabic/stemmer/stemmer.go]
    and of the collaborators it calls, with the properties of the
    segmentation-and-validation engine stated over it.

    Go strings are byte sequences; the stemmer mixes byte lengths
    ([len(s)], [s[i:j]], [s[i]]) with rune views ([[]rune(s)],
    [for i, c := range s]).  Both views are kept here: a string is the list
    of its bytes, and the rune view is obtained by UTF-8 decoding exactly as
    the Go runtime does (an invalid byte decodes to U+FFFD of width 1). *)

From Stdlib Require Import ZArith List Bool Lia String Ascii.
Import ListNotations.
Local Open Scope Z_scope.

(** ** Outcomes of a Go call

    A Go call either returns, or panics (index or slice out of range, failed
    type assertion, regexp that does not compile), or recurses for ever.
    The last case is cut by a fuel counter. *)

Inductive result (A : Type) : Type :=
| Ok (a : A)
| Panic
| OutOfFuel.
Arguments Ok {A} a.
Arguments Panic {A}.
Arguments OutOfFuel {A}.

Definition bind {A B : Type} (m : result A) (k : A -> result B) : result B :=
  match m with
  | Ok a => k a
  | Panic => Panic
  | OutOfFuel => OutOfFuel
  end.

Notation "x <- m ;; k" := (bind m (fun x => k))
  (at level 61, m at next level, right associativity).
Notation "' p <- m ;; k" := (bind m (fun p => k))
  (at level 61, p pattern, m at next level, right associativity).

Definition isOk {A : Type} (m : result A) : bool :=
  match m with Ok _ => true | _ => false end.

(** ** Go strings, bytes and runes *)

Module GoString.

(** A Go string: its bytes, each in [0, 255]. *)
Definition gostring : Type := list Z.
Definition rune : Type := Z.

(** String literals of the Go source are written as Rocq string literals:
    both are the UTF-8 bytes of the text. *)
Fixpoint lit (s : String.string) : gostring :=
  match s with
  | EmptyString => []
  | String c s' => Z.of_N (N_of_ascii c) :: lit s'
  end.

Fixpoint eqb (a b : gostring) : bool :=
  match a, b with
  | [], [] => true
  | x :: a', y :: b' => (x =? y) && eqb a' b'
  | _, _ => false
  end.

(** [len(s)]: the byte length. *)
Definition len {A : Type} (s : list A) : Z := Z.of_nat (List.length s).

Definition RuneError : rune := 65533.

Definition isCont (b : Z) : bool := (128 <=? b) && (b <=? 191).
Definition inRange (lo hi b : Z) : bool := (lo <=? b) && (b <=? hi).

(** Accepted range of the second byte after the lead byte [b0], as in the
    [first]/[acceptRanges] tables of [unicode/utf8]. *)
Definition second_ok (b0 b1 : Z) : bool :=
  if b0 =? 224 then inRange 160 191 b1
  else if b0 =? 237 then inRange 128 159 b1
  else if b0 =? 240 then inRange 144 191 b1
  else if b0 =? 244 then inRange 128 143 b1
  else isCont b1.

(** [utf8.DecodeRuneInString] iterated over the whole string: each item is
    the rune and the number of bytes it was decoded from.  The payload bits
    of each byte are taken by [mod] and placed by multiplication. *)
Fixpoint decode (bs : gostring) : list (rune * Z) :=
  match bs with
  | [] => []
  | b0 :: t0 =>
    if b0 <? 128 then (b0, 1) :: decode t0
    else
      match t0 with
      | b1 :: t1 =>
        if inRange 194 223 b0 && isCont b1 then
          ((b0 mod 32) * 64 + b1 mod 64, 2) :: decode t1
        else
          match t1 with
          | b2 :: t2 =>
            if inRange 224 239 b0 && second_ok b0 b1 && isCont b2 then
              ((b0 mod 16) * 4096 + (b1 mod 64) * 64 + b2 mod 64, 3)
                :: decode t2
            else
              match t2 with
              | b3 :: t3 =>
                if inRange 240 244 b0 && second_ok b0 b1
                   && isCont b2 && isCont b3 then
                  ((b0 mod 8) * 262144 + (b1 mod 64) * 4096
                   + (b2 mod 64) * 64 + b3 mod 64, 4)
                    :: decode t3
                else (RuneError, 1) :: decode t0
              | [] => (RuneError, 1) :: decode t0
              end
          | [] => (RuneError, 1) :: decode t0
          end
      | [] => [(RuneError, 1)]
      end
  end.

(** [[]rune(s)]. *)
Definition runes (s : gostring) : list rune := map fst (decode s).

(** [utf8.AppendRune]: a rune outside the Unicode range or a surrogate is
    written as U+FFFD. *)
Definition encodeRune (r : rune) : gostring :=
  if (0 <=? r) && (r <? 128) then [r]
  else if (128 <=? r) && (r <? 2048) then [192 + r / 64; 128 + r mod 64]
  else if (r <? 0) || (1114111 <? r) || ((55296 <=? r) && (r <=? 57343)) then
    [239; 191; 189]
  else if r <? 65536 then
    [224 + r / 4096; 128 + (r / 64) mod 64; 128 + r mod 64]
  else
    [240 + r / 262144; 128 + (r / 4096) mod 64; 128 + (r / 64) mod 64;
     128 + r mod 64].

(** [string(rs)] for a rune slice, and [string(r)] for one rune. *)
Definition str (rs : list rune) : gostring := flat_map encodeRune rs.

(** The only rune of a one-rune literal. *)
Definition runeOf (s : gostring) : rune := hd RuneError (runes s).

(** [xs[lo:hi]] on a slice or a string: panics unless [0 <= lo <= hi <= len]. *)
Definition goslice {A : Type} (xs : list A) (lo hi : Z) : result (list A) :=
  if (0 <=? lo) && (lo <=? hi) && (hi <=? len xs)
  then Ok (firstn (Z.to_nat (hi - lo)) (skipn (Z.to_nat lo) xs))
  else Panic.

(** [xs[i]]: panics out of range. *)
Definition goindex {A : Type} (xs : list A) (i : Z) : result A :=
  if (0 <=? i) && (i <? len xs)
  then match nth_error xs (Z.to_nat i) with Some x => Ok x | None => Panic end
  else Panic.

Fixpoint hasPrefix (s p : gostring) : bool :=
  match p, s with
  | [], _ => true
  | x :: p', y :: s' => (x =? y) && hasPrefix s' p'
  | _ :: _, [] => false
  end.

Definition hasSuffix (s p : gostring) : bool := hasPrefix (rev s) (rev p).

(** [strings.Contains]. *)
Fixpoint contains (s sub : gostring) : bool :=
  hasPrefix s sub ||
  match s with
  | [] => false
  | _ :: s' => contains s' sub
  end.

(** [strings.ReplaceAll(s, old, new)] for a non-empty [old]: leftmost,
    non-overlapping matches.  The fuel is the byte length of [s]. *)
Fixpoint replaceAll_go (fuel : nat) (s old new : gostring) : gostring :=
  match fuel with
  | O => s
  | S fuel' =>
    match s with
    | [] => []
    | b :: s' =>
      if hasPrefix s old
      then new ++ replaceAll_go fuel' (skipn (List.length old) s) old new
      else b :: replaceAll_go fuel' s' old new
    end
  end.

Definition replaceAll (s old new : gostring) : gostring :=
  replaceAll_go (List.length s) s old new.

(** [regexp.MustCompile("[" + class + "]").ReplaceAllString(s, repl)] and
    the negated form [[^class]], for a class made of plain letters and a
    replacement without [$]: every rune of [s] that matches is replaced by
    [repl], every other rune keeps the bytes it was decoded from. *)
Fixpoint mapRunes (keep : rune -> bool) (repl : gostring)
         (items : list (rune * Z)) (s : gostring) : gostring :=
  match items with
  | [] => []
  | (r, w) :: items' =>
    (if keep r then firstn (Z.to_nat w) s else repl)
      ++ mapRunes keep repl items' (skipn (Z.to_nat w) s)
  end.

Definition inClass (class : gostring) (r : rune) : bool :=
  existsb (Z.eqb r) (runes class).

Definition replaceNotIn (class repl s : gostring) : gostring :=
  mapRunes (inClass class) repl (decode s) s.

Definition replaceIn (class repl s : gostring) : gostring :=
  mapRunes (fun r => negb (inClass class r)) repl (decode s) s.

End GoString.
Import GoString.

(** ** The [constant] package

    Modelled from the spec: the letter constants of [arabic/constant] are
    not among the sources; they are the Arabic letters the spec names, given
    here by the text of the letter as the Go sources write it in their own
    literals. *)

Module Constant.
Definition HAMZA := lit "ء".
Definition ALEF_MADDA := lit "آ".
Definition ALEF_HAMZA_ABOVE := lit "أ".
Definition WAW_HAMZA := lit "ؤ".
Definition ALEF_HAMZA_BELOW := lit "إ".
Definition YEH_HAMZA := lit "ئ".
Definition ALEF := lit "ا".
Definition TEH_MARBUTA := lit "ة".
Definition TEH := lit "ت".
Definition DAL := lit "د".
Definition TAH := lit "ط".
Definition NOON := lit "ن".
Definition WAW := lit "و".
Definition ALEF_MAKSURA := lit "ى".
Definition YEH := lit "ي".
Definition HAMZA_ABOVE := str [1620].
Definition HAMZA_BELOW := str [1621].
End Constant.
Import Constant.

(** ** Go maps *)

(** [map[string]interface{}] as the tries use it: a value is a nested map
    or a string (the ["#"] written under a terminal marker). *)
#[warnings="-register-all"]
Inductive iface : Type :=
| IStr (s : gostring)
| IMap (m : list (gostring * iface)).

Definition smap (V : Type) : Type := list (gostring * V).

Fixpoint slookup {V : Type} (k : gostring) (m : smap V) : option V :=
  match m with
  | [] => None
  | (k', v) :: m' => if eqb k k' then Some v else slookup k m'
  end.

Fixpoint sinsert {V : Type} (k : gostring) (v : V) (m : smap V) : smap V :=
  match m with
  | [] => [(k, v)]
  | (k', v') :: m' =>
    if eqb k k' then (k, v) :: m' else (k', v') :: sinsert k v m'
  end.

Definition shas {V : Type} (k : gostring) (m : smap V) : bool :=
  match slookup k m with Some _ => true | None => false end.

(** [map[int]V]: keys in insertion order, one entry per key. *)
Definition zmap (V : Type) : Type := list (Z * V).

Fixpoint zlookup {V : Type} (k : Z) (m : zmap V) : option V :=
  match m with
  | [] => None
  | (k', v) :: m' => if k =? k' then Some v else zlookup k m'
  end.

Fixpoint zinsert {V : Type} (k : Z) (v : V) (m : zmap V) : zmap V :=
  match m with
  | [] => [(k, v)]
  | (k', v') :: m' =>
    if k =? k' then (k, v) :: m' else (k', v') :: zinsert k v m'
  end.

(** [m[k] = append(m[k], x)]. *)
Definition zappend {V : Type} (k : Z) (x : V) (m : zmap (list V)) : zmap (list V) :=
  match zlookup k m with
  | Some xs => zinsert k (xs ++ [x]) m
  | None => zinsert k [x] m
  end.

(** A segment [[2]int{left, right}] and the segment list
    [map[int][][2]int]. *)
Abbreviation segment_t := (Z * Z)%type (only parsing).
Abbreviation segmap := (zmap (list (Z * Z))) (only parsing).

Definition seg_eqb (a b : segment_t) : bool :=
  (fst a =? fst b) && (snd a =? snd b).

(** ** [arabic/utils] *)

Module Utils.

Definition Min (a b : Z) : Z := if a <? b then a else b.
Definition Max (a b : Z) : Z := if a >? b then a else b.

Definition MinFromSlice (ints : list Z) : result Z :=
  match ints with
  | [] => Panic
  | x :: _ => Ok (fold_left (fun m v => if v <? m then v else m) ints x)
  end.

Definition MaxFromSlice (ints : list Z) : result Z :=
  match ints with
  | [] => Panic
  | x :: _ => Ok (fold_left (fun m v => if v >? m then v else m) ints x)
  end.

Definition AffixInList (affix : gostring) (l : list gostring) : bool :=
  existsb (fun a => eqb a affix) l.

Definition Contains (slice : list gostring) (item : gostring) : bool :=
  existsb (fun s => eqb s item) slice.

(** [regex.CreateAlefatPattern] and [regex.CreateHamzatPattern]. *)
Definition alefat : gostring :=
  ALEF_MADDA ++ ALEF_HAMZA_ABOVE ++ ALEF_HAMZA_BELOW ++ HAMZA_ABOVE ++ HAMZA_BELOW.
Definition hamzat : gostring := WAW_HAMZA ++ YEH_HAMZA.

Definition NormalizeHamza (text : gostring) : gostring :=
  replaceIn hamzat HAMZA (replaceIn alefat ALEF text).

End Utils.

(** ** The stemmer and its collaborators

    The struct [ArabicLightStemmer] with the state of the collaborators it
    owns.  The tables of the [constant] package, [stopwords.json] and
    [unicode.IsLetter] are not among the sources: they are fields here, so
    that every statement below holds for whatever tables are loaded. *)

Record ArabicLightStemmer : Type := {
  (* stop_words.stopwordManager *)
  stopwords : smap (smap gostring);
  (* constant.TASHKEEL, a map[rune]bool *)
  TASHKEEL : list rune;
  (* unicode.IsLetter *)
  IsLetter : rune -> bool;
  (* stamp.verbListManager: the verb list, normalized at construction *)
  verbList : list gostring;
  (* roots.rootsManager *)
  roots : list gostring;
  (* constant.VERB_AFFIX_LIST and constant.NOUN_AFFIX_LIST *)
  VERB_AFFIX_LIST : list gostring;
  NOUN_AFFIX_LIST : list gostring;
  prefixLetters : gostring;
  suffixLetters : gostring;
  infixLetters : gostring;
  maxPrefixLength : Z;
  maxSuffixLength : Z;
  minStemLength : Z;
  joker : gostring;
  prefixList : list gostring;
  suffixList : list gostring;
  prefixesTree : smap iface;
  suffixesTree : smap iface
}.

Section Collaborators.

Variable als : ArabicLightStemmer.

(** *** [stop_words]: tashkeel checker and word processor *)

Definition IsTashkeel (char : rune) : bool :=
  existsb (Z.eqb char) (TASHKEEL als).

Definition IsAlpha (word : gostring) : bool :=
  forallb (IsLetter als) (runes word).

Definition IsVocalized (word : gostring) : bool :=
  if IsAlpha word then false
  else existsb IsTashkeel (runes word).

Definition StripTashkeel (text : gostring) : gostring :=
  match text with
  | [] => text
  | _ =>
    if IsVocalized text
    then str (filter (fun char => negb (IsTashkeel char)) (runes text))
    else text
  end.

(** *** [stop_words]: the stopword manager *)

Definition IsStopword (word : gostring) : bool := shas word (stopwords als).

(** A key absent from a Go map reads as the zero value, the empty string. *)
Definition StopStem (word : gostring) : gostring :=
  match slookup word (stopwords als) with
  | Some stopWord =>
    StripTashkeel (match slookup (lit "stem") stopWord with
                   | Some stem => stem
                   | None => []
                   end)
  | None => []
  end.

Definition StopRoot (word : gostring) : gostring := StopStem word.

(** *** [stamp]: verb normalizer and verb list *)

Definition normalizeHamza (verb : gostring) : gostring :=
  replaceIn (lit "أإءؤئآ") (lit "ء") verb.

Definition removeWeakLetters (verb : gostring) : gostring :=
  replaceIn (lit "اويى") [] verb.

(** Compares the last two bytes and drops the last byte. *)
Definition removeDoubleLetterAtEnd (verb : gostring) : gostring :=
  match rev verb with
  | a :: b :: _ => if a =? b then removelast verb else verb
  | _ => verb
  end.

Definition Normalize (verb : gostring) : gostring :=
  match verb with
  | [] => []
  | _ =>
    let verb := StripTashkeel verb in
    match verb with
    | [] => []
    | _ =>
      let verb :=
        if (len verb =? 4) && hasPrefix verb ALEF_HAMZA_ABOVE
        then skipn (List.length ALEF_HAMZA_ABOVE) verb
        else verb in
      removeDoubleLetterAtEnd (removeWeakLetters (normalizeHamza verb))
    end
  end.

Definition IsVerbStamp (stem : gostring) : bool :=
  let normalizedStem := Normalize stem in
  existsb (fun verb => eqb verb normalizedStem) (verbList als).

(** *** [roots]: dictionary lookup *)

Definition IsRoot (word : gostring) : bool :=
  existsb (fun r => eqb r word) (roots als).

End Collaborators.

(** ** The affix tries *)

Definition HASH : gostring := lit "#".

(** [branch[charStr].(map[string]interface{})], the lookup inserting an
    empty map first when [create] is set; the type assertion panics on a
    string. *)
Definition child (create : bool) (key : gostring) (branch : smap iface)
  : result (option (smap iface)) :=
  match slookup key branch with
  | Some (IMap m) => Ok (Some m)
  | Some (IStr _) => Panic
  | None => if create then Ok (Some []) else Ok None
  end.

(** One iteration of the outer loop of [createPrefixTree]: walk down the
    characters of the affix inserting the missing nodes, then record the
    affix under ["#"] of the node reached.  The Go code walks a pointer down
    the shared tree and mutates in place; here the updated subtree is
    rebuilt on the way back. *)
Fixpoint insertAffix (chars : list rune) (affix : gostring)
         (branch : smap iface) : result (smap iface) :=
  match chars with
  | [] =>
    match slookup HASH branch with
    | Some (IMap t) => Ok (sinsert HASH (IMap (sinsert affix (IStr HASH) t)) branch)
    | Some (IStr _) => Panic
    | None => Ok (sinsert HASH (IMap [(affix, IStr HASH)]) branch)
    end
  | char :: chars' =>
    let charStr := str [char] in
    match slookup charStr branch with
    | Some (IMap m) =>
      m' <- insertAffix chars' affix m ;; Ok (sinsert charStr (IMap m') branch)
    | Some (IStr _) => Panic
    | None =>
      m' <- insertAffix chars' affix [] ;; Ok (sinsert charStr (IMap m') branch)
    end
  end.

Fixpoint insertAll (order : list rune -> list rune) (affixes : list gostring)
         (tree : smap iface) : result (smap iface) :=
  match affixes with
  | [] => Ok tree
  | affix :: rest =>
    tree' <- insertAffix (order (runes affix)) affix tree ;;
    insertAll order rest tree'
  end.

Definition createPrefixTree (prefixList : list gostring) : result (smap iface) :=
  insertAll (fun rs => rs) prefixList [].

(** The suffixes are walked from their last rune to their first
    ([utf8.DecodeLastRuneInString]), for suffixes that are well-formed
    UTF-8 text. *)
Definition createSuffixTree (suffixList : list gostring) : result (smap iface) :=
  insertAll (@rev rune) suffixList [].

(** ** The segmenter *)

Section Segmenter.

Variable als : ArabicLightStemmer.

(** The loop of [lookupPrefixes].  The bound [wlen] is [len(word)], the
    byte length of the word, while [runeWord] is indexed by [i]. *)
Fixpoint lookupPrefixes_loop (fuel : nat) (runeWord : list rune) (wlen : Z)
         (branch : smap iface) (i : Z) (lefts : list Z)
  : result (smap iface * Z * list Z) :=
  if negb (i <? wlen) then Ok (branch, i, lefts)
  else
    match fuel with
    | O => OutOfFuel
    | S fuel' =>
      r <- goindex runeWord i ;;
      let char := str [r] in
      match slookup char branch with
      | Some v =>
        let lefts := if shas HASH branch then lefts ++ [i] else lefts in
        match v with
        | IMap branch' =>
          lookupPrefixes_loop fuel' runeWord wlen branch' (i + 1) lefts
        | IStr _ => Panic
        end
      | None => Ok (branch, i, lefts)
      end
    end.

Definition lookupPrefixes (word : gostring) : result (list Z) :=
  '(branch, i, lefts) <-
     lookupPrefixes_loop (S (List.length word)) (runes word) (len word)
       (prefixesTree als) 0 [0] ;;
  if (i <? len word) && shas HASH branch
  then Ok (lefts ++ [i])
  else Ok lefts.

(** The loop of [lookupSuffixes], from the last rune down. *)
Fixpoint lookupSuffixes_loop (fuel : nat) (runeWord : list rune)
         (branch : smap iface) (i : Z) (rights : list Z)
  : result (smap iface * Z * list Z) :=
  if negb (i >=? 0) then Ok (branch, i, rights)
  else
    match fuel with
    | O => OutOfFuel
    | S fuel' =>
      r <- goindex runeWord i ;;
      let char := str [r] in
      match slookup char branch with
      | Some v =>
        let rights := if shas HASH branch then rights ++ [i + 1] else rights in
        match v with
        | IMap branch' =>
          lookupSuffixes_loop fuel' runeWord branch' (i - 1) rights
        | IStr _ => Panic
        end
      | None => Ok (branch, i, rights)
      end
    end.

Definition lookupSuffixes (word : gostring) : result (list Z) :=
  let runeWord := runes word in
  '(branch, i, rights) <-
     lookupSuffixes_loop (S (List.length runeWord)) runeWord
       (suffixesTree als) (len runeWord - 1) [] ;;
  if (i >=? 0) && shas HASH branch
  then Ok (rights ++ [i + 1])
  else Ok rights.

(** [getLeftRight]: the largest key of the map and the smallest right
    boundary of all its pairs, with [-1] as the start value of both. *)
Definition getLeftRight (ls : segmap) : Z * Z :=
  match ls with
  | [] => (-1, -1)
  | _ =>
    let maxLeft :=
      fold_left (fun maxLeft kv => if fst kv >? maxLeft then fst kv else maxLeft)
                ls (-1) in
    let minRight :=
      fold_left
        (fun minRight kv =>
           fold_left
             (fun minRight (pair : segment_t) =>
                let right := snd pair in
                if (minRight =? -1) || (right <? minRight)
                then right else minRight)
             (snd kv) minRight)
        ls (-1) in
    (maxLeft, minRight)
  end.

(** The closure [isSeen] of [segment] with the map it updates. *)
Definition isSeen (seen : zmap (list segment_t)) (left : Z) (seg : segment_t)
  : bool * zmap (list segment_t) :=
  let seen := match zlookup left seen with
              | Some _ => seen
              | None => zinsert left [] seen
              end in
  let set := match zlookup left seen with Some s => s | None => [] end in
  if existsb (seg_eqb seg) set then (true, seen)
  else (false, zinsert left (set ++ [seg]) seen).

(** The double loop of [segment] over the prefix and suffix boundaries. *)
Definition addSegment (i : Z) (st : segmap * zmap (list segment_t)) (j : Z)
  : segmap * zmap (list segment_t) :=
  if j >=? i + 2 then
    let seg := (i, j) in
    let '(dup, seen) := isSeen (snd st) i seg in
    if negb dup then (zappend i seg (fst st), seen) else (fst st, seen)
  else st.

Definition buildSegments (lefts rights : list Z) : segmap :=
  fst (fold_left (fun st i => fold_left (addSegment i) rights st) lefts ([], [])).

Definition segment (word : gostring) : result (segmap * gostring * Z * Z) :=
  let unvocalized := StripTashkeel als word in
  let word := replaceAll word ALEF_MADDA (HAMZA ++ ALEF) in
  lefts <- lookupPrefixes word ;;
  rights <- lookupSuffixes word ;;
  _ <- match lefts with [] => Ok (-1) | _ => Utils.MaxFromSlice lefts end ;;
  _ <- match rights with [] => Ok (-1) | _ => Utils.MinFromSlice rights end ;;
  let segmentList := buildSegments lefts rights in
  let '(left_, right_) := getLeftRight segmentList in
  Ok (segmentList, unvocalized, left_, right_).

End Segmenter.

(** ** The star transform *)

Section StarTransform.

Variable als : ArabicLightStemmer.

(** [regexp.MustCompile(fmt.Sprintf("[^%s]", letters))]: the pattern of an
    empty class does not compile.  The class is returned as the letters.
    This is the behaviour on a class of plain letters ([plainClass]).  On
    other letters Go's parser reads [-] between two letters as a range,
    [\] as an escape and []] as the end of the class, and rejects text that
    is not UTF-8: there [MustCompile] may panic where this definition
    returns, and the pattern need not be the set [inClass] computes. *)
Definition mustCompileNot (letters : gostring) : result gostring :=
  match letters with
  | [] => Panic
  | _ => Ok letters
  end.

(** The scan that records the first and the last position of the joker. *)
Fixpoint scanJoker (runeWord : list rune) (jokerRune : rune) (i : Z)
         (lr : Z * Z) : Z * Z :=
  match runeWord with
  | [] => lr
  | char :: rest =>
    scanJoker rest jokerRune (i + 1)
      (if char =? jokerRune
       then ((if fst lr =? -1 then i else fst lr), i)
       else lr)
  end.

(** [for prefix != "" && !Contains(prefixList, prefix)]: drop the last rune. *)
Fixpoint trimPrefix (fuel : nat) (prefix : gostring) : result gostring :=
  if negb (eqb prefix []) && negb (Utils.Contains (prefixList als) prefix) then
    match fuel with
    | O => OutOfFuel
    | S fuel' =>
      let rs := runes prefix in
      rs' <- goslice rs 0 (len rs - 1) ;;
      trimPrefix fuel' (str rs')
    end
  else Ok prefix.

(** [for suffix != "" && !Contains(suffixList, suffix)]: drop the first rune. *)
Fixpoint trimSuffix (fuel : nat) (suffix : gostring) : result gostring :=
  if negb (eqb suffix []) && negb (Utils.Contains (suffixList als) suffix) then
    match fuel with
    | O => OutOfFuel
    | S fuel' =>
      let rs := runes suffix in
      rs' <- goslice rs 1 (len rs) ;;
      trimSuffix fuel' (str rs')
    end
  else Ok suffix.

Definition maskInfix (stem : gostring) : result gostring :=
  match infixLetters als with
  | [] => Ok stem
  | _ =>
    cls <- mustCompileNot (infixLetters als) ;;
    Ok (replaceNotIn cls (joker als) stem)
  end.

Definition transform2Stars (word : gostring)
  : result (gostring * gostring * Z * Z) :=
  let word := StripTashkeel als word in
  let unvocalized := word in
  let word := replaceAll word (lit "آ") (lit "أا") in
  re <- mustCompileNot (prefixLetters als ++ suffixLetters als) ;;
  let word := replaceNotIn re (joker als) word in
  let runeWord := runes word in
  jokerRune <- goindex (runes (joker als)) 0 ;;
  let '(left_, right_) := scanJoker runeWord jokerRune 0 (-1, -1) in
  word <-
    (if left_ >=? 0 then
       let left_ := Z.min left_ (maxPrefixLength als - 1) in
       let right_ := Z.max (right_ + 1) (len runeWord - maxSuffixLength als) in
       prefix <- goslice runeWord 0 left_ ;;
       stem <- goslice (runes word) left_ right_ ;;
       suffix <- goslice runeWord right_ (len runeWord) ;;
       rp <- mustCompileNot (prefixLetters als) ;;
       let prefix := replaceNotIn rp (joker als) (str prefix) in
       stem <- maskInfix (str stem) ;;
       rs <- mustCompileNot (suffixLetters als) ;;
       let suffix := replaceNotIn rs (joker als) (str suffix) in
       Ok (prefix ++ stem ++ suffix)
     else Ok word) ;;
  let runeWord := runes word in
  let '(left_, right_) := scanJoker runeWord jokerRune 0 (-1, -1) in
  let left_ :=
    if left_ <? 0 then Z.min (maxPrefixLength als) (len runeWord - 2)
    else left_ in
  if left_ >=? 0 then
    prefix <- goslice runeWord 0 left_ ;;
    prefix <- trimPrefix (S (List.length prefix)) (str prefix) ;;
    let right_ :=
      if right_ <? 0
      then Z.max (len (runes prefix)) (len runeWord - maxSuffixLength als)
      else right_ in
    suffix <- goslice runeWord right_ (len runeWord) ;;
    suffix <- trimSuffix (S (List.length suffix)) (str suffix) ;;
    let left_ := len (runes prefix) in
    let right_ := len runeWord - len (runes suffix) in
    stem <- goslice (runes word) left_ right_ ;;
    stem <- maskInfix (str stem) ;;
    Ok (prefix ++ stem ++ suffix, unvocalized, left_, right_)
  else Ok (word, unvocalized, left_, right_).

End StarTransform.

(** ** The affix validator *)

Section Validator.

Variable als : ArabicLightStemmer.

Definition getPrefix (unvocalized : gostring) (left_ prefixIndex : Z) : gostring :=
  let unvocalizedRunes := runes unvocalized in
  if prefixIndex <? 0 then
    if (left_ >=? 0) && (left_ <=? len unvocalizedRunes)
    then str (firstn (Z.to_nat left_) unvocalizedRunes)
    else str unvocalizedRunes
  else
    if (prefixIndex >=? 0) && (prefixIndex <=? len unvocalizedRunes)
    then str (firstn (Z.to_nat prefixIndex) unvocalizedRunes)
    else str unvocalizedRunes.

Definition getSuffix (unvocalized : gostring) (right_ suffixIndex : Z) : gostring :=
  let unvocalizedRunes := runes unvocalized in
  if suffixIndex <? 0 then
    if (right_ >=? 0) && (right_ <=? len unvocalizedRunes)
    then str (skipn (Z.to_nat right_) unvocalizedRunes)
    else []
  else
    if (suffixIndex >=? 0) && (suffixIndex <=? len unvocalizedRunes)
    then str (skipn (Z.to_nat suffixIndex) unvocalizedRunes)
    else [].

(** [strings.ContainsAny(s, chars)]. *)
Definition containsAny (s chars : gostring) : bool :=
  existsb (fun c => existsb (Z.eqb c) (runes s)) (runes chars).

Definition validStem (stem tag prefix : gostring) : bool :=
  match stem with
  | [] => false
  | _ =>
    let runeStem := runes stem in
    let runePrefix := runes prefix in
    let stemLength := len runeStem in
    if eqb tag (lit "verb") then
      if (stemLength >? 6) || (stemLength <? 2) then false
      else if contains stem TEH_MARBUTA then false
      else if (stemLength =? 6) && negb (hasPrefix stem ALEF) then false
      else if (stemLength =? 5) && negb (hasPrefix stem ALEF)
              && negb (hasPrefix stem TEH)
              && (hasSuffix prefix YEH || hasSuffix prefix TEH
                  || hasSuffix prefix NOON || hasSuffix prefix ALEF_HAMZA_ABOVE)
      then false
      else if hasPrefix stem ALEF && (len runePrefix >? 0)
              && containsAny (str [last runePrefix RuneError])
                   (YEH ++ NOON ++ TEH ++ ALEF_HAMZA_ABOVE ++ ALEF)
      then false
      else if negb (IsVerbStamp als stem) then false
      else true
    else if eqb tag (lit "noun") then
      if stemLength >=? 8 then false else true
    else true
  end.

(** The arguments [chooseStem] is entered with. *)
Record stemArgs : Type := {
  a_word : gostring;
  a_unvocalized : gostring;
  a_left : Z;
  a_right : Z;
  a_stemLeft : Z;
  a_stemRight : Z;
  a_segmentList : segmap
}.

Section OpenRecursion.

(** [getStem] and [verifyAffix] call back into [chooseStem]; the call is a
    parameter here and is tied by [chooseStem] below. *)
Variable chooseStem_rec : stemArgs -> result gostring.

Definition getStem_with (a : stemArgs) (prefixIndex suffixIndex : Z)
  : result gostring :=
  let unvocalizedRunes := runes (a_unvocalized a) in
  if (prefixIndex >=? 0) || (suffixIndex >=? 0) then
    let left_ := if prefixIndex <? 0 then a_stemLeft a else prefixIndex in
    let right_ := if suffixIndex <? 0 then a_stemRight a else suffixIndex in
    let left_ := if left_ <? 0 then 0 else left_ in
    let right_ := if right_ >? len unvocalizedRunes
                  then len unvocalizedRunes else right_ in
    if (left_ <=? right_) && (left_ <? len unvocalizedRunes)
    then rs <- goslice unvocalizedRunes left_ right_ ;; Ok (str rs)
    else
      chooseStem_rec
        {| a_word := a_word a; a_unvocalized := a_unvocalized a;
           a_left := left_; a_right := right_;
           a_stemLeft := a_stemLeft a; a_stemRight := a_stemRight a;
           a_segmentList := a_segmentList a |}
  else chooseStem_rec a.

Definition verifyAffix_with (a : stemArgs) (prefixIndex suffixIndex : Z)
  : result bool :=
  let prefix := getPrefix (a_unvocalized a) (a_left a) prefixIndex in
  let suffix := getSuffix (a_unvocalized a) (a_right a) suffixIndex in
  let affix := prefix ++ lit "-" ++ suffix in
  stem <- getStem_with a prefixIndex suffixIndex ;;
  if Utils.AffixInList affix (VERB_AFFIX_LIST als)
     && validStem stem (lit "verb") prefix
  then
    if Utils.AffixInList affix (NOUN_AFFIX_LIST als)
       && validStem stem (lit "noun") prefix
    then Ok true
    else Ok true
  else if Utils.AffixInList affix (NOUN_AFFIX_LIST als)
          && validStem stem (lit "noun") prefix
  then Ok true
  else Ok false.

(** The loops of [chooseStem] that fill [validSegList].  Go ranges over a
    map in an unspecified order; the entries are visited here in the order
    of the list.  What is read off the result, the largest key and the
    smallest right boundary, does not depend on that order. *)
Fixpoint validatePairs (a : stemArgs) (leftIndex : Z) (segments : list segment_t)
         (validSegList : segmap) : result segmap :=
  match segments with
  | [] => Ok validSegList
  | seg :: rest =>
    let rightIndex := snd seg in
    ok <- verifyAffix_with a leftIndex rightIndex ;;
    validatePairs a leftIndex rest
      (if ok then zappend leftIndex (leftIndex, rightIndex) validSegList
       else validSegList)
  end.

Fixpoint validateSegments (a : stemArgs) (segList : segmap)
         (validSegList : segmap) : result segmap :=
  match segList with
  | [] => Ok validSegList
  | (leftIndex, segments) :: rest =>
    v <- validatePairs a leftIndex segments validSegList ;;
    validateSegments a rest v
  end.

Definition chooseStem_body (a : stemArgs) : result gostring :=
  if IsStopword als (a_word a) then Ok (StopStem als (a_word a))
  else
    _ <- match a_segmentList a with
         | [] => _ <- segment als (a_word a) ;; Ok tt
         | _ => Ok tt
         end ;;
    validSegList <- validateSegments a (a_segmentList a) [] ;;
    let runeWord := runes (a_word a) in
    let runeUnvocalized := runes (a_unvocalized a) in
    let '(left_, right_) :=
      match validSegList with
      | [] => (0, len runeWord)
      | _ => getLeftRight validSegList
      end in
    let left_ := if left_ <? 0 then 0 else left_ in
    let right_ := if right_ >? len runeUnvocalized
                  then len runeUnvocalized else right_ in
    rs <- goslice runeUnvocalized left_ right_ ;;
    Ok (str rs).

End OpenRecursion.

Fixpoint chooseStem (fuel : nat) (a : stemArgs) : result gostring :=
  match fuel with
  | O => OutOfFuel
  | S fuel' => chooseStem_body (chooseStem fuel') a
  end.

Definition getStem (fuel : nat) := getStem_with (chooseStem fuel).
Definition verifyAffix (fuel : nat) := verifyAffix_with (chooseStem fuel).

(** [LightStem]. *)
Definition LightStem (fuel : nat) (word : gostring) : result gostring :=
  match word with
  | [] => Ok []
  | _ =>
    '(_, _, stemLeft, stemRight) <- transform2Stars als word ;;
    '(segmentList, unvocalized, left_, right_) <- segment als word ;;
    getStem fuel
      {| a_word := word; a_unvocalized := unvocalized;
         a_left := left_; a_right := right_;
         a_stemLeft := stemLeft; a_stemRight := stemRight;
         a_segmentList := segmentList |} (-1) (-1)
  end.

End Validator.

(** ** Construction *)

(** The data [NewArabicLightStemmer] reads from the [constant] package,
    from [stamp.INITIAL_VERB_LIST] and from [stopwords.json]. *)
Record Tables : Type := {
  t_stopwords : smap (smap gostring);
  t_TASHKEEL : list rune;
  t_IsLetter : rune -> bool;
  t_INITIAL_VERB_LIST : list gostring;
  t_ROOTS : list gostring;
  t_VERB_AFFIX_LIST : list gostring;
  t_NOUN_AFFIX_LIST : list gostring;
  DEFAULT_PREFIX_LETTERS : gostring;
  DEFAULT_SUFFIX_LETTERS : gostring;
  DEFAULT_INFIX_LETTERS : gostring;
  DEFAULT_MAX_PREFIX : Z;
  DEFAULT_MAX_SUFFIX : Z;
  DEFAULT_MIN_STEM : Z;
  DEFAULT_JOKER : gostring;
  DEFAULT_PREFIX_LIST : list gostring;
  DEFAULT_SUFFIX_LIST : list gostring
}.

Definition withTrees (t : Tables) (verbs : list gostring)
           (ptree stree : smap iface) : ArabicLightStemmer :=
  {| stopwords := t_stopwords t;
     TASHKEEL := t_TASHKEEL t;
     IsLetter := t_IsLetter t;
     verbList := verbs;
     roots := t_ROOTS t;
     VERB_AFFIX_LIST := t_VERB_AFFIX_LIST t;
     NOUN_AFFIX_LIST := t_NOUN_AFFIX_LIST t;
     prefixLetters := DEFAULT_PREFIX_LETTERS t;
     suffixLetters := DEFAULT_SUFFIX_LETTERS t;
     infixLetters := DEFAULT_INFIX_LETTERS t;
     maxPrefixLength := DEFAULT_MAX_PREFIX t;
     maxSuffixLength := DEFAULT_MAX_SUFFIX t;
     minStemLength := DEFAULT_MIN_STEM t;
     joker := DEFAULT_JOKER t;
     prefixList := DEFAULT_PREFIX_LIST t;
     suffixList := DEFAULT_SUFFIX_LIST t;
     prefixesTree := ptree;
     suffixesTree := stree |}.

(** [NewArabicLightStemmer], from the point where [NewStopwordManager] has
    loaded [stopwords.json]: [t_stopwords] is the table as loaded.  The
    verb list is normalized by [initializeVerbList], then both tries are
    built.  When the file cannot be read or parsed the Go constructor ends
    the program through [log.Fatal]; that exit is no value of [result] and
    has no counterpart here, so nothing below says that the constructor
    returns. *)
Definition NewArabicLightStemmer (t : Tables) : result ArabicLightStemmer :=
  let verbs := map (Normalize (withTrees t [] [] [])) (t_INITIAL_VERB_LIST t) in
  ptree <- createPrefixTree (DEFAULT_PREFIX_LIST t) ;;
  stree <- createSuffixTree (DEFAULT_SUFFIX_LIST t) ;;
  Ok (withTrees t verbs ptree stree).

(** The setters.  [SetJoker] cuts a joker of more than one byte to its
    first byte.  [SetPrefixList] stores the list and calls
    [createPrefixTree], which stores the tree it builds; [SetSuffixList]
    stores the list and calls [createSuffixTree], which only returns its
    tree, and drops the result. *)
Definition withJoker (als : ArabicLightStemmer) (j : gostring)
  : ArabicLightStemmer :=
  {| stopwords := stopwords als;
     TASHKEEL := TASHKEEL als;
     IsLetter := IsLetter als;
     verbList := verbList als;
     roots := roots als;
     VERB_AFFIX_LIST := VERB_AFFIX_LIST als;
     NOUN_AFFIX_LIST := NOUN_AFFIX_LIST als;
     prefixLetters := prefixLetters als;
     suffixLetters := suffixLetters als;
     infixLetters := infixLetters als;
     maxPrefixLength := maxPrefixLength als;
     maxSuffixLength := maxSuffixLength als;
     minStemLength := minStemLength als;
     joker := j;
     prefixList := prefixList als;
     suffixList := suffixList als;
     prefixesTree := prefixesTree als;
     suffixesTree := suffixesTree als |}.

Definition withLists (als : ArabicLightStemmer) (plist slist : list gostring)
           (ptree : smap iface) : ArabicLightStemmer :=
  {| stopwords := stopwords als;
     TASHKEEL := TASHKEEL als;
     IsLetter := IsLetter als;
     verbList := verbList als;
     roots := roots als;
     VERB_AFFIX_LIST := VERB_AFFIX_LIST als;
     NOUN_AFFIX_LIST := NOUN_AFFIX_LIST als;
     prefixLetters := prefixLetters als;
     suffixLetters := suffixLetters als;
     infixLetters := infixLetters als;
     maxPrefixLength := maxPrefixLength als;
     maxSuffixLength := maxSuffixLength als;
     minStemLength := minStemLength als;
     joker := joker als;
     prefixList := plist;
     suffixList := slist;
     prefixesTree := ptree;
     suffixesTree := suffixesTree als |}.

Definition SetJoker (als : ArabicLightStemmer) (newJoker : gostring)
  : result ArabicLightStemmer :=
  newJoker <- (if len newJoker >? 1 then goslice newJoker 0 1
               else Ok newJoker) ;;
  Ok (withJoker als newJoker).

Definition SetPrefixList (als : ArabicLightStemmer)
           (newPrefixList : list gostring) : result ArabicLightStemmer :=
  prefixTree <- createPrefixTree newPrefixList ;;
  Ok (withLists als newPrefixList (suffixList als) prefixTree).

Definition SetSuffixList (als : ArabicLightStemmer)
           (newSuffixList : list gostring) : result ArabicLightStemmer :=
  _ <- createSuffixTree newSuffixList ;;
  Ok (withLists als (prefixList als) newSuffixList (prefixesTree als)).

(** *** A sample configuration

    The tables shipped with the repository are not among the sources.  The
    concrete runs below use this small configuration in their shape: the
    article and a few particles as prefixes, a few endings as suffixes, the
    eight harakat as tashkeel. *)
Module Sample.

Definition isLetter (r : rune) : bool :=
  inRange 65 90 r || inRange 97 122 r || inRange 1568 1610 r
  || inRange 1646 1647 r || inRange 1649 1747 r.

Definition tables : Tables :=
  {| t_stopwords :=
       [ (lit "في", [(lit "stem", lit "في")]);
         (lit "و", [(lit "stem", lit "و")]);
         (lit "بهذا", [(lit "stem", lit "هذا")]) ];
     t_TASHKEEL := [1611; 1612; 1613; 1614; 1615; 1616; 1617; 1618];
     t_IsLetter := isLetter;
     t_INITIAL_VERB_LIST := [lit "كتب"; lit "ضرب"; lit "قال"];
     t_ROOTS := [lit "كتب"; lit "ضرب"; lit "قول"];
     t_VERB_AFFIX_LIST := [lit "-"; lit "ي-ون"; lit "ي-"; lit "-ت"];
     t_NOUN_AFFIX_LIST := [lit "-"; lit "ال-"; lit "ال-ون"; lit "-ة"; lit "و-"];
     DEFAULT_PREFIX_LETTERS := lit "أابتسفكلنوي";
     DEFAULT_SUFFIX_LETTERS := lit "اةتكمنهوي";
     DEFAULT_INFIX_LETTERS := lit "توطيدا";
     DEFAULT_MAX_PREFIX := 4;
     DEFAULT_MAX_SUFFIX := 6;
     DEFAULT_MIN_STEM := 2;
     DEFAULT_JOKER := lit "*";
     DEFAULT_PREFIX_LIST :=
       [lit "ال"; lit "و"; lit "ي"; lit "ب"; lit "وال"; lit "بال"; lit "ت"];
     DEFAULT_SUFFIX_LIST :=
       [lit "ون"; lit "ة"; lit "ات"; lit "ت"; lit "ه"; lit "ني"] |}.

Definition stemmer : ArabicLightStemmer :=
  match NewArabicLightStemmer tables with
  | Ok s => s
  | _ => withTrees tables [] [] []
  end.

End Sample.

(** ** The root extractor *)

Section RootExtractor.

Variable als : ArabicLightStemmer.

(** [string(s[i])]: the byte at [i], converted as a code point. *)
Definition byteStr (s : gostring) (i : Z) : result gostring :=
  b <- goindex s i ;; Ok (encodeRune b).

Definition normalizeRoot (word : gostring) : gostring :=
  let word := replaceAll word ALEF_MADDA (HAMZA ++ ALEF) in
  let word := replaceAll word TEH_MARBUTA [] in
  let word := replaceAll word ALEF_MAKSURA YEH in
  Utils.NormalizeHamza word.

Definition handleTehInfix (word starword : gostring) (left_ right_ : Z)
  : result gostring :=
  let newStarstem := starword in
  let keyStem := replaceAll newStarstem TEH_MARBUTA [] in
  if negb (len keyStem =? 4) then
    Ok (replaceIn (TEH ++ TAH ++ DAL) (joker als) newStarstem)
  else
    h <- goslice newStarstem 0 2 ;;
    t <- goslice newStarstem 2 (len newStarstem) ;;
    let newStarstem := h ++ replaceAll t TEH (joker als) in
    w <- goslice word left_ right_ ;;
    newStarstem <-
      (if hasPrefix w (lit "ضط") then
         h <- goslice newStarstem 0 2 ;;
         t <- goslice newStarstem 2 (len newStarstem) ;;
         Ok (h ++ replaceAll t TAH (joker als))
       else Ok (replaceAll newStarstem TAH (joker als))) ;;
    w <- goslice word left_ right_ ;;
    if hasPrefix w (lit "زد") then
      h <- goslice newStarstem 0 2 ;;
      t <- goslice newStarstem 2 (len newStarstem) ;;
      Ok (h ++ replaceAll t DAL (joker als))
    else Ok (replaceAll newStarstem DAL (joker als)).

Definition getStarStem (word : gostring) (left_ right_ prefixIndex suffixIndex : Z)
  : result gostring :=
  let starword := word in
  let '(tempLeft, tempRight) :=
    if (prefixIndex <? 0) && (suffixIndex <? 0) then (left_, right_)
    else ((if prefixIndex >=? 0 then prefixIndex else left_),
          (if suffixIndex >=? 0 then suffixIndex else right_)) in
  match infixLetters als with
  | [] =>
    piece <- goslice starword tempLeft tempRight ;;
    Ok (List.concat (repeat (joker als) (List.length piece)))
  | _ =>
    cls <- mustCompileNot (infixLetters als ++ TEH_MARBUTA) ;;
    piece <- goslice starword tempLeft tempRight ;;
    handleTehInfix word (replaceNotIn cls (joker als) piece) tempLeft tempRight
  end.

Definition ajustRoot (root starstem : gostring) : result gostring :=
  match starstem with
  | [] => Ok root
  | _ =>
    if len starstem =? 3 then
      let starstem := replaceAll starstem ALEF WAW in
      let starstem := replaceAll starstem ALEF_MAKSURA YEH in
      Ok starstem
    else
      first <- byteStr starstem 0 ;;
      last_ <- byteStr starstem (len starstem - 1) ;;
      if eqb first ALEF || eqb first WAW then Ok (WAW ++ root)
      else if eqb first YEH then Ok (YEH ++ root)
      else if eqb first (joker als) && (eqb last_ ALEF || eqb last_ WAW)
      then Ok (root ++ WAW)
      else if eqb first (joker als) && (eqb last_ ALEF_MAKSURA || eqb last_ YEH)
      then Ok (root ++ WAW)
      else if eqb first (joker als) && eqb last_ (joker als) then
        if len starstem =? 2 then
          c <- byteStr root (len root - 1) ;; Ok (root ++ c)
        else
          c0 <- byteStr root 0 ;;
          c1 <- byteStr root 1 ;;
          Ok (c0 ++ WAW ++ c1)
      else Ok root
  end.

(** The loop [for i, char := range stem] of [extractRoot]: [i] is the byte
    offset of the rune [char]. *)
Fixpoint keepRadicals (items : list (rune * Z)) (starStem : gostring) (i : Z)
         (root : gostring) : result gostring :=
  match items with
  | [] => Ok root
  | (char, w) :: rest =>
    c <- byteStr starStem i ;;
    keepRadicals rest starStem (i + w)
      (if eqb c (joker als) then root ++ encodeRune char else root)
  end.

(** Insertion into a sorted list, for [sort.Strings]: bytewise order. *)
Fixpoint leb (a b : gostring) : bool :=
  match a, b with
  | [], _ => true
  | _ :: _, [] => false
  | x :: a', y :: b' => (x <? y) || ((x =? y) && leb a' b')
  end.

Fixpoint insertSorted (x : gostring) (l : list gostring) : list gostring :=
  match l with
  | [] => [x]
  | y :: l' => if leb x y then x :: l else y :: insertSorted x l'
  end.

Definition sortStrings (l : list gostring) : list gostring :=
  fold_right insertSorted [] l.

Definition count (item : gostring) (lst : list gostring) : Z :=
  len (filter (eqb item) lst).

Definition mostCommon (lst : list gostring) : gostring :=
  let triRoots := filter (fun item => len item =? 3) lst in
  let lst := match triRoots with [] => lst | _ => triRoots end in
  let sorted := sortStrings lst in
  fst (fold_left
         (fun (acc : gostring * Z) item =>
            if count item lst >? snd acc then (item, count item lst) else acc)
         sorted ([], 0)).

Definition isRootLengthValid (root : gostring) : bool :=
  let length := len root in
  (length >=? 2) && (length <=? 4).

End RootExtractor.

Section RootChoice.

Variable als : ArabicLightStemmer.

(** The [map[string]string] built by [getAffixTuple]. *)
Record affixTuple : Type := {
  d_prefix : gostring;
  d_suffix : gostring;
  d_stem : gostring;
  d_starstem : gostring;
  d_root : gostring
}.

(** The arguments [chooseRoot] is entered with. *)
Record rootArgs : Type := {
  r_word : gostring;
  r_unvocalized : gostring;
  r_root : gostring;
  r_stemLeft : Z;
  r_stemRight : Z;
  r_prefixIndex : Z;
  r_suffixIndex : Z;
  r_segmentList : segmap
}.

Definition stemArgsOf (r : rootArgs) (left_ right_ : Z) : stemArgs :=
  {| a_word := r_word r; a_unvocalized := r_unvocalized r;
     a_left := left_; a_right := right_;
     a_stemLeft := r_stemLeft r; a_stemRight := r_stemRight r;
     a_segmentList := r_segmentList r |}.

(** [extractRoot]; [fuel] bounds the calls of [getStem] into [chooseStem]. *)
Definition extractRoot (fuel : nat) (r : rootArgs) (left_ right_ : Z)
  : result gostring :=
  stem <- getStem als fuel (stemArgsOf r left_ right_)
            (r_prefixIndex r) (r_suffixIndex r) ;;
  if len stem =? 3 then ajustRoot als (r_root r) stem
  else
    starStem <- getStarStem als (r_word r) left_ right_
                  (r_prefixIndex r) (r_suffixIndex r) ;;
    root <-
      (if len starStem =? len stem
       then keepRadicals als (decode stem) starStem 0 []
       else Ok stem) ;;
    let root := normalizeRoot root in
    if len root =? 2 then ajustRoot als root starStem
    else Ok root.

(** The selection at the end of [chooseRoot], from the candidate roots. *)
Definition selectRoot (roots : list gostring) : gostring :=
  let accepted := filter isRootLengthValid roots in
  let roots := match accepted with [] => roots | _ => accepted end in
  let accepted := filter (IsRoot als) roots in
  let roots := match accepted with [] => roots | _ => accepted end in
  mostCommon roots.

Section OpenRecursion.

Variable chooseRoot_rec : rootArgs -> result gostring.
Variable fuel : nat.

(** [getRoot]: the root extracted from the segment is computed and dropped;
    the root passed in is returned. *)
Definition getRoot_with (r : rootArgs) (left_ right_ : Z) : result gostring :=
  if (r_prefixIndex r >=? 0) || (r_suffixIndex r >=? 0) then
    _ <- extractRoot fuel r left_ right_ ;; Ok (r_root r)
  else chooseRoot_rec r.

Definition getAffixTuple_with (r : rootArgs) (left_ right_ : Z)
  : result affixTuple :=
  let prefix := getPrefix (r_unvocalized r) left_ (r_prefixIndex r) in
  let suffix := getSuffix (r_unvocalized r) right_ (r_suffixIndex r) in
  stem <- getStem als fuel (stemArgsOf r left_ right_)
            (r_prefixIndex r) (r_suffixIndex r) ;;
  starstem <- getStarStem als (r_word r) left_ right_
                (r_prefixIndex r) (r_suffixIndex r) ;;
  root <- getRoot_with r left_ right_ ;;
  Ok {| d_prefix := prefix; d_suffix := suffix; d_stem := stem;
        d_starstem := starstem; d_root := root |}.

Fixpoint affixPairs (r : rootArgs) (leftIndex : Z) (segmentPairs : list segment_t)
         (affixList : list affixTuple) : result (list affixTuple) :=
  match segmentPairs with
  | [] => Ok affixList
  | pair_ :: rest =>
    let rightIndex := snd pair_ in
    affixTuple <- getAffixTuple_with r leftIndex rightIndex ;;
    affixPairs r leftIndex rest (affixList ++ [affixTuple])
  end.

Fixpoint affixSegments (r : rootArgs) (segmentList : segmap)
         (affixList : list affixTuple) : result (list affixTuple) :=
  match segmentList with
  | [] => Ok affixList
  | (leftIndex, segmentPairs) :: rest =>
    l <- affixPairs r leftIndex segmentPairs affixList ;;
    affixSegments r rest l
  end.

Definition getAffixList_with (r : rootArgs) : result (list affixTuple) :=
  affixSegments r (r_segmentList r) [].

(** The candidate roots of [chooseRoot]: the ["root"] of every affix tuple. *)
Definition candidateRoots_with (r : rootArgs) : result (list gostring) :=
  _ <- match r_segmentList r with
       | [] => _ <- segment als (r_word r) ;; Ok tt
       | _ => Ok tt
       end ;;
  affixList <- getAffixList_with r ;;
  Ok (map d_root affixList).

Definition chooseRoot_body (r : rootArgs) : result gostring :=
  if IsStopword als (r_word r) then Ok (StopRoot als (r_word r))
  else
    roots <- candidateRoots_with r ;;
    Ok (selectRoot roots).

End OpenRecursion.

Fixpoint chooseRoot (fuel : nat) (r : rootArgs) : result gostring :=
  match fuel with
  | O => OutOfFuel
  | S fuel' => chooseRoot_body (chooseRoot fuel') fuel' r
  end.

(** The candidate list of the call [chooseRoot (S fuel) r]. *)
Definition candidateRoots (fuel : nat) (r : rootArgs) : result (list gostring) :=
  candidateRoots_with (chooseRoot fuel) fuel r.

Definition getRoot (fuel : nat) := getRoot_with (chooseRoot fuel) fuel.

End RootChoice.

(** *** A configuration with overlapping affixes

    Latin tables in which a prefix and a suffix of one word overlap. *)
Module Overlap.

Definition tables : Tables :=
  {| t_stopwords := [];
     t_TASHKEEL := [1611; 1612; 1613; 1614; 1615; 1616; 1617; 1618];
     t_IsLetter := Sample.isLetter;
     t_INITIAL_VERB_LIST := [];
     t_ROOTS := [];
     t_VERB_AFFIX_LIST := [];
     t_NOUN_AFFIX_LIST := [lit "-cdef"; lit "abc-f"];
     DEFAULT_PREFIX_LETTERS := lit "abc";
     DEFAULT_SUFFIX_LETTERS := lit "cdef";
     DEFAULT_INFIX_LETTERS := lit "e";
     DEFAULT_MAX_PREFIX := 4;
     DEFAULT_MAX_SUFFIX := 6;
     DEFAULT_MIN_STEM := 2;
     DEFAULT_JOKER := lit "*";
     DEFAULT_PREFIX_LIST := [lit "abc"];
     DEFAULT_SUFFIX_LIST := [lit "cdef"; lit "f"] |}.

Definition stemmer : ArabicLightStemmer :=
  match NewArabicLightStemmer tables with
  | Ok s => s
  | _ => withTrees tables [] [] []
  end.

End Overlap.

(** ** The roots manager

    The methods of [roots.rootsManager] other than [IsRoot].  [MostCommon]
    ranges over a Go map, in an order the language leaves open: [iter lst]
    is the order in which the keys of the count map of [lst] are visited. *)
Module RootsManager.

Section RootsManager.

Variable als : ArabicLightStemmer.
Variable iter : list gostring -> list gostring.

Definition NormalizeRoot (word : gostring) : gostring :=
  let word := replaceAll word ALEF_MADDA (HAMZA ++ ALEF) in
  let word := replaceAll word TEH_MARBUTA [] in
  let word := replaceAll word ALEF_MAKSURA YEH in
  Utils.NormalizeHamza word.

Definition MostCommon (lst : list gostring) : gostring :=
  fst (fold_left
         (fun (acc : gostring * Z) item =>
            if count item lst >? snd acc then (item, count item lst) else acc)
         (iter lst) ([], 0)).

Definition FilterRootLengthValid (roots : list gostring) : list gostring :=
  filter (fun root =>
            let runeRoot := runes root in
            (len runeRoot >=? 3) && (len runeRoot <=? 4)
            && negb (contains root ALEF))
         roots.

Definition LookupRoots (roots : list gostring) : list gostring :=
  filter (IsRoot als) roots.

(** [affixation[key]] on a [map[string]string]: the empty string when the
    key is missing. *)
Definition field (affixation : smap gostring) (key : gostring) : gostring :=
  match slookup key affixation with
  | Some v => v
  | None => []
  end.

Definition ChooseRoot (affixationList : list (smap gostring)) : gostring :=
  let stems :=
    map (fun affixation => NormalizeRoot (field affixation (lit "stem")))
        affixationList in
  let roots :=
    map (fun affixation => NormalizeRoot (field affixation (lit "root")))
        affixationList in
  let rootsTmp := FilterRootLengthValid roots in
  let accepted := LookupRoots rootsTmp in
  let allAccepted := [] ++ accepted in
  let stemsTmp := FilterRootLengthValid stems in
  let accepted := LookupRoots stemsTmp in
  let allAccepted := allAccepted ++ accepted in
  if len allAccepted >? 0 then MostCommon allAccepted
  else if len accepted >? 0 then MostCommon accepted
  else [].

End RootsManager.

End RootsManager.

(** The runes [rs] are followed from [branch] down the trie. *)
Fixpoint followed (branch : smap iface) (rs : list rune) : bool :=
  match rs with
  | [] => true
  | r :: rs' =>
    match slookup (str [r]) branch with
    | Some (IMap branch') => followed branch' rs'
    | _ => false
    end
  end.

(** ** Definitions used by the statements *)

(** What a rune reads back as after [string(r)]: itself when it is a
    Unicode scalar value, U+FFFD otherwise. *)
Definition sanitize (r : rune) : rune :=
  if (r <? 0) || (1114111 <? r) || ((55296 <=? r) && (r <=? 57343))
  then RuneError else r.

(** Length in characters. *)
Definition runeLen (s : gostring) : Z := len (runes s).

(** [xs[lo:hi]] when it does not panic. *)
Definition sub {A : Type} (xs : list A) (lo hi : Z) : list A :=
  firstn (Z.to_nat (hi - lo)) (skipn (Z.to_nat lo) xs).

(** The last letter of [prefix] is one of [letters]. *)
Definition lastLetterIn (prefix : gostring) (letters : list gostring) : bool :=
  match rev (runes prefix) with
  | [] => false
  | r :: _ => existsb (fun l => r =? runeOf l) letters
  end.

(** Verb validity as the specification words it: the six conditions that
    must all hold for a stem to be accepted under the tag ["verb"]. *)
Definition verbStemAccepted (als : ArabicLightStemmer) (stem prefix : gostring)
  : Prop :=
  2 <= runeLen stem <= 6
  /\ contains stem TEH_MARBUTA = false
  /\ (runeLen stem = 6 -> hasPrefix stem ALEF = true)
  /\ (runeLen stem = 5 -> hasPrefix stem ALEF = false ->
      hasPrefix stem TEH = false ->
      forall l, In l [YEH; TEH; NOON; ALEF_HAMZA_ABOVE] ->
                hasSuffix prefix l = false)
  /\ (hasPrefix stem ALEF = true ->
      lastLetterIn prefix [YEH; NOON; TEH; ALEF_HAMZA_ABOVE; ALEF] = false)
  /\ IsVerbStamp als stem = true.

(** Number of segments held by a segment list. *)
Definition npairs (ls : segmap) : nat :=
  List.length (flat_map snd ls).

(** A well-formed segment list, as [segment] builds it: one entry per left
    boundary, none of them empty, every pair filed under its own left
    boundary, no pair twice, every stem at least two characters long and
    every left boundary an offset into the word. *)
Definition wfSegmap (ls : segmap) : Prop :=
  NoDup (map fst ls)
  /\ forall k ps, In (k, ps) ls ->
       0 <= k /\ ps <> [] /\ NoDup ps
       /\ forall p, In p ps -> fst p = k /\ snd p >= fst p + 2.

(** What holds of the segment list and of the seen-set at every point of
    the double loop of [segment]. *)
Definition segInv (st : segmap * zmap (list segment_t)) : Prop :=
  NoDup (map fst (fst st))
  /\ forall k ps, zlookup k (fst st) = Some ps ->
       ps <> [] /\ NoDup ps
       /\ forall p, In p ps ->
            (fst p = k /\ snd p >= fst p + 2)
            /\ exists set, zlookup k (snd st) = Some set /\ In p set.

(** The two loop bodies of [getLeftRight]. *)
Definition stepMax (m : Z) (kv : Z * list (Z * Z)) : Z :=
  if fst kv >? m then fst kv else m.

Definition stepMin (m : Z) (p : Z * Z) : Z :=
  if (m =? -1) || (snd p <? m) then snd p else m.

(** The root of an affix tuple is what [getRoot] returned for some
    segment. *)
Definition rootFromGetRoot (als : ArabicLightStemmer)
           (rec : rootArgs -> result gostring) (fuel : nat) (r : rootArgs)
           (d : affixTuple) : Prop :=
  exists l_ r_, getRoot_with als rec fuel r l_ r_ = Ok (d_root d).

(** A segment list whose entries hold the segments that start at their
    key, at least one each, all boundaries being offsets into the word. *)
Definition filedSegmap (ls : segmap) : Prop :=
  forall k ps, In (k, ps) ls ->
    ps <> [] /\ forall p, In p ps -> fst p = k /\ 0 <= fst p /\ 0 <= snd p.


(** ** Definitions used by the further properties *)

(** The pair [p] is stored under the key [k] of a segment list. *)
Definition hasPair (segs : segmap) (k : Z) (p : Z * Z) : Prop :=
  exists ps, zlookup k segs = Some ps /\ In p ps.

(** Every pair recorded as seen by [isSeen] is in the segment list. *)
Definition seenInv (st : segmap * zmap (list (Z * Z))) : Prop :=
  forall k set p, zlookup k (snd st) = Some set -> In p set ->
                  hasPair (fst st) k p.

(** The node reached from [branch] along the runes [rs], if each of them
    is the key of a nested map. *)
Fixpoint nodeAt (branch : smap iface) (rs : list rune) : option (smap iface) :=
  match rs with
  | [] => Some branch
  | r :: rs' =>
    match slookup (str [r]) branch with
    | Some (IMap branch') => nodeAt branch' rs'
    | _ => None
    end
  end.

(** The node reached along [rs] carries the terminal marker. *)
Definition terminalAt (tree : smap iface) (rs : list rune) : bool :=
  match nodeAt tree rs with
  | Some node => shas HASH node
  | None => false
  end.

(** The keys under which the runes [rs] are filed in a trie. *)
Definition keyPath (rs : list rune) : list gostring :=
  map (fun r => str [r]) rs.

(** Every entry of every node reached along runes other than ['#'] is a
    map: no type assertion of the lookups fails there. *)
Definition mapsOnly (tree : smap iface) : Prop :=
  forall rs node k s,
    ~ In 35 rs -> nodeAt tree rs = Some node -> slookup k node <> Some (IStr s).

(** The offset [j] cuts the word after runes that end on a terminal
    marker of the trie, with at least one rune left. *)
Definition cutsAt (tree : smap iface) (runeWord : list rune) (j : Z) : Prop :=
  exists d e, runeWord = d ++ e /\ e <> [] /\ j = len d
              /\ terminalAt tree d = true.

(** The offset [k] cuts the word before runes that, read from the last to
    the first, end on a terminal marker, with at least one rune before. *)
Definition cutsBefore (tree : smap iface) (runeWord : list rune) (k : Z)
  : Prop :=
  exists d e, runeWord = d ++ e /\ d <> [] /\ k = len d
              /\ terminalAt tree (rev e) = true.

(** [root] is a candidate [ChooseRoot] accepts: the normalized root or
    stem of one of the affixations, of three or four letters, without Alef,
    and in the dictionary. *)
Definition acceptedRoot (als : ArabicLightStemmer)
           (affixationList : list (smap gostring)) (root : gostring) : Prop :=
  (exists affixation,
      In affixation affixationList
      /\ (root = RootsManager.NormalizeRoot
                   (RootsManager.field affixation (lit "root"))
          \/ root = RootsManager.NormalizeRoot
                      (RootsManager.field affixation (lit "stem"))))
  /\ 3 <= len (runes root) <= 4
  /\ contains root ALEF = false
  /\ IsRoot als root = true.

(** The number of affixations whose normalized root is [root], plus the
    number of those whose normalized stem is. *)
Definition votes (affixationList : list (smap gostring)) (root : gostring) : Z :=
  count root
        (map (fun a => RootsManager.NormalizeRoot
                         (RootsManager.field a (lit "root"))) affixationList)
  + count root
          (map (fun a => RootsManager.NormalizeRoot
                           (RootsManager.field a (lit "stem"))) affixationList).

(** The letters are a class of plain letters for [regexp]: well-formed
    UTF-8 without [-], [[], [\] and []], so that ["[^" + letters + "]"] is
    the set of the runes that are none of the letters. *)
Definition plainClass (letters : gostring) : bool :=
  eqb (str (runes letters)) letters
  && forallb (fun r => negb (existsb (Z.eqb r) [45; 91; 92; 93]))
             (runes letters).

(** The replacement has no [$], which [ReplaceAllString] would expand. *)
Definition plainReplacement (repl : gostring) : bool :=
  negb (existsb (Z.eqb 36) repl).

(** No rune of the affix is ['#']. *)
Definition hashFree (s : gostring) : Prop := ~ In 35 (runes s).

(** The string is well-formed UTF-8: decoding and encoding gives it back. *)
Definition wellFormed (s : gostring) : Prop := str (runes s) = s.

(** * Properties *)

(** ** UTF-8: encoding then decoding *)

Ltac dlia := Z.to_euclidean_division_equations; lia.

Lemma decode_cons1 b0 t :
  (b0 <? 128) = true -> decode (b0 :: t) = (b0, 1) :: decode t.
Proof. intros H. destruct t; simpl; rewrite H; reflexivity. Qed.

Lemma decode_cons2 b0 b1 t :
  (b0 <? 128) = false -> inRange 194 223 b0 && isCont b1 = true ->
  decode (b0 :: b1 :: t) = ((b0 mod 32) * 64 + b1 mod 64, 2) :: decode t.
Proof.
  intros H1 H2.
  change (decode (b0 :: b1 :: t)) with
    (if b0 <? 128 then (b0, 1) :: decode (b1 :: t)
     else if inRange 194 223 b0 && isCont b1
          then ((b0 mod 32) * 64 + b1 mod 64, 2) :: decode t
          else match t with
               | b2 :: t2 =>
                 if inRange 224 239 b0 && second_ok b0 b1 && isCont b2 then
                   ((b0 mod 16) * 4096 + (b1 mod 64) * 64 + b2 mod 64, 3) :: decode t2
                 else
                   match t2 with
                   | b3 :: t3 =>
                     if inRange 240 244 b0 && second_ok b0 b1 && isCont b2 && isCont b3 then
                       ((b0 mod 8) * 262144 + (b1 mod 64) * 4096 + (b2 mod 64) * 64 + b3 mod 64, 4) :: decode t3
                     else (RuneError, 1) :: decode (b1 :: t)
                   | [] => (RuneError, 1) :: decode (b1 :: t)
                   end
               | [] => (RuneError, 1) :: decode (b1 :: t)
               end).
  rewrite H1, H2. reflexivity.
Qed.

Lemma decode_cons3 b0 b1 b2 t :
  (b0 <? 128) = false -> inRange 194 223 b0 && isCont b1 = false ->
  inRange 224 239 b0 && second_ok b0 b1 && isCont b2 = true ->
  decode (b0 :: b1 :: b2 :: t)
  = ((b0 mod 16) * 4096 + (b1 mod 64) * 64 + b2 mod 64, 3) :: decode t.
Proof.
  intros H1 H2 H3.
  change (decode (b0 :: b1 :: b2 :: t)) with
    (if b0 <? 128 then (b0, 1) :: decode (b1 :: b2 :: t)
     else if inRange 194 223 b0 && isCont b1
          then ((b0 mod 32) * 64 + b1 mod 64, 2) :: decode (b2 :: t)
          else
                 if inRange 224 239 b0 && second_ok b0 b1 && isCont b2 then
                   ((b0 mod 16) * 4096 + (b1 mod 64) * 64 + b2 mod 64, 3) :: decode t
                 else
                   match t with
                   | b3 :: t3 =>
                     if inRange 240 244 b0 && second_ok b0 b1 && isCont b2 && isCont b3 then
                       ((b0 mod 8) * 262144 + (b1 mod 64) * 4096 + (b2 mod 64) * 64 + b3 mod 64, 4) :: decode t3
                     else (RuneError, 1) :: decode (b1 :: b2 :: t)
                   | [] => (RuneError, 1) :: decode (b1 :: b2 :: t)
                   end).
  rewrite H1, H2, H3. reflexivity.
Qed.

Lemma decode_cons4 b0 b1 b2 b3 t :
  (b0 <? 128) = false -> inRange 194 223 b0 && isCont b1 = false ->
  inRange 224 239 b0 && second_ok b0 b1 && isCont b2 = false ->
  inRange 240 244 b0 && second_ok b0 b1 && isCont b2 && isCont b3 = true ->
  decode (b0 :: b1 :: b2 :: b3 :: t)
  = ((b0 mod 8) * 262144 + (b1 mod 64) * 4096 + (b2 mod 64) * 64 + b3 mod 64, 4)
      :: decode t.
Proof.
  intros H1 H2 H3 H4.
  change (decode (b0 :: b1 :: b2 :: b3 :: t)) with
    (if b0 <? 128 then (b0, 1) :: decode (b1 :: b2 :: b3 :: t)
     else if inRange 194 223 b0 && isCont b1
          then ((b0 mod 32) * 64 + b1 mod 64, 2) :: decode (b2 :: b3 :: t)
          else
                 if inRange 224 239 b0 && second_ok b0 b1 && isCont b2 then
                   ((b0 mod 16) * 4096 + (b1 mod 64) * 64 + b2 mod 64, 3) :: decode (b3 :: t)
                 else
                     if inRange 240 244 b0 && second_ok b0 b1 && isCont b2 && isCont b3 then
                       ((b0 mod 8) * 262144 + (b1 mod 64) * 4096 + (b2 mod 64) * 64 + b3 mod 64, 4) :: decode t
                     else (RuneError, 1) :: decode (b1 :: b2 :: b3 :: t)).
  rewrite H1, H2, H3, H4. reflexivity.
Qed.

Lemma second_ok_cases b0 b1 :
  second_ok b0 b1 = true <->
  128 <= b1 <= 191 /\ (b0 = 224 -> 160 <= b1) /\ (b0 = 237 -> b1 <= 159)
  /\ (b0 = 240 -> 144 <= b1) /\ (b0 = 244 -> b1 <= 143).
Proof.
  unfold second_ok, inRange, isCont.
  destruct (b0 =? 224) eqn:A; [lia|].
  destruct (b0 =? 237) eqn:B; [lia|].
  destruct (b0 =? 240) eqn:C; [lia|].
  destruct (b0 =? 244) eqn:D; lia.
Qed.

Lemma decode_encodeRune (r : rune) (s : gostring) :
  decode (encodeRune r ++ s) = (sanitize r, len (encodeRune r)) :: decode s.
Proof.
  unfold encodeRune, sanitize.
  destruct ((0 <=? r) && (r <? 128)) eqn:E1.
  { cbn [app]. rewrite decode_cons1 by lia.
    replace ((r <? 0) || (1114111 <? r) || ((55296 <=? r) && (r <=? 57343)))
      with false by lia.
    reflexivity. }
  destruct ((128 <=? r) && (r <? 2048)) eqn:E2.
  { cbn [app]. rewrite decode_cons2 by (unfold inRange, isCont; dlia).
    replace ((r <? 0) || (1114111 <? r) || ((55296 <=? r) && (r <=? 57343)))
      with false by lia.
    apply f_equal2; [apply f_equal2; [dlia | reflexivity] | reflexivity]. }
  destruct ((r <? 0) || (1114111 <? r) || ((55296 <=? r) && (r <=? 57343))) eqn:E3.
  { reflexivity. }
  assert (S3 : forall b0 b1, 224 <= b0 -> inRange 194 223 b0 && isCont b1 = false)
    by (intros; unfold inRange; lia).
  destruct (r <? 65536) eqn:E4.
  { cbn [app]. rewrite decode_cons3.
    - apply f_equal2; [apply f_equal2; [dlia | reflexivity] | reflexivity].
    - dlia.
    - apply S3. dlia.
    - apply andb_true_iff; split; [apply andb_true_iff; split|].
      + unfold inRange. dlia.
      + apply second_ok_cases. dlia.
      + unfold isCont. dlia. }
  { cbn [app]. rewrite decode_cons4.
    - apply f_equal2; [apply f_equal2; [dlia | reflexivity] | reflexivity].
    - dlia.
    - apply S3. dlia.
    - unfold inRange.
      replace (240 + r / 262144 <=? 239) with false by (symmetry; dlia).
      rewrite andb_false_r. reflexivity.
    - apply andb_true_iff; split;
        [apply andb_true_iff; split; [apply andb_true_iff; split|]|].
      + unfold inRange. dlia.
      + apply second_ok_cases. dlia.
      + unfold isCont. dlia.
      + unfold isCont. dlia. }
Qed.

Lemma runes_str (rs : list rune) : runes (str rs) = map sanitize rs.
Proof.
  unfold runes, str. induction rs as [|r rs IH]; [reflexivity|].
  cbn [flat_map map]. rewrite decode_encodeRune. cbn [map fst]. now rewrite IH.
Qed.

Lemma len_runes_str (rs : list rune) : len (runes (str rs)) = len rs.
Proof. unfold len. now rewrite runes_str, length_map. Qed.

Lemma len_nonneg {A : Type} (xs : list A) : 0 <= len xs.
Proof. unfold len. lia. Qed.

Lemma goslice_ok {A : Type} (xs : list A) (lo hi : Z) (ys : list A) :
  goslice xs lo hi = Ok ys <-> (0 <= lo <= hi /\ hi <= len xs) /\ ys = sub xs lo hi.
Proof.
  unfold goslice, sub.
  destruct ((0 <=? lo) && (lo <=? hi) && (hi <=? len xs)) eqn:E; split.
  - intros H. inversion H. split; [lia | reflexivity].
  - intros [_ ->]. reflexivity.
  - discriminate.
  - intros [H _]. lia.
Qed.

Lemma sub_all {A : Type} (xs : list A) : sub xs 0 (len xs) = xs.
Proof.
  unfold sub, len. rewrite Z.sub_0_r, Nat2Z.id. cbn [Z.to_nat skipn].
  apply firstn_all.
Qed.

(** ** The empty word *)

(** C9: [LightStem] of the empty string is the empty string, whatever the
    stemmer and before any stage runs: no fuel is consumed and the result
    does not depend on the tables, even on a stemmer whose star transform
    panics on every word. *)
Theorem LightStem_empty (als : ArabicLightStemmer) (fuel : nat) :
  LightStem als fuel (lit "") = Ok (lit "").
Proof. reflexivity. Qed.

(** ** Verb validity *)

Lemma sanitize_eqb (r c : rune) :
  0 <= c < 55296 -> (c =? sanitize r) = (r =? c).
Proof. unfold sanitize, RuneError. intros H. destruct (_ || _) eqn:E; lia. Qed.

Lemma lastLetter_containsAny (prefix : gostring) :
  (len (runes prefix) >? 0)
  && containsAny (str [last (runes prefix) RuneError])
       (YEH ++ NOON ++ TEH ++ ALEF_HAMZA_ABOVE ++ ALEF)
  = lastLetterIn prefix [YEH; NOON; TEH; ALEF_HAMZA_ABOVE; ALEF].
Proof.
  unfold lastLetterIn, containsAny.
  destruct (runes prefix) as [|r0 rs] eqn:E using rev_ind; [reflexivity|].
  rewrite rev_app_distr, last_last. cbn [rev app].
  assert (Hl : (len (rs ++ [r0]) >? 0) = true).
  { apply Z.gtb_lt. unfold len. rewrite length_app. cbn [List.length]. lia. }
  rewrite Hl.
  rewrite runes_str. cbn [map andb].
  change (runes (YEH ++ NOON ++ TEH ++ ALEF_HAMZA_ABOVE ++ ALEF))
    with [1610; 1606; 1578; 1571; 1575].
  change (runeOf YEH) with 1610. change (runeOf NOON) with 1606.
  change (runeOf TEH) with 1578. change (runeOf ALEF_HAMZA_ABOVE) with 1571.
  change (runeOf ALEF) with 1575.
  cbn [existsb]. rewrite !orb_false_r.
  rewrite !sanitize_eqb by lia. reflexivity.
Qed.

Lemma endsIn_any (prefix : gostring) :
  (forall l, In l [YEH; TEH; NOON; ALEF_HAMZA_ABOVE] -> hasSuffix prefix l = false)
  <-> hasSuffix prefix YEH || hasSuffix prefix TEH
      || hasSuffix prefix NOON || hasSuffix prefix ALEF_HAMZA_ABOVE = false.
Proof.
  split.
  - intros H.
    rewrite (H YEH), (H TEH), (H NOON), (H ALEF_HAMZA_ABOVE); cbn; auto.
  - intros H l Hl. apply orb_false_iff in H. destruct H as [H H4].
    apply orb_false_iff in H. destruct H as [H H3].
    apply orb_false_iff in H. destruct H as [H1 H2].
    cbn [In] in Hl. intuition (subst; assumption).
Qed.

(** C6: under the tag ["verb"], [validStem] accepts a stem exactly when the
    six conditions of the specification hold: between 2 and 6 characters,
    no Teh Marbuta, a 6-letter stem starts with Alef, a 5-letter stem
    starting with neither Alef nor Teh has a prefix that does not end in
    Yeh, Teh, Noon or Alef with Hamza above, a stem starting with Alef does
    not follow a prefix whose last letter is Yeh, Noon, Teh, Alef with Hamza
    above or Alef, and the stem carries a known verb stamp. *)
Theorem validStem_verb_iff (als : ArabicLightStemmer) (stem prefix : gostring) :
  validStem als stem (lit "verb") prefix = true
  <-> verbStemAccepted als stem prefix.
Proof.
  unfold verbStemAccepted, validStem, runeLen.
  destruct stem as [|b stem'] eqn:Es.
  { split; [discriminate|]. intros [H _]. cbn in H. lia. }
  rewrite <- Es. clear Es b stem'.
  change (eqb (lit "verb") (lit "verb")) with true. cbv iota zeta.
  rewrite <- (andb_assoc (hasPrefix stem ALEF)), lastLetter_containsAny.
  rewrite (endsIn_any prefix).
  set (n := len (runes stem)).
  destruct (contains stem TEH_MARBUTA);
    destruct (hasPrefix stem ALEF);
    destruct (hasPrefix stem TEH);
    destruct (lastLetterIn prefix _);
    destruct (IsVerbStamp als stem);
    destruct (hasSuffix prefix YEH || hasSuffix prefix TEH
              || hasSuffix prefix NOON || hasSuffix prefix ALEF_HAMZA_ABOVE);
    cbn [negb andb orb];
    destruct (n >? 6) eqn:N6; destruct (n <? 2) eqn:N2;
    destruct (n =? 6) eqn:E6; destruct (n =? 5) eqn:E5;
    cbn [negb andb orb];
    (split;
     [ intros H; try discriminate H;
       repeat split; try lia; try reflexivity; try congruence;
       try (intros; exfalso; lia); try (intros; discriminate)
     | intros (Hn & Hc & H6 & H5 & Ha & Hv);
       try reflexivity; try discriminate; try lia;
       try (specialize (H6 ltac:(lia)); discriminate);
       try (specialize (Ha eq_refl); discriminate);
       try (specialize (H5 ltac:(lia) eq_refl eq_refl); discriminate) ]).
Qed.

(** ** Maps keyed by integers *)

Section ZMapFacts.

Context {V : Type}.

Lemma zlookup_zinsert_eq (k : Z) (v : V) (m : zmap V) :
  zlookup k (zinsert k v m) = Some v.
Proof.
  induction m as [|[k' v'] m IH]; cbn.
  - now rewrite Z.eqb_refl.
  - destruct (k =? k') eqn:E; cbn; rewrite ?Z.eqb_refl, ?E; auto.
Qed.

Lemma zlookup_zinsert_neq (k k' : Z) (v : V) (m : zmap V) :
  k <> k' -> zlookup k' (zinsert k v m) = zlookup k' m.
Proof.
  intros Hne. induction m as [|[k0 v0] m IH]; cbn.
  - destruct (k' =? k) eqn:E; [lia | reflexivity].
  - destruct (k =? k0) eqn:E; cbn.
    + destruct (k' =? k) eqn:E1; [lia|].
      destruct (k' =? k0) eqn:E2; [lia | reflexivity].
    + destruct (k' =? k0); auto.
Qed.

Lemma zinsert_keys (k : Z) (v : V) (m : zmap V) :
  forall k', In k' (map fst (zinsert k v m)) <-> k' = k \/ In k' (map fst m).
Proof.
  induction m as [|[k0 v0] m IH]; intros k'; cbn.
  - intuition.
  - destruct (k =? k0) eqn:E; cbn.
    + apply Z.eqb_eq in E. subst. intuition.
    + rewrite IH. intuition.
Qed.

Lemma zinsert_NoDup (k : Z) (v : V) (m : zmap V) :
  NoDup (map fst m) -> NoDup (map fst (zinsert k v m)).
Proof.
  induction m as [|[k0 v0] m IH]; cbn; intros H.
  - constructor; [intros [] | constructor].
  - inversion H as [|? ? Hn Hd]; subst.
    destruct (k =? k0) eqn:E; cbn.
    + apply Z.eqb_eq in E. subst. now constructor.
    + constructor; [|auto]. rewrite zinsert_keys. intros [->|Hin]; [lia | auto].
Qed.

Lemma zlookup_In (k : Z) (v : V) (m : zmap V) :
  zlookup k m = Some v -> In (k, v) m.
Proof.
  induction m as [|[k0 v0] m IH]; cbn; [discriminate|].
  destruct (k =? k0) eqn:E.
  - intros H. inversion H. apply Z.eqb_eq in E. subst. now left.
  - intros H. right. auto.
Qed.

Lemma In_zlookup (k : Z) (v : V) (m : zmap V) :
  NoDup (map fst m) -> In (k, v) m -> zlookup k m = Some v.
Proof.
  induction m as [|[k0 v0] m IH]; cbn; [contradiction|].
  intros Hnd [Heq|Hin].
  - inversion Heq. subst. now rewrite Z.eqb_refl.
  - inversion Hnd as [|? ? Hn Hd]; subst.
    destruct (k =? k0) eqn:E; [|auto].
    apply Z.eqb_eq in E. subst. exfalso. apply Hn.
    change k0 with (fst (k0, v)). now apply in_map.
Qed.

End ZMapFacts.

Lemma seg_eqb_eq (a b : segment_t) : seg_eqb a b = true <-> a = b.
Proof.
  destruct a as [a1 a2], b as [b1 b2]. unfold seg_eqb. cbn.
  rewrite andb_true_iff, !Z.eqb_eq. split; [intros [-> ->] | intros H; inversion H]; auto.
Qed.

Lemma existsb_seg (p : segment_t) (set : list segment_t) :
  existsb (seg_eqb p) set = true <-> In p set.
Proof.
  rewrite existsb_exists. split.
  - intros (q & Hq & E). apply seg_eqb_eq in E. now subst.
  - intros H. exists p. split; [assumption | now apply seg_eqb_eq].
Qed.

(** ** The segment list *)

Lemma segInv_addSegment (i j : Z) (st : segmap * zmap (list segment_t)) :
  segInv st -> segInv (addSegment i st j).
Proof.
  intros [Hk Hinv]. unfold addSegment.
  destruct (j >=? i + 2) eqn:Ej; [|split; assumption].
  destruct st as [segs seen]. cbn [fst snd] in *. unfold isSeen, segInv.
  set (seen1 := match zlookup i seen with
                | Some _ => seen
                | None => zinsert i [] seen
                end).
  assert (Hseen1 : forall k set, zlookup k seen = Some set ->
                                 zlookup k seen1 = Some set).
  { intros k set Hs. subst seen1. destruct (zlookup i seen) eqn:Ei; [assumption|].
    rewrite zlookup_zinsert_neq; [assumption|]. intros ->. congruence. }
  destruct (zlookup i seen1) as [set|] eqn:Es.
  2:{ exfalso. subst seen1. destruct (zlookup i seen) eqn:Ei; [congruence|].
      rewrite zlookup_zinsert_eq in Es. discriminate. }
  destruct (existsb (seg_eqb (i, j)) set) eqn:Ex; cbn [negb fst snd].
  - split; [assumption|]. intros k ps Hps.
    destruct (Hinv k ps Hps) as (Hne & Hnd & Hp). repeat split; auto.
    + apply Hp; assumption.
    + apply Hp; assumption.
    + destruct (Hp p H) as (_ & s & Hs & Hin). exists s. split; auto.
  - assert (Hnew : forall ps, zlookup i segs = Some ps -> ~ In (i, j) ps).
    { intros ps Hps Hin. destruct (Hinv i ps Hps) as (_ & _ & Hp).
      destruct (Hp _ Hin) as (_ & s & Hs & Hins).
      apply Hseen1 in Hs. rewrite Es in Hs. inversion Hs; subst s.
      apply existsb_seg in Hins. congruence. }
    unfold zappend. cbn [fst snd]. split.
    + destruct (zlookup i segs); apply zinsert_NoDup; assumption.
    + intros k ps Hps. destruct (Z.eq_dec k i) as [->|Hne].
      * assert (Hps' : ps = match zlookup i segs with
                            | Some xs => xs ++ [(i, j)]
                            | None => [(i, j)]
                            end).
        { destruct (zlookup i segs); rewrite zlookup_zinsert_eq in Hps;
            now inversion Hps. }
        clear Hps. rewrite zlookup_zinsert_eq.
        destruct (zlookup i segs) as [xs|] eqn:Exs; subst ps.
        -- destruct (Hinv i xs Exs) as (Hne & Hnd & Hp). repeat split.
           ++ destruct xs; discriminate.
           ++ apply NoDup_app; [assumption | constructor; [intros []|constructor] |].
              intros a Ha [<-|[]]. now apply (Hnew xs).
           ++ apply in_app_iff in H. destruct H as [H|[<-|[]]]; [now apply Hp | reflexivity].
           ++ apply in_app_iff in H. destruct H as [H|[<-|[]]]; [now apply Hp | cbn; lia].
           ++ exists (set ++ [(i, j)]). split; [reflexivity|].
              apply in_app_iff in H. destruct H as [H|[<-|[]]].
              ** destruct (Hp p H) as (_ & s & Hs & Hins).
                 apply Hseen1 in Hs. rewrite Es in Hs. inversion Hs; subst s.
                 apply in_app_iff. now left.
              ** apply in_app_iff. right. now left.
        -- repeat split.
           ++ discriminate.
           ++ constructor; [intros []|constructor].
           ++ destruct H as [<-|[]]. reflexivity.
           ++ destruct H as [<-|[]]. cbn. lia.
           ++ exists (set ++ [(i, j)]). split; [reflexivity|].
              destruct H as [<-|[]]. apply in_app_iff. right. now left.
      * assert (Hps' : zlookup k segs = Some ps).
        { destruct (zlookup i segs); rewrite zlookup_zinsert_neq in Hps; auto. }
        destruct (Hinv k ps Hps') as (Hne' & Hnd & Hp). repeat split; auto.
        -- apply Hp; assumption.
        -- apply Hp; assumption.
        -- destruct (Hp p H) as (_ & s & Hs & Hin). exists s.
           rewrite zlookup_zinsert_neq by auto. split; auto.
Qed.

Lemma segInv_rights (i : Z) (rights : list Z) :
  forall st, segInv st -> segInv (fold_left (addSegment i) rights st).
Proof.
  induction rights as [|j rights IH]; intros st H; cbn; [assumption|].
  apply IH. now apply segInv_addSegment.
Qed.

Lemma segInv_lefts (lefts rights : list Z) :
  forall st, segInv st ->
  segInv (fold_left (fun st i => fold_left (addSegment i) rights st) lefts st).
Proof.
  induction lefts as [|i lefts IH]; intros st H; cbn; [assumption|].
  apply IH. now apply segInv_rights.
Qed.

Lemma segInv_init : segInv ([], []).
Proof. split; [constructor | intros k ps H; discriminate]. Qed.

(** Every pair of [buildSegments] is filed under its own left boundary,
    which is one of [lefts]. *)
Lemma addSegment_keys (i j : Z) (st : segmap * zmap (list segment_t)) (k : Z) :
  In k (map fst (fst (addSegment i st j))) -> k = i \/ In k (map fst (fst st)).
Proof.
  unfold addSegment. destruct (j >=? i + 2); [|auto].
  destruct (isSeen (snd st) i (i, j)) as [dup seen]. destruct dup; cbn [negb fst]; [auto|].
  unfold zappend. destruct (zlookup i (fst st)); rewrite zinsert_keys; auto.
Qed.

Lemma buildSegments_keys (lefts rights : list Z) (k : Z) :
  In k (map fst (buildSegments lefts rights)) -> In k lefts.
Proof.
  unfold buildSegments.
  assert (G : forall lefts st,
             In k (map fst (fst (fold_left
               (fun st i => fold_left (addSegment i) rights st) lefts st))) ->
             In k lefts \/ In k (map fst (fst st))).
  { clear lefts. induction lefts as [|i lefts IH]; intros st H; cbn in *; [auto|].
    destruct (IH _ H) as [H1|H1]; [auto|].
    assert (R : forall rights st,
               In k (map fst (fst (fold_left (addSegment i) rights st))) ->
               k = i \/ In k (map fst (fst st))).
    { clear. induction rights as [|j rights IHr]; intros st H; cbn in *; [auto|].
      destruct (IHr _ H) as [->|H1]; [auto|]. now apply addSegment_keys in H1. }
    destruct (R _ _ H1); auto. }
  intros H. destruct (G lefts ([], []) H) as [H1|[]]. assumption.
Qed.

Lemma buildSegments_wf (lefts rights : list Z) :
  (forall i, In i lefts -> 0 <= i) -> wfSegmap (buildSegments lefts rights).
Proof.
  intros Hl. unfold buildSegments.
  destruct (segInv_lefts lefts rights _ segInv_init) as [Hk Hinv].
  fold (buildSegments lefts rights) in *.
  split; [assumption|]. intros k ps Hin.
  destruct (Hinv k ps (In_zlookup _ _ _ Hk Hin)) as (Hne & Hnd & Hp).
  repeat split; auto.
  - apply Hl. apply buildSegments_keys with rights.
    change k with (fst (k, ps)). now apply in_map.
  - apply Hp; assumption.
  - apply Hp; assumption.
Qed.

Lemma lookupPrefixes_loop_nonneg (fuel : nat) (runeWord : list rune) (wlen : Z) :
  forall branch i lefts branch' i' lefts',
    0 <= i -> (forall x, In x lefts -> 0 <= x) ->
    lookupPrefixes_loop fuel runeWord wlen branch i lefts = Ok (branch', i', lefts') ->
    0 <= i' /\ forall x, In x lefts' -> 0 <= x.
Proof.
  induction fuel as [|fuel IH]; intros branch i lefts branch' i' lefts' Hi Hl;
    cbn [lookupPrefixes_loop].
  - destruct (negb (i <? wlen)); [|discriminate].
    intros H. inversion H. subst. auto.
  - destruct (negb (i <? wlen)).
    { intros H. inversion H. subst. auto. }
    destruct (goindex runeWord i) as [r| |]; cbn [bind]; try discriminate.
    destruct (slookup (str [r]) branch) as [[s|m]|].
    + discriminate.
    + apply IH; [lia|]. destruct (shas HASH branch); [|assumption].
      intros x Hx. apply in_app_iff in Hx. destruct Hx as [Hx|[<-|[]]]; auto.
    + intros H. inversion H. subst. auto.
Qed.

Lemma lookupPrefixes_nonneg (als : ArabicLightStemmer) (word : gostring)
      (lefts : list Z) :
  lookupPrefixes als word = Ok lefts -> forall x, In x lefts -> 0 <= x.
Proof.
  unfold lookupPrefixes.
  destruct (lookupPrefixes_loop _ _ _ _ _ _) as [[[b i] l]| |] eqn:E;
    cbn [bind]; try discriminate.
  apply lookupPrefixes_loop_nonneg in E; [|lia|intros x [<-|[]]; lia].
  destruct E as [Hi Hl].
  destruct ((i <? len word) && shas HASH b); intros H; inversion H; subst; auto.
  intros x Hx. apply in_app_iff in Hx. destruct Hx as [Hx|[<-|[]]]; auto.
Qed.

Lemma segment_wf (als : ArabicLightStemmer) (word : gostring)
      (segs : segmap) (u : gostring) (l r : Z) :
  segment als word = Ok (segs, u, l, r) -> wfSegmap segs.
Proof.
  unfold segment.
  destruct (lookupPrefixes als _) as [lefts| |] eqn:EL; cbn [bind]; try discriminate.
  destruct (lookupSuffixes als _) as [rights| |]; cbn [bind]; try discriminate.
  destruct (match lefts with [] => _ | _ => _ end); cbn [bind]; try discriminate.
  destruct (match rights with [] => _ | _ => _ end); cbn [bind]; try discriminate.
  destruct (getLeftRight _). intros H. inversion H. subst.
  apply buildSegments_wf. eapply lookupPrefixes_nonneg. eassumption.
Qed.

(** C7: every pair [(left, right)] that [segment] places in the segment
    list is filed under its own left boundary, satisfies
    [right >= left + 2], and is stored once: the list under a left boundary
    holds no pair twice and no left boundary has two entries. *)
Theorem segment_pairs_admissible (als : ArabicLightStemmer) (word : gostring)
        (segs : segmap) (u : gostring) (l r : Z) :
  segment als word = Ok (segs, u, l, r) ->
  NoDup (map fst segs)
  /\ forall k ps, In (k, ps) segs ->
       NoDup ps /\ forall p, In p ps -> fst p = k /\ snd p >= fst p + 2.
Proof.
  intros H. destruct (segment_wf _ _ _ _ _ _ H) as [Hk Hw].
  split; [assumption|]. intros k ps Hin.
  destruct (Hw k ps Hin) as (_ & _ & Hnd & Hp). auto.
Qed.

Lemma segment_pairs_admissible_witness :
  segment Sample.stemmer (lit "يكتبون")
  = Ok ([(0, [(0, 4)]); (1, [(1, 4)])], lit "يكتبون", 1, 4)
  /\ (NoDup (map fst [(0, [(0, 4)]); (1, [(1, 4)])])
      /\ forall k ps, In (k, ps) [(0, [(0, 4)]); (1, [(1, 4)])] ->
           NoDup ps /\ forall p, In p ps -> fst p = k /\ snd p >= fst p + 2).
Proof.
  split; [vm_compute; reflexivity|].
  apply (segment_pairs_admissible Sample.stemmer (lit "يكتبون") _ (lit "يكتبون") 1 4).
  vm_compute. reflexivity.
Defined.

(** ** The default boundary pair *)

Lemma fold_stepMax (ls : segmap) :
  forall m, let m' := fold_left stepMax ls m in
    m <= m' /\ (forall kv, In kv ls -> fst kv <= m')
    /\ (m' = m \/ exists kv, In kv ls /\ fst kv = m').
Proof.
  induction ls as [|kv ls IH]; intros m; cbn.
  - repeat split; [lia | intros kv [] | now left].
  - destruct (IH (stepMax m kv)) as (H1 & H2 & H3).
    assert (Hs : m <= stepMax m kv /\ fst kv <= stepMax m kv
                 /\ (stepMax m kv = m \/ stepMax m kv = fst kv)).
    { unfold stepMax. destruct (fst kv >? m) eqn:E; lia. }
    repeat split.
    + lia.
    + intros kv' [<-|Hin]; [lia | auto].
    + destruct H3 as [H3|(kv' & Hin & E)].
      * destruct Hs as (_ & _ & [Hs|Hs]); [left; lia|].
        right. exists kv. split; [now left | lia].
      * right. exists kv'. split; [now right | assumption].
Qed.

Lemma fold_stepMin (ps : list (Z * Z)) :
  forall m, (forall p, In p ps -> 0 <= snd p) -> m = -1 \/ 0 <= m ->
    let m' := fold_left stepMin ps m in
    (m' = m \/ exists p, In p ps /\ snd p = m')
    /\ (forall p, In p ps -> m' <= snd p)
    /\ (0 <= m -> m' <= m)
    /\ (m' = -1 -> m = -1 /\ ps = []).
Proof.
  induction ps as [|p ps IH]; intros m Hp Hm; cbn.
  - split; [now left | split; [intros p [] | split; [lia | auto]]].
  - assert (Hp0 : 0 <= snd p) by (apply Hp; now left).
    assert (Hs : 0 <= stepMin m p /\ stepMin m p <= snd p
                 /\ (0 <= m -> stepMin m p <= m)
                 /\ (stepMin m p = m \/ stepMin m p = snd p)).
    { unfold stepMin. destruct ((m =? -1) || (snd p <? m)) eqn:E; lia. }
    destruct (IH (stepMin m p)) as (H1 & H2 & H3 & H4).
    { intros q Hq. apply Hp. now right. }
    { right. lia. }
    split; [|split; [|split]].
    + destruct H1 as [H1|(q & Hq & E)].
      * destruct Hs as (_ & _ & _ & [Hs|Hs]); [left; lia|].
        right. exists p. split; [now left | lia].
      * right. exists q. split; [now right | assumption].
    + intros q [<-|Hq]; [lia | auto].
    + intros H0. specialize (H3 ltac:(lia)). lia.
    + intros E. destruct (H4 E) as [E' _]. lia.
Qed.

Lemma fold_nested_min (ls : segmap) :
  forall m,
    fold_left (fun minRight kv => fold_left stepMin (snd kv) minRight) ls m
    = fold_left stepMin (flat_map snd ls) m.
Proof.
  induction ls as [|kv ls IH]; intros m; cbn; [reflexivity|].
  now rewrite fold_left_app, IH.
Qed.

Lemma wfSegmap_filed (ls : segmap) : wfSegmap ls -> filedSegmap ls.
Proof.
  intros [_ Hw] k ps Hin. destruct (Hw k ps Hin) as (Hk & Hne & _ & Hp).
  split; [assumption|]. intros p Hpin. destruct (Hp p Hpin). lia.
Qed.

(** On a non-empty segment list, whose entries hold the segments that
    start at their key and whose boundaries are offsets, [getLeftRight]
    returns the largest left boundary of all the segments together with
    the smallest right boundary of all the segments. *)
Lemma getLeftRight_extremes (ls : segmap) :
  filedSegmap ls -> ls <> [] ->
  let '(maxLeft, minRight) := getLeftRight ls in
  ((exists k ps p, In (k, ps) ls /\ In p ps /\ fst p = maxLeft)
   /\ forall k ps p, In (k, ps) ls -> In p ps -> fst p <= maxLeft)
  /\ ((exists k ps p, In (k, ps) ls /\ In p ps /\ snd p = minRight)
      /\ forall k ps p, In (k, ps) ls -> In p ps -> minRight <= snd p).
Proof.
  intros Hw Hne. unfold getLeftRight.
  destruct ls as [|kv0 ls0] eqn:Els; [congruence|]. rewrite <- Els in *.
  clear Els kv0 ls0.
  change (fun maxLeft kv => if fst kv >? maxLeft then fst kv else maxLeft)
    with stepMax.
  change (fun minRight kv =>
            fold_left (fun minRight0 (pair : Z * Z) =>
                         let right := snd pair in
                         if (minRight0 =? -1) || (right <? minRight0)
                         then right else minRight0) (snd kv) minRight)
    with (fun minRight kv => fold_left stepMin (snd kv) minRight).
  rewrite fold_nested_min.
  assert (Hflat : forall p, In p (flat_map snd ls) <->
                            exists k ps, In (k, ps) ls /\ In p ps).
  { intros p. rewrite in_flat_map. split.
    - intros ([k ps] & H1 & H2). eauto.
    - intros (k & ps & H1 & H2). exists (k, ps). auto. }
  assert (Hfirst : exists k ps p, In (k, ps) ls /\ In p ps).
  { destruct ls as [|[k ps] ls']; [congruence|].
    destruct (Hw k ps ltac:(now left)) as (Hps & _).
    destruct ps as [|p ps']; [congruence|].
    exists k, (p :: ps'), p. split; now left. }
  split.
  - destruct (fold_stepMax ls (-1)) as (H1 & H2 & H3). split.
    + destruct H3 as [H3|([k ps] & Hin & E)].
      * exfalso. destruct Hfirst as (k & ps & p & Hin & Hp).
        specialize (H2 (k, ps) Hin). rewrite H3 in H2. cbn [fst] in H2.
        destruct (Hw k ps Hin) as (_ & Hps). destruct (Hps p Hp). lia.
      * destruct (Hw k ps Hin) as (Hps & Hall).
        destruct ps as [|p ps']; [congruence|].
        exists k, (p :: ps'), p. repeat split; [assumption | now left |].
        destruct (Hall p ltac:(now left)) as (Hk & _). cbn [fst] in E. lia.
    + intros k ps p Hin Hp. destruct (Hw k ps Hin) as (_ & Hall).
      destruct (Hall p Hp) as (Hk & _). rewrite Hk. apply (H2 (k, ps) Hin).
  - destruct (fold_stepMin (flat_map snd ls) (-1)) as (H1 & H2 & _ & H4).
    { intros p Hp. apply Hflat in Hp. destruct Hp as (k & ps & Hin & Hp).
      destruct (Hw k ps Hin) as (_ & Hps). destruct (Hps p Hp). lia. }
    { now left. }
    split.
    + destruct H1 as [H1|(p & Hp & E)].
      * exfalso. destruct (H4 H1) as [_ Hnil].
        destruct Hfirst as (k & ps & p & Hin & Hp).
        assert (Hp' : In p (flat_map snd ls)) by (apply Hflat; eauto).
        rewrite Hnil in Hp'. contradiction.
      * apply Hflat in Hp. destruct Hp as (k & ps & Hin & Hp).
        exists k, ps, p. auto.
    + intros k ps p Hin Hp. apply H2. apply Hflat. eauto.
Qed.

Lemma runeLen_getPrefix (unvocalized : gostring) (left_ j : Z) :
  0 <= j <= runeLen unvocalized ->
  runeLen (getPrefix unvocalized left_ j) = j.
Proof.
  intros H. unfold getPrefix, runeLen in *. cbv zeta.
  replace (j <? 0) with false by lia.
  assert (E : (j >=? 0) && (j <=? len (runes unvocalized)) = true).
  { apply andb_true_iff. split; [rewrite Z.geb_leb|]; apply Z.leb_le; lia. }
  rewrite E, len_runes_str. unfold len in *. rewrite length_firstn. lia.
Qed.

Lemma runeLen_getSuffix (unvocalized : gostring) (right_ j : Z) :
  0 <= j <= runeLen unvocalized ->
  runeLen (getSuffix unvocalized right_ j) = runeLen unvocalized - j.
Proof.
  intros H. unfold getSuffix, runeLen in *. cbv zeta.
  replace (j <? 0) with false by lia.
  assert (E : (j >=? 0) && (j <=? len (runes unvocalized)) = true).
  { apply andb_true_iff. split; [rewrite Z.geb_leb|]; apply Z.leb_le; lia. }
  rewrite E, len_runes_str. unfold len in *. rewrite length_skipn. lia.
Qed.

(** C8: on a non-empty segment list as [segment] builds it (every entry
    holds the segments that start at its key, at least one, and the
    boundaries are offsets), [getLeftRight] returns the largest left
    boundary of all the segments together with the smallest right boundary
    of all the segments.  For boundaries inside the unvocalized word these
    cut the longest prefix and the longest suffix of all the segments: the
    suffix is what follows the right boundary, so the smallest right
    boundary leaves the longest one. *)
Theorem getLeftRight_max_min (ls : segmap) (unvocalized : gostring) :
  filedSegmap ls -> ls <> [] ->
  (forall k ps p, In (k, ps) ls -> In p ps ->
                  fst p <= snd p <= runeLen unvocalized) ->
  let '(maxLeft, minRight) := getLeftRight ls in
  ((exists k ps p, In (k, ps) ls /\ In p ps /\ fst p = maxLeft)
   /\ forall k ps p, In (k, ps) ls -> In p ps -> fst p <= maxLeft)
  /\ ((exists k ps p, In (k, ps) ls /\ In p ps /\ snd p = minRight)
      /\ forall k ps p, In (k, ps) ls -> In p ps -> minRight <= snd p)
  /\ forall k ps p, In (k, ps) ls -> In p ps ->
       runeLen (getPrefix unvocalized maxLeft (fst p))
       <= runeLen (getPrefix unvocalized maxLeft maxLeft)
       /\ runeLen (getSuffix unvocalized minRight (snd p))
          <= runeLen (getSuffix unvocalized minRight minRight).
Proof.
  intros Hw Hne Hin. pose proof (getLeftRight_extremes ls Hw Hne) as H.
  destruct (getLeftRight ls) as [maxLeft minRight].
  destruct H as [[(k1 & ps1 & p1 & Hk1 & Hp1 & E1) Hmax]
                   [(k2 & ps2 & p2 & Hk2 & Hp2 & E2) Hmin]].
  split; [split; [exists k1, ps1, p1; auto | assumption]|].
  split; [split; [exists k2, ps2, p2; auto | assumption]|].
  intros k ps p Hk Hp.
  assert (Hb : forall k ps p, In (k, ps) ls -> In p ps ->
                 0 <= fst p /\ 0 <= snd p).
  { intros k0 ps0 p0 Hk0 Hp0. destruct (Hw k0 ps0 Hk0) as [_ Hall].
    destruct (Hall p0 Hp0) as (_ & H1 & H2). auto. }
  pose proof (Hb _ _ _ Hk Hp) as Hbp. pose proof (Hin _ _ _ Hk Hp) as Hip.
  pose proof (Hb _ _ _ Hk1 Hp1) as Hb1. pose proof (Hin _ _ _ Hk1 Hp1) as Hi1.
  pose proof (Hb _ _ _ Hk2 Hp2) as Hb2. pose proof (Hin _ _ _ Hk2 Hp2) as Hi2.
  pose proof (Hmax _ _ _ Hk Hp) as Hm1. pose proof (Hmin _ _ _ Hk Hp) as Hm2.
  rewrite !runeLen_getPrefix, !runeLen_getSuffix by lia. lia.
Qed.

Lemma getLeftRight_max_min_witness :
  (filedSegmap [(0, [(0, 6); (0, 5)]); (1, [(1, 6); (1, 5)])]
   /\ [(0, [(0, 6); (0, 5)]); (1, [(1, 6); (1, 5)])] <> []
   /\ forall k ps p,
        In (k, ps) [(0, [(0, 6); (0, 5)]); (1, [(1, 6); (1, 5)])] ->
        In p ps -> fst p <= snd p <= runeLen (lit "يكاتبات"))
  /\ let ls := [(0, [(0, 6); (0, 5)]); (1, [(1, 6); (1, 5)])] in
     ((exists k ps p, In (k, ps) ls /\ In p ps /\ fst p = 1)
      /\ forall k ps p, In (k, ps) ls -> In p ps -> fst p <= 1)
     /\ ((exists k ps p, In (k, ps) ls /\ In p ps /\ snd p = 5)
         /\ forall k ps p, In (k, ps) ls -> In p ps -> 5 <= snd p)
     /\ forall k ps p, In (k, ps) ls -> In p ps ->
          runeLen (getPrefix (lit "يكاتبات") 1 (fst p))
          <= runeLen (getPrefix (lit "يكاتبات") 1 1)
          /\ runeLen (getSuffix (lit "يكاتبات") 5 (snd p))
             <= runeLen (getSuffix (lit "يكاتبات") 5 5).
Proof.
  assert (W : filedSegmap [(0, [(0, 6); (0, 5)]); (1, [(1, 6); (1, 5)])]).
  { intros k ps [H|[H|[]]]; inversion H; subst; clear H;
      (split; [discriminate|]); intros p [<-|[<-|[]]]; cbn; lia. }
  assert (B : forall k ps p,
             In (k, ps) [(0, [(0, 6); (0, 5)]); (1, [(1, 6); (1, 5)])] ->
             In p ps -> fst p <= snd p <= runeLen (lit "يكاتبات")).
  { intros k ps p [H|[H|[]]]; inversion H; subst; clear H;
      intros [<-|[<-|[]]]; vm_compute; split; discriminate. }
  split; [split; [exact W | split; [discriminate | exact B]]|].
  exact (getLeftRight_max_min [(0, [(0, 6); (0, 5)]); (1, [(1, 6); (1, 5)])]
           (lit "يكاتبات") W ltac:(discriminate) B).
Defined.

(** Where the wording "shortest suffix, over every non-empty map" goes
    wrong.  On ["يكاتبات"] the
    segments end at 6 (suffix ["ت"]) and at 5 (suffix ["ات"]):
    [getLeftRight] returns 5, the longest suffix, not the shortest.  And on
    a map that is not filed by left boundary the first component is the
    largest key, which need not be the left boundary of any segment. *)
Lemma getLeftRight_suffix_not_shortest :
  segment Sample.stemmer (lit "يكاتبات")
  = Ok ([(0, [(0, 6); (0, 5)]); (1, [(1, 6); (1, 5)])], lit "يكاتبات", 1, 5)
  /\ getLeftRight [(0, [(0, 6); (0, 5)]); (1, [(1, 6); (1, 5)])] = (1, 5)
  /\ getSuffix (lit "يكاتبات") 5 5 = lit "ات"
  /\ getSuffix (lit "يكاتبات") 5 6 = lit "ت"
  /\ ~ (forall k ps p,
          In (k, ps) [(0, [(0, 6); (0, 5)]); (1, [(1, 6); (1, 5)])] ->
          In p ps ->
          runeLen (getSuffix (lit "يكاتبات") 5 5)
          <= runeLen (getSuffix (lit "يكاتبات") 5 (snd p)))
  /\ getLeftRight [(5, [(0, 3)])] = (5, 3)
  /\ ~ (exists k ps p,
          In (k, ps) [(5, [(0, 3)])] /\ In p ps
          /\ fst p = fst (getLeftRight [(5, [(0, 3)])])).
Proof.
  split; [vm_compute; reflexivity|].
  split; [vm_compute; reflexivity|].
  split; [vm_compute; reflexivity|].
  split; [vm_compute; reflexivity|].
  split.
  - intros H. specialize (H 0 [(0, 6); (0, 5)] (0, 6)).
    assert (Hc : runeLen (getSuffix (lit "يكاتبات") 5 5)
                 <= runeLen (getSuffix (lit "يكاتبات") 5 (snd (0, 6))))
      by (apply H; now left).
    vm_compute in Hc. apply Hc. reflexivity.
  - split; [vm_compute; reflexivity|].
    intros (k & ps & p & [E|[]] & Hp & Hf). inversion E; subst; clear E.
    destruct Hp as [<-|[]]. vm_compute in Hf. discriminate.
Qed.

(** The segment lists [segment] returns are of that kind. *)
Lemma segment_filed (als : ArabicLightStemmer) (word : gostring)
      (segs : segmap) (u : gostring) (l r : Z) :
  segment als word = Ok (segs, u, l, r) -> filedSegmap segs.
Proof. intros H. eapply wfSegmap_filed, segment_wf. eassumption. Qed.

(** ** The chosen stem *)

Lemma segment_unvocalized (als : ArabicLightStemmer) (word : gostring)
      (segs : segmap) (u : gostring) (l r : Z) :
  segment als word = Ok (segs, u, l, r) -> u = StripTashkeel als word.
Proof.
  unfold segment.
  destruct (lookupPrefixes als _) as [lefts| |]; cbn [bind]; try discriminate.
  destruct (lookupSuffixes als _) as [rights| |]; cbn [bind]; try discriminate.
  destruct (match lefts with [] => _ | _ => _ end); cbn [bind]; try discriminate.
  destruct (match rights with [] => _ | _ => _ end); cbn [bind]; try discriminate.
  destruct (getLeftRight _). intros H. now inversion H.
Qed.

Lemma chooseStem_is_slice (als : ArabicLightStemmer) (fuel : nat)
      (a : stemArgs) (s : gostring) :
  IsStopword als (a_word a) = false ->
  chooseStem als fuel a = Ok s ->
  exists lo hi, (0 <= lo <= hi /\ hi <= runeLen (a_unvocalized a))
                /\ s = str (sub (runes (a_unvocalized a)) lo hi).
Proof.
  intros Hstop. destruct fuel as [|fuel]; [discriminate|].
  cbn [chooseStem]. unfold chooseStem_body. rewrite Hstop.
  destruct (match a_segmentList a with [] => _ | _ => _ end);
    cbn [bind]; try discriminate.
  destruct (validateSegments _ _ _ _ _) as [v| |]; cbn [bind]; try discriminate.
  destruct (match v with [] => _ | _ => _ end) as [l0 r0].
  match goal with
  | |- bind (goslice ?xs ?lo ?hi) _ = _ -> _ =>
      destruct (goslice xs lo hi) as [rs| |] eqn:E; cbn [bind]; try discriminate;
      intros H; inversion H; subst; apply goslice_ok in E;
      destruct E as [Hb ->]; exists lo, hi; split; [exact Hb | reflexivity]
  end.
Qed.

(** C10: on a non-empty word that is not a stopword, whatever [LightStem]
    returns is cut out of the tashkeel-stripped word between two rune
    boundaries: the runes of the unvocalized word from [lo] to [hi], in
    their order, written back as a string. *)
Theorem LightStem_is_slice (als : ArabicLightStemmer) (fuel : nat)
        (word s : gostring) :
  word <> [] ->
  IsStopword als word = false ->
  LightStem als fuel word = Ok s ->
  exists lo hi,
    (0 <= lo <= hi /\ hi <= runeLen (StripTashkeel als word))
    /\ s = str (sub (runes (StripTashkeel als word)) lo hi).
Proof.
  intros Hne Hstop. unfold LightStem.
  destruct word as [|b word'] eqn:Ew; [congruence|]. rewrite <- Ew in *.
  clear Ew b word' Hne.
  destruct (transform2Stars als word) as [[[[sw su] sl] sr]| |];
    cbn [bind]; try discriminate.
  destruct (segment als word) as [[[[segs u] l] r]| |] eqn:Eseg;
    cbn [bind]; try discriminate.
  apply segment_unvocalized in Eseg. subst u.
  unfold getStem, getStem_with.
  replace ((-1 >=? 0) || (-1 >=? 0)) with false by reflexivity.
  intros H. apply chooseStem_is_slice in H; [|assumption]. exact H.
Qed.

Lemma LightStem_is_slice_witness :
  (lit "يكتبون" <> []
   /\ IsStopword Sample.stemmer (lit "يكتبون") = false
   /\ LightStem Sample.stemmer 1 (lit "يكتبون") = Ok (lit "كتب"))
  /\ exists lo hi,
       (0 <= lo <= hi
        /\ hi <= runeLen (StripTashkeel Sample.stemmer (lit "يكتبون")))
       /\ lit "كتب"
          = str (sub (runes (StripTashkeel Sample.stemmer (lit "يكتبون"))) lo hi).
Proof.
  split.
  - split; [discriminate | split; vm_compute; reflexivity].
  - apply (LightStem_is_slice Sample.stemmer 1 (lit "يكتبون") (lit "كتب")).
    + discriminate.
    + vm_compute. reflexivity.
    + vm_compute. reflexivity.
Defined.

Lemma len_filter_le {A : Type} (f : A -> bool) (xs : list A) :
  len (filter f xs) <= len xs.
Proof.
  unfold len. induction xs as [|x xs IH]; cbn; [lia|].
  destruct (f x); cbn [List.length]; lia.
Qed.

Lemma StripTashkeel_len (als : ArabicLightStemmer) (text : gostring) :
  runeLen (StripTashkeel als text) <= runeLen text.
Proof.
  unfold StripTashkeel, runeLen. destruct text as [|b t]; [lia|].
  destruct (IsVocalized als (b :: t)); [|lia].
  rewrite len_runes_str. apply len_filter_le.
Qed.

Section Fallback.

Variable als : ArabicLightStemmer.
Variable rec : stemArgs -> result gostring.
Variable a : stemArgs.

Hypothesis none_passes :
  forall k ps p, In (k, ps) (a_segmentList a) -> In p ps ->
                 verifyAffix_with als rec a k (snd p) = Ok false.

Lemma validatePairs_none (k : Z) (ps : list (Z * Z)) (v : segmap) :
  (forall p, In p ps -> verifyAffix_with als rec a k (snd p) = Ok false) ->
  validatePairs als rec a k ps v = Ok v.
Proof.
  revert v. induction ps as [|p ps IH]; intros v H; cbn; [reflexivity|].
  rewrite (H p) by now left. cbn [bind]. apply IH.
  intros q Hq. apply H. now right.
Qed.

Lemma validateSegments_none (segs : segmap) (v : segmap) :
  (forall k ps, In (k, ps) segs -> In (k, ps) (a_segmentList a)) ->
  validateSegments als rec a segs v = Ok v.
Proof.
  revert v. induction segs as [|[k ps] segs IH]; intros v H; cbn; [reflexivity|].
  rewrite validatePairs_none.
  - cbn [bind]. apply IH. intros k' ps' Hin. apply H. now right.
  - intros p Hp. apply (none_passes k ps); [apply H; now left | assumption].
Qed.

Lemma chooseStem_body_fallback :
  IsStopword als (a_word a) = false ->
  (a_segmentList a = [] -> isOk (segment als (a_word a)) = true) ->
  runeLen (a_unvocalized a) <= runeLen (a_word a) ->
  chooseStem_body als rec a = Ok (str (runes (a_unvocalized a))).
Proof.
  intros Hstop Hseg Hlen. unfold chooseStem_body. rewrite Hstop.
  assert (E : match a_segmentList a with
              | [] => _ <- segment als (a_word a) ;; Ok tt
              | _ :: _ => Ok tt
              end = Ok tt).
  { destruct (a_segmentList a); [|reflexivity].
    specialize (Hseg eq_refl). destruct (segment als (a_word a)); [reflexivity|discriminate..]. }
  rewrite E. cbn [bind]. rewrite validateSegments_none by auto. cbn [bind].
  unfold runeLen in Hlen.
  replace (0 <? 0) with false by reflexivity.
  destruct (len (runes (a_word a)) >? len (runes (a_unvocalized a))) eqn:G.
  - unfold goslice.
    replace ((0 <=? 0) && (0 <=? len (runes (a_unvocalized a)))
             && (len (runes (a_unvocalized a)) <=? len (runes (a_unvocalized a))))
      with true by (pose proof (len_nonneg (runes (a_unvocalized a))); lia).
    cbn [bind]. fold (sub (runes (a_unvocalized a)) 0 (len (runes (a_unvocalized a)))).
    now rewrite sub_all.
  - assert (Heq : len (runes (a_word a)) = len (runes (a_unvocalized a))) by lia.
    rewrite Heq. unfold goslice.
    replace ((0 <=? 0) && (0 <=? len (runes (a_unvocalized a)))
             && (len (runes (a_unvocalized a)) <=? len (runes (a_unvocalized a))))
      with true by (pose proof (len_nonneg (runes (a_unvocalized a))); lia).
    cbn [bind]. fold (sub (runes (a_unvocalized a)) 0 (len (runes (a_unvocalized a)))).
    now rewrite sub_all.
Qed.

End Fallback.

(** C3, as the code has it: on a non-empty word that is not a stopword and
    on which the star transform and the segmentation complete, when no
    enumerated segment passes affix verification [LightStem] returns the
    entire tashkeel-stripped word, read rune by rune: [chooseStem] falls
    back to [left = 0] and [right] the word length. *)
Theorem LightStem_whole_word (als : ArabicLightStemmer) (fuel : nat)
        (word sw su u : gostring) (sl sr l r : Z) (segs : segmap) :
  word <> [] ->
  IsStopword als word = false ->
  transform2Stars als word = Ok (sw, su, sl, sr) ->
  segment als word = Ok (segs, u, l, r) ->
  (forall k ps p, In (k, ps) segs -> In p ps ->
     verifyAffix als fuel
       {| a_word := word; a_unvocalized := u; a_left := l; a_right := r;
          a_stemLeft := sl; a_stemRight := sr; a_segmentList := segs |}
       k (snd p) = Ok false) ->
  LightStem als (S fuel) word = Ok (str (runes (StripTashkeel als word))).
Proof.
  intros Hne Hstop Ht Hs Hnone. unfold LightStem.
  destruct word as [|b word'] eqn:Ew; [congruence|]. rewrite <- Ew in *.
  clear Ew b word' Hne.
  rewrite Ht, Hs. cbn [bind].
  unfold getStem, getStem_with.
  replace ((-1 >=? 0) || (-1 >=? 0)) with false by reflexivity.
  cbn [chooseStem].
  pose proof (segment_unvocalized _ _ _ _ _ _ Hs) as Hu.
  rewrite (chooseStem_body_fallback als (chooseStem als fuel)); cbn [a_word a_unvocalized a_segmentList].
  - now rewrite Hu.
  - exact Hnone.
  - assumption.
  - intros _. now rewrite Hs.
  - rewrite Hu. apply StripTashkeel_len.
Qed.

Lemma LightStem_whole_word_witness :
  LightStem Sample.stemmer 1 (lit "كتبه")
  = Ok (str (runes (StripTashkeel Sample.stemmer (lit "كتبه")))).
Proof.
  apply (LightStem_whole_word Sample.stemmer 0 (lit "كتبه")
           (lit "*ت*ه") (lit "كتبه") (lit "كتبه") 0 3 0 3 [(0, [(0, 3)])]).
  - discriminate.
  - vm_compute. reflexivity.
  - vm_compute. reflexivity.
  - vm_compute. reflexivity.
  - intros k ps p [H|[]] Hp. inversion H. subst. destruct Hp as [<-|[]].
    vm_compute. reflexivity.
Defined.

(** What the stopword lookup of [chooseStem] gives once the two stages
    before it have completed. *)
Lemma LightStem_stopword_after_segment (als : ArabicLightStemmer) (fuel : nat)
      (word : gostring) :
  word <> [] ->
  IsStopword als word = true ->
  isOk (transform2Stars als word) = true ->
  isOk (segment als word) = true ->
  LightStem als (S fuel) word = Ok (StopStem als word).
Proof.
  intros Hne Hstop Ht Hs. unfold LightStem.
  destruct word as [|b word'] eqn:Ew; [congruence|]. rewrite <- Ew in *.
  clear Ew b word' Hne.
  destruct (transform2Stars als word) as [[[[sw su] sl] sr]| |]; try discriminate.
  destruct (segment als word) as [[[[segs u] l] r]| |]; try discriminate.
  cbn [bind]. unfold getStem, getStem_with.
  replace ((-1 >=? 0) || (-1 >=? 0)) with false by reflexivity.
  cbn [chooseStem]. unfold chooseStem_body. cbn [a_word]. now rewrite Hstop.
Qed.

(** C3 as stated fails on a stopword: no segment of ["بهذا"] is enumerated,
    so none passes verification, yet the stem returned is the precomputed
    stem of the stopword table and not the whole word. *)
Lemma LightStem_whole_word_stopword :
  lit "بهذا" <> []
  /\ segment Sample.stemmer (lit "بهذا") = Ok ([], lit "بهذا", -1, -1)
  /\ LightStem Sample.stemmer 1 (lit "بهذا") = Ok (lit "هذا")
  /\ forall fuel,
       LightStem Sample.stemmer fuel (lit "بهذا")
       <> Ok (StripTashkeel Sample.stemmer (lit "بهذا")).
Proof.
  split; [discriminate|].
  split; [vm_compute; reflexivity|].
  split; [vm_compute; reflexivity|].
  intros [|fuel].
  - vm_compute. discriminate.
  - rewrite LightStem_stopword_after_segment;
      [vm_compute; discriminate | discriminate | vm_compute; reflexivity ..].
Qed.

(** ** Panics of the trie lookup *)

(** C1 on the code: the loop of [lookupPrefixes] is bounded by the byte
    length of the word and indexes its runes.  On the article ["ال"], whose
    two letters are followed in the prefix trie, the third iteration reads
    [runeWord[2]] of a two-rune slice: [lookupPrefixes], [segment] and
    [LightStem] panic, whatever the fuel. *)
Theorem LightStem_panics_on_prefix_word :
  lookupPrefixes Sample.stemmer (lit "ال") = Panic
  /\ segment Sample.stemmer (lit "ال") = Panic
  /\ forall fuel, LightStem Sample.stemmer fuel (lit "ال") = Panic.
Proof.
  split; [vm_compute; reflexivity|].
  split; [vm_compute; reflexivity|].
  intros fuel. unfold LightStem.
  replace (transform2Stars Sample.stemmer (lit "ال"))
    with (Ok (lit "ا*", lit "ال", 0, 2)) by (vm_compute; reflexivity).
  replace (segment Sample.stemmer (lit "ال"))
    with (@Panic (zmap (list (Z * Z)) * gostring * Z * Z))
    by (vm_compute; reflexivity).
  reflexivity.
Qed.

(** C2 on the code: the conjunction ["و"] is a stopword whose table stem
    is ["و"], and it is a prefix too; [LightStem] runs the segmentation
    before the stopword lookup of [chooseStem] and panics in
    [lookupPrefixes], so the table stem is never returned. *)
Theorem LightStem_panics_on_stopword :
  IsStopword Sample.stemmer (lit "و") = true
  /\ StopStem Sample.stemmer (lit "و") = lit "و"
  /\ forall fuel, LightStem Sample.stemmer fuel (lit "و") = Panic.
Proof.
  split; [vm_compute; reflexivity|].
  split; [vm_compute; reflexivity|].
  intros fuel. unfold LightStem.
  replace (transform2Stars Sample.stemmer (lit "و"))
    with (Ok (lit "و", lit "و", -1, -1)) by (vm_compute; reflexivity).
  replace (segment Sample.stemmer (lit "و"))
    with (@Panic (zmap (list (Z * Z)) * gostring * Z * Z))
    by (vm_compute; reflexivity).
  reflexivity.
Qed.

(** ** The chosen root *)

Section Candidates.

Variable als : ArabicLightStemmer.
Variable rec : rootArgs -> result gostring.
Variable fuel : nat.
Variable r : rootArgs.

Lemma affixPairs_spec (k : Z) (ps : list (Z * Z)) :
  forall acc l,
    affixPairs als rec fuel r k ps acc = Ok l ->
    exists ds, l = acc ++ ds /\ List.length ds = List.length ps
               /\ Forall (rootFromGetRoot als rec fuel r) ds.
Proof.
  induction ps as [|p ps IH]; intros acc l; cbn.
  - intros H. inversion H. exists []. rewrite app_nil_r. auto.
  - destruct (getAffixTuple_with als rec fuel r k (snd p)) as [d| |] eqn:E;
      cbn [bind]; try discriminate.
    intros H. destruct (IH _ _ H) as (ds & -> & Hlen & Hall).
    exists (d :: ds). rewrite <- app_assoc. cbn. repeat split; auto.
    constructor; [|assumption].
    unfold getAffixTuple_with in E.
    destruct (getStem _ _ _ _ _); cbn [bind] in E; try discriminate.
    destruct (getStarStem _ _ _ _ _ _); cbn [bind] in E; try discriminate.
    destruct (getRoot_with als rec fuel r k (snd p)) as [x| |] eqn:G;
      cbn [bind] in E; try discriminate.
    inversion E. subst d. cbn. exists k, (snd p). exact G.
Qed.

Lemma affixSegments_spec (segs : segmap) :
  forall acc l,
    affixSegments als rec fuel r segs acc = Ok l ->
    exists ds, l = acc ++ ds /\ List.length ds = npairs segs
               /\ Forall (rootFromGetRoot als rec fuel r) ds.
Proof.
  unfold npairs. induction segs as [|[k ps] segs IH]; intros acc l; cbn.
  - intros H. inversion H. exists []. rewrite app_nil_r. auto.
  - destruct (affixPairs als rec fuel r k ps acc) as [l1| |] eqn:E;
      cbn [bind]; try discriminate.
    intros H. apply affixPairs_spec in E. destruct E as (d1 & -> & L1 & F1).
    destruct (IH _ _ H) as (d2 & -> & L2 & F2).
    exists (d1 ++ d2). rewrite <- app_assoc, !length_app.
    repeat split; [lia | now apply Forall_app].
Qed.

Lemma candidateRoots_spec (roots : list gostring) :
  candidateRoots_with als rec fuel r = Ok roots ->
  List.length roots = npairs (r_segmentList r)
  /\ Forall (fun x => exists l_ r_, getRoot_with als rec fuel r l_ r_ = Ok x) roots.
Proof.
  unfold candidateRoots_with, getAffixList_with.
  destruct (match r_segmentList r with [] => _ | _ => _ end);
    cbn [bind]; try discriminate.
  destruct (affixSegments als rec fuel r (r_segmentList r) []) as [l| |] eqn:E;
    cbn [bind]; try discriminate.
  intros H. inversion H. subst roots.
  apply affixSegments_spec in E. destruct E as (ds & -> & L & F).
  cbn [app]. rewrite length_map. split; [assumption|].
  apply Forall_map. exact F.
Qed.

End Candidates.

(** With both indices negative [getRoot] re-enters [chooseRoot] on the same
    arguments: such a call returns only when there is no segment. *)
Lemma chooseRoot_reentrant (als : ArabicLightStemmer) (fuel : nat) :
  forall r x,
    IsStopword als (r_word r) = false ->
    r_prefixIndex r < 0 -> r_suffixIndex r < 0 ->
    chooseRoot als fuel r = Ok x ->
    npairs (r_segmentList r) = 0%nat.
Proof.
  induction fuel as [|fuel IH]; intros r x Hstop Hp Hs; [discriminate|].
  cbn [chooseRoot]. unfold chooseRoot_body. rewrite Hstop.
  destruct (candidateRoots_with als (chooseRoot als fuel) fuel r) as [roots| |] eqn:E;
    cbn [bind]; try discriminate.
  intros _. apply candidateRoots_spec in E. destruct E as [L F].
  destruct roots as [|c roots]; [cbn in L; lia|].
  inversion F as [|? ? (l_ & r_ & G) _]; subst.
  unfold getRoot_with in G.
  replace ((r_prefixIndex r >=? 0) || (r_suffixIndex r >=? 0)) with false in G by lia.
  eapply IH; eassumption.
Qed.

(** Every candidate root of a call of [chooseRoot] is the root it was
    given. *)
Lemma candidateRoots_all_given (als : ArabicLightStemmer) (fuel : nat)
      (r : rootArgs) (roots : list gostring) :
  IsStopword als (r_word r) = false ->
  candidateRoots als fuel r = Ok roots ->
  Forall (eq (r_root r)) roots.
Proof.
  intros Hstop E. unfold candidateRoots in E.
  apply candidateRoots_spec in E. destruct E as [L F].
  destruct ((r_prefixIndex r >=? 0) || (r_suffixIndex r >=? 0)) eqn:Idx.
  - eapply Forall_impl; [|exact F]. intros x (l_ & r_ & G).
    unfold getRoot_with in G. rewrite Idx in G.
    destruct (extractRoot _ _ _ _ _); cbn [bind] in G; try discriminate.
    now inversion G.
  - destruct roots as [|c roots]; [constructor|]. exfalso.
    inversion F as [|? ? (l_ & r_ & G) _]; subst.
    unfold getRoot_with in G. rewrite Idx in G.
    apply chooseRoot_reentrant in G; [|assumption|lia|lia].
    cbn in L. lia.
Qed.

Lemma eqb_refl (s : gostring) : eqb s s = true.
Proof. induction s as [|b s IH]; cbn; [reflexivity|]. now rewrite Z.eqb_refl. Qed.

Lemma leb_refl (s : gostring) : leb s s = true.
Proof.
  induction s as [|b s IH]; cbn; [reflexivity|].
  rewrite Z.eqb_refl, IH. cbn. apply orb_true_r.
Qed.

Lemma Forall_eq_repeat {A : Type} (x : A) (l : list A) :
  Forall (eq x) l -> l = repeat x (List.length l).
Proof. induction 1 as [|y l <- _ IH]; cbn; [reflexivity | now rewrite <- IH]. Qed.

Lemma filter_repeat {A : Type} (f : A -> bool) (x : A) (n : nat) :
  filter f (repeat x n) = if f x then repeat x n else [].
Proof.
  induction n as [|n IH]; cbn; [now destruct (f x)|].
  rewrite IH. now destruct (f x).
Qed.

Lemma sortStrings_repeat (x : gostring) (n : nat) :
  sortStrings (repeat x n) = repeat x n.
Proof.
  unfold sortStrings. induction n as [|n IH]; cbn; [reflexivity|].
  rewrite IH. destruct n; cbn; [reflexivity|]. now rewrite leb_refl.
Qed.

Lemma mostCommon_all_same (x : gostring) (n : nat) :
  fst (fold_left
         (fun (acc : gostring * Z) item =>
            if count item (repeat x (S n)) >? snd acc
            then (item, count item (repeat x (S n))) else acc)
         (sortStrings (repeat x (S n))) ([], 0)) = x.
Proof.
  rewrite sortStrings_repeat.
  assert (C : count x (repeat x (S n)) = Z.of_nat (S n)).
  { unfold count, len. now rewrite filter_repeat, eqb_refl, repeat_length. }
  assert (F : forall k, fold_left
                (fun (acc : gostring * Z) item =>
                   if count item (repeat x (S n)) >? snd acc
                   then (item, count item (repeat x (S n))) else acc)
                (repeat x k) (x, Z.of_nat (S n)) = (x, Z.of_nat (S n))).
  { induction k as [|k IH]; cbn [repeat fold_left]; [reflexivity|].
    change (x :: repeat x n) with (repeat x (S n)). rewrite C. cbn [snd].
    rewrite Z.gtb_ltb, Z.ltb_irrefl. exact IH. }
  change (repeat x (S n)) with (x :: repeat x n) at 3. cbn [fold_left].
  change (x :: repeat x n) with (repeat x (S n)). rewrite C. cbn [snd].
  assert (G : (Z.of_nat (S n) >? 0) = true) by (apply Z.gtb_lt; lia).
  rewrite G. now rewrite F.
Qed.

Lemma mostCommon_repeat (x : gostring) (n : nat) :
  mostCommon (repeat x (S n)) = x.
Proof.
  unfold mostCommon. cbv zeta. rewrite filter_repeat. cbv beta.
  destruct (len x =? 3); cbn [repeat]; apply (mostCommon_all_same x n).
Qed.

Lemma selectRoot_repeat (als : ArabicLightStemmer) (x : gostring) (n : nat) :
  selectRoot als (repeat x (S n)) = x.
Proof.
  unfold selectRoot. cbv zeta. rewrite filter_repeat.
  destruct (isRootLengthValid x); cbn [repeat];
    change (x :: repeat x n) with (repeat x (S n));
    rewrite filter_repeat;
    destruct (IsRoot als x); cbn [repeat];
    apply (mostCommon_repeat x n).
Qed.

(** Through [chooseRoot] itself the length filter cannot show: every
    candidate is the root the call was given, so the length and the
    dictionary filters keep all candidates or none and the most common one
    is that root.  When the candidate roots of a call hold a root of 2, 3 or
    4 characters, the call returns it. *)
Lemma chooseRoot_length (als : ArabicLightStemmer) (fuel : nat)
        (r : rootArgs) (roots : list gostring) :
  IsStopword als (r_word r) = false ->
  candidateRoots als fuel r = Ok roots ->
  (exists c, In c roots /\ 2 <= runeLen c <= 4) ->
  exists root, chooseRoot als (S fuel) r = Ok root /\ 2 <= runeLen root <= 4.
Proof.
  intros Hstop Hc (c & Hin & Hlen).
  pose proof (candidateRoots_all_given _ _ _ _ Hstop Hc) as Hall.
  assert (Hc' : c = r_root r).
  { rewrite Forall_forall in Hall. symmetry. now apply Hall. }
  exists (r_root r). split; [|now rewrite <- Hc'].
  cbn [chooseRoot]. unfold chooseRoot_body. rewrite Hstop.
  unfold candidateRoots in Hc. rewrite Hc. cbn [bind]. f_equal.
  rewrite (Forall_eq_repeat _ _ Hall).
  destruct roots as [|y roots]; [contradiction|]. cbn [List.length].
  apply selectRoot_repeat.
Qed.

Lemma chooseRoot_length_witness :
  exists root,
    chooseRoot Sample.stemmer 1
      {| r_word := lit "يكتبون"; r_unvocalized := lit "يكتبون";
         r_root := lit "كتب"; r_stemLeft := 1; r_stemRight := 4;
         r_prefixIndex := 1; r_suffixIndex := 4;
         r_segmentList := [(0, [(0, 4)]); (1, [(1, 4)])] |} = Ok root
    /\ 2 <= runeLen root <= 4.
Proof.
  apply (chooseRoot_length Sample.stemmer 0 _ [lit "كتب"; lit "كتب"]).
  - vm_compute. reflexivity.
  - vm_compute. reflexivity.
  - exists (lit "كتب"). split; [now left|].
    unfold runeLen.
    replace (len (runes (lit "كتب"))) with 3 by (vm_compute; reflexivity). lia.
Defined.

(** ** The three-letter shortcut of [extractRoot] *)

(** C5 on the code: [extractRoot] takes its shortcut when the stem is three
    bytes long, not three letters.  The three-letter stem ["ةةك"] is six
    bytes long, so its star pattern is computed; its normalized form ["ك"]
    is two bytes long, so [ajustRoot] is applied with that pattern, and the
    root returned is the pattern ["ة*"], not the stem up to
    normalization. *)
Theorem extractRoot_three_letter_stem :
  let r := {| r_word := lit "ةةك"; r_unvocalized := lit "ةةك";
              r_root := lit ""; r_stemLeft := 0; r_stemRight := 3;
              r_prefixIndex := 0; r_suffixIndex := 3;
              r_segmentList := [] |} in
  (forall fuel,
     getStem Sample.stemmer fuel (stemArgsOf r 0 3) 0 3 = Ok (lit "ةةك"))
  /\ runeLen (lit "ةةك") = 3
  /\ len (lit "ةةك") = 6
  /\ getStarStem Sample.stemmer (lit "ةةك") 0 3 0 3 = Ok (lit "ة*")
  /\ normalizeRoot (lit "ةةك") = lit "ك"
  /\ forall fuel, extractRoot Sample.stemmer fuel r 0 3 = Ok (lit "ة*").
Proof.
  cbv zeta.
  assert (G : forall fuel,
             getStem Sample.stemmer fuel
               (stemArgsOf {| r_word := lit "ةةك"; r_unvocalized := lit "ةةك";
                              r_root := lit ""; r_stemLeft := 0; r_stemRight := 3;
                              r_prefixIndex := 0; r_suffixIndex := 3;
                              r_segmentList := [] |} 0 3) 0 3 = Ok (lit "ةةك")).
  { intros fuel. vm_compute. reflexivity. }
  split; [exact G|].
  split; [vm_compute; reflexivity|].
  split; [vm_compute; reflexivity|].
  split; [vm_compute; reflexivity|].
  split; [vm_compute; reflexivity|].
  intros fuel. unfold extractRoot. cbn [r_prefixIndex r_suffixIndex].
  rewrite G. vm_compute. reflexivity.
Qed.

(** ** Where the lookups and the slice panic *)

Lemma goindex_out {A : Type} (xs : list A) : goindex xs (len xs) = Panic.
Proof. unfold goindex. replace (len xs <? len xs) with false by lia.
       now rewrite andb_false_r. Qed.

Lemma goindex_app {A : Type} (xs : list A) (x : A) (ys : list A) :
  goindex (xs ++ x :: ys) (len xs) = Ok x.
Proof.
  unfold goindex, len. rewrite length_app. cbn [List.length].
  assert (E : (0 <=? Z.of_nat (List.length xs))
              && (Z.of_nat (List.length xs)
                  <? Z.of_nat (List.length xs + S (List.length ys))) = true).
  { apply andb_true_iff. split; [apply Z.leb_le | apply Z.ltb_lt]; lia. }
  rewrite E, Nat2Z.id, nth_error_app2, Nat.sub_diag by lia. reflexivity.
Qed.

Lemma lookupPrefixes_loop_runs_off (wlen : Z) (rest : list rune) :
  forall fuel done branch lefts,
    followed branch rest = true ->
    len done + len rest < wlen ->
    (List.length rest < fuel)%nat ->
    lookupPrefixes_loop fuel (done ++ rest) wlen branch (len done) lefts = Panic.
Proof.
  induction rest as [|r rest IH]; intros fuel done branch lefts Hf Hlen Hfuel.
  - destruct fuel as [|fuel]; [cbn in Hfuel; lia|].
    cbn [lookupPrefixes_loop]. unfold len in Hlen. cbn [List.length] in Hlen.
    replace (len done <? wlen) with true by (unfold len; lia). cbn [negb].
    rewrite app_nil_r, goindex_out. reflexivity.
  - destruct fuel as [|fuel]; [cbn in Hfuel; lia|].
    cbn [lookupPrefixes_loop].
    assert (Hl : len (r :: rest) = 1 + len rest)
      by (unfold len; cbn [List.length]; lia).
    replace (len done <? wlen) with true
      by (pose proof (len_nonneg rest); lia).
    cbn [negb]. rewrite goindex_app. cbn [bind].
    cbn [followed] in Hf.
    destruct (slookup (str [r]) branch) as [[s|branch']|]; try discriminate.
    replace (done ++ r :: rest) with ((done ++ [r]) ++ rest)
      by (now rewrite <- app_assoc).
    replace (len done + 1) with (len (done ++ [r]))
      by (unfold len; rewrite length_app; cbn [List.length]; lia).
    apply IH; [assumption | | cbn [List.length] in Hfuel; lia].
    unfold len. rewrite length_app. cbn [List.length]. unfold len in Hl, Hlen. lia.
Qed.

(** The panic of [lookupPrefixes] does not depend on the tables: it occurs
    on every word that has more bytes than runes and whose runes are all
    followed in the prefix trie. *)
Lemma lookupPrefixes_runs_off (als : ArabicLightStemmer) (word : gostring) :
  followed (prefixesTree als) (runes word) = true ->
  len (runes word) < len word ->
  lookupPrefixes als word = Panic.
Proof.
  intros Hf Hlen. unfold lookupPrefixes.
  rewrite (lookupPrefixes_loop_runs_off (len word) (runes word) _ [] _ [0] Hf).
  - reflexivity.
  - cbn. lia.
  - unfold len in Hlen. lia.
Qed.

(** The slice of [chooseStem] is taken between the largest left boundary
    and the smallest right boundary of all validated segments, which need
    not belong to one segment: with the validated segments [(0, 2)] and
    [(3, 5)] of ["abcdef"] the slice is [[3:2]]. *)
Lemma chooseStem_slice_left_after_right :
  segment Overlap.stemmer (lit "abcdef")
  = Ok ([(0, [(0, 5); (0, 2)]); (3, [(3, 5)])], lit "abcdef", 3, 2)
  /\ LightStem Overlap.stemmer 1 (lit "abcdef") = Panic.
Proof. split; vm_compute; reflexivity. Qed.

(** A word that runs the loop of [lookupPrefixes] off its runes is never
    stemmed, stopword or not: [LightStem] segments the word before
    [chooseStem] looks it up in the stopword table. *)
Lemma LightStem_not_ok_when_runs_off (als : ArabicLightStemmer) (fuel : nat)
      (word : gostring) :
  word <> [] ->
  followed (prefixesTree als)
    (runes (replaceAll word ALEF_MADDA (HAMZA ++ ALEF))) = true ->
  len (runes (replaceAll word ALEF_MADDA (HAMZA ++ ALEF)))
  < len (replaceAll word ALEF_MADDA (HAMZA ++ ALEF)) ->
  isOk (LightStem als fuel word) = false.
Proof.
  intros Hne Hf Hlen. unfold LightStem.
  destruct word as [|b word'] eqn:Ew; [congruence|]. rewrite <- Ew in *.
  clear Ew b word' Hne.
  destruct (transform2Stars als word) as [[[[sw su] sl] sr]| |];
    cbn [bind]; try reflexivity.
  unfold segment. rewrite (lookupPrefixes_runs_off als _ Hf Hlen). reflexivity.
Qed.

(** ** Every listed prefix is a path of the prefix trie *)

Lemma eqb_eq (a b : gostring) : eqb a b = true <-> a = b.
Proof.
  revert b. induction a as [|x a IH]; intros [|y b]; cbn;
    try (split; [discriminate | intros H; inversion H]; fail);
    [split; reflexivity|].
  rewrite andb_true_iff, Z.eqb_eq, IH.
  split; [intros [-> ->]; reflexivity | intros H; inversion H; auto].
Qed.

Lemma slookup_sinsert {V : Type} (k k' : gostring) (v : V) (m : smap V) :
  slookup k (sinsert k' v m) = if eqb k k' then Some v else slookup k m.
Proof.
  induction m as [|[k0 v0] m IH]; cbn.
  - reflexivity.
  - destruct (eqb k' k0) eqn:E; cbn.
    + apply eqb_eq in E. subst k0. destruct (eqb k k'); reflexivity.
    + rewrite IH. destruct (eqb k k0) eqn:E0; [|reflexivity].
      apply eqb_eq in E0. subst k0.
      destruct (eqb k k') eqn:E1; [|reflexivity].
      apply eqb_eq in E1. subst k'. rewrite eqb_refl in E. discriminate.
Qed.

Lemma str_one_not_hash (r : rune) : r <> 35 -> eqb (str [r]) HASH = false.
Proof.
  intros H. unfold str, HASH. cbn [flat_map lit]. rewrite app_nil_r.
  change (Z.of_N (N_of_ascii "#")) with 35.
  unfold encodeRune.
  destruct ((0 <=? r) && (r <? 128)).
  { cbn. replace (r =? 35) with false by lia. reflexivity. }
  destruct ((128 <=? r) && (r <? 2048)); [cbn; now rewrite andb_false_r|].
  destruct (_ || _); [reflexivity|].
  destruct (r <? 65536); cbn; now rewrite andb_false_r.
Qed.

Lemma followed_insertAffix_mono (rs : list rune) :
  forall chars affix branch branch',
    ~ In 35 rs ->
    followed branch rs = true ->
    insertAffix chars affix branch = Ok branch' ->
    followed branch' rs = true.
Proof.
  induction rs as [|r rs IH]; intros chars affix branch branch' Hh Hf Hi;
    [reflexivity|].
  cbn [followed] in *.
  destruct (slookup (str [r]) branch) as [[s|b1]|] eqn:E; try discriminate.
  assert (Hr : r <> 35) by (intros ->; apply Hh; now left).
  assert (Hrs : ~ In 35 rs) by (intros H; apply Hh; now right).
  destruct chars as [|c cs]; cbn [insertAffix] in Hi;
    [|change (encodeRune c ++ []) with (str [c]) in Hi].
  - destruct (slookup HASH branch) as [[s|t]|]; try discriminate;
      injection Hi as <-; rewrite slookup_sinsert,
        (str_one_not_hash r Hr), E; assumption.
  - destruct (slookup (str [c]) branch) as [[s|m]|] eqn:Ec; try discriminate.
    + destruct (insertAffix cs affix m) as [m'| |] eqn:Em; cbn [bind] in Hi;
        try discriminate.
      injection Hi as <-. rewrite slookup_sinsert.
      change (encodeRune c ++ []) with (str [c]).
      destruct (eqb (str [r]) (str [c])) eqn:Erc.
      * apply eqb_eq in Erc. rewrite Erc in E. rewrite E in Ec.
        inversion Ec; subst m. eapply IH; eassumption.
      * now rewrite E.
    + destruct (insertAffix cs affix []) as [m'| |] eqn:Em; cbn [bind] in Hi;
        try discriminate.
      injection Hi as <-. rewrite slookup_sinsert.
      change (encodeRune c ++ []) with (str [c]).
      destruct (eqb (str [r]) (str [c])) eqn:Erc.
      * apply eqb_eq in Erc. rewrite Erc in E. congruence.
      * now rewrite E.
Qed.

Lemma followed_insertAffix_self (chars : list rune) :
  forall affix branch branch',
    insertAffix chars affix branch = Ok branch' ->
    followed branch' chars = true.
Proof.
  induction chars as [|c cs IH]; intros affix branch branch' Hi; [reflexivity|].
  cbn [insertAffix] in Hi. cbn [followed].
  change (encodeRune c ++ []) with (str [c]) in Hi.
  destruct (slookup (str [c]) branch) as [[s|m]|]; try discriminate.
  - destruct (insertAffix cs affix m) as [m'| |] eqn:Em; cbn [bind] in Hi;
      try discriminate.
    injection Hi as <-. rewrite slookup_sinsert.
    change (encodeRune c ++ []) with (str [c]). rewrite eqb_refl.
    eapply IH; eassumption.
  - destruct (insertAffix cs affix []) as [m'| |] eqn:Em; cbn [bind] in Hi;
      try discriminate.
    injection Hi as <-. rewrite slookup_sinsert.
    change (encodeRune c ++ []) with (str [c]). rewrite eqb_refl.
    eapply IH; eassumption.
Qed.

Lemma followed_insertAll (affixes : list gostring) :
  forall tree tree' rs,
    ~ In 35 rs ->
    insertAll (fun rs => rs) affixes tree = Ok tree' ->
    followed tree rs = true \/ (exists p, In p affixes /\ runes p = rs) ->
    followed tree' rs = true.
Proof.
  induction affixes as [|a affixes IH]; intros tree tree' rs Hh Hi Hor;
    cbn [insertAll] in Hi.
  - inversion Hi; subst. destruct Hor as [H|(p & [] & _)]. assumption.
  - destruct (insertAffix (runes a) a tree) as [t1| |] eqn:E; cbn [bind] in Hi;
      try discriminate.
    apply (IH t1 tree' rs Hh Hi).
    destruct Hor as [H|(p & [->|Hin] & Hp)].
    + left. eapply followed_insertAffix_mono; eassumption.
    + left. subst rs. eapply followed_insertAffix_self; eassumption.
    + right. eauto.
Qed.

(** Whatever the tables, the stemmer built by [NewArabicLightStemmer] does
    not stem a word of its own prefix list that has a letter of two bytes
    or more (and neither ["#"] nor Alef Madda): the lookup of the prefix
    boundaries reads past the runes of the word. *)
Lemma LightStem_not_ok_on_listed_prefix (t : Tables) (als : ArabicLightStemmer)
      (fuel : nat) (p : gostring) :
  NewArabicLightStemmer t = Ok als ->
  In p (DEFAULT_PREFIX_LIST t) ->
  p <> [] ->
  ~ In 35 (runes p) ->
  replaceAll p ALEF_MADDA (HAMZA ++ ALEF) = p ->
  len (runes p) < len p ->
  isOk (LightStem als fuel p) = false.
Proof.
  intros Hnew Hin Hne Hh Hrep Hlen. unfold NewArabicLightStemmer in Hnew.
  destruct (createPrefixTree (DEFAULT_PREFIX_LIST t)) as [ptree| |] eqn:Ep;
    cbn [bind] in Hnew; try discriminate.
  destruct (createSuffixTree (DEFAULT_SUFFIX_LIST t)) as [stree| |];
    cbn [bind] in Hnew; try discriminate.
  inversion Hnew; subst als.
  apply LightStem_not_ok_when_runs_off; [assumption | |]; rewrite Hrep;
    [|assumption].
  cbn [withTrees prefixesTree].
  eapply followed_insertAll; [eassumption | exact Ep | right; eauto].
Qed.

(** ** The length filter in isolation *)


(** [isRootLengthValid] counts bytes: the one-letter ["ك"] (two bytes)
    passes the filter of [selectRoot] and is selected before the two-letter
    ["كت"].  No call of [chooseRoot] reaches the selection with such a
    list, since all its candidates are one and the same root. *)
Lemma selectRoot_counts_bytes :
  isRootLengthValid (lit "ك") = true
  /\ isRootLengthValid (lit "كتب") = false
  /\ selectRoot Sample.stemmer [lit "كت"; lit "ك"] = lit "ك".
Proof. repeat split; vm_compute; reflexivity. Qed.

(** * Further properties of the code *)

(** ** [utils]: extremes of a slice *)

Lemma fold_max_spec (l : list Z) :
  forall m0, let m := fold_left (fun m v => if v >? m then v else m) l m0 in
    m0 <= m /\ (forall x, In x l -> x <= m) /\ (m = m0 \/ In m l).
Proof.
  induction l as [|v l IH]; intros m0; cbn.
  - repeat split; [lia | intros x [] | now left].
  - destruct (IH (if v >? m0 then v else m0)) as (H1 & H2 & H3).
    assert (Hs : m0 <= (if v >? m0 then v else m0)
                 /\ v <= (if v >? m0 then v else m0)
                 /\ ((if v >? m0 then v else m0) = m0
                     \/ (if v >? m0 then v else m0) = v)).
    { destruct (v >? m0) eqn:E; [apply Z.gtb_lt in E | rewrite Z.gtb_ltb in E]; lia. }
    split; [lia|]. split.
    + intros x [<-|Hx]; [lia | auto].
    + destruct H3 as [H3|H3]; [|right; now right].
      destruct Hs as (_ & _ & [Hs|Hs]); [left; lia | right; left; lia].
Qed.

Lemma fold_min_spec (l : list Z) :
  forall m0, let m := fold_left (fun m v => if v <? m then v else m) l m0 in
    m <= m0 /\ (forall x, In x l -> m <= x) /\ (m = m0 \/ In m l).
Proof.
  induction l as [|v l IH]; intros m0; cbn.
  - repeat split; [lia | intros x [] | now left].
  - destruct (IH (if v <? m0 then v else m0)) as (H1 & H2 & H3).
    assert (Hs : (if v <? m0 then v else m0) <= m0
                 /\ (if v <? m0 then v else m0) <= v
                 /\ ((if v <? m0 then v else m0) = m0
                     \/ (if v <? m0 then v else m0) = v)).
    { destruct (v <? m0) eqn:E; lia. }
    split; [lia|]. split.
    + intros x [<-|Hx]; [lia | auto].
    + destruct H3 as [H3|H3]; [|right; now right].
      destruct Hs as (_ & _ & [Hs|Hs]); [left; lia | right; left; lia].
Qed.

(** X1: [MaxFromSlice] and [MinFromSlice] panic on the empty slice (they
    read [ints[0]]) and otherwise return an element of the slice that
    bounds all the others, from above and from below. *)
Theorem MaxMinFromSlice_spec (ints : list Z) :
  match Utils.MaxFromSlice ints with
  | Ok m => In m ints /\ forall x, In x ints -> x <= m
  | Panic => ints = []
  | OutOfFuel => False
  end
  /\ match Utils.MinFromSlice ints with
     | Ok m => In m ints /\ forall x, In x ints -> m <= x
     | Panic => ints = []
     | OutOfFuel => False
     end.
Proof.
  destruct ints as [|x0 l]; [split; reflexivity|].
  unfold Utils.MaxFromSlice, Utils.MinFromSlice. split.
  - destruct (fold_max_spec (x0 :: l) x0) as (H1 & H2 & H3).
    split; [|exact H2]. destruct H3 as [->|H3]; [now left | assumption].
  - destruct (fold_min_spec (x0 :: l) x0) as (H1 & H2 & H3).
    split; [|exact H2]. destruct H3 as [->|H3]; [now left | assumption].
Qed.

(** ** The three parts of a segmented word *)

Lemma str_app (a b : list rune) : str (a ++ b) = str a ++ str b.
Proof. unfold str. apply flat_map_app. Qed.

Lemma firstn_sub_skipn {A : Type} (xs : list A) (p s : Z) :
  0 <= p <= s -> s <= len xs ->
  firstn (Z.to_nat p) xs ++ sub xs p s ++ skipn (Z.to_nat s) xs = xs.
Proof.
  intros Hp Hs. unfold sub.
  rewrite <- (firstn_skipn (Z.to_nat p) xs) at 4. f_equal.
  rewrite <- (firstn_skipn (Z.to_nat (s - p)) (skipn (Z.to_nat p) xs)) at 2.
  f_equal. rewrite skipn_skipn. f_equal. lia.
Qed.

(** X2: for boundaries [0 <= p <= s] inside the unvocalized word, with
    [p] before its end, [getStem] returns without entering [chooseStem]
    (no fuel is needed) and the prefix, the stem and the suffix cut at [p]
    and [s] put end to end give back the runes of the unvocalized word. *)
Theorem prefix_stem_suffix_tile (als : ArabicLightStemmer) (a : stemArgs)
        (p s : Z) :
  0 <= p <= s -> s <= runeLen (a_unvocalized a) -> p < runeLen (a_unvocalized a) ->
  exists stem,
    getStem als 0 a p s = Ok stem
    /\ getPrefix (a_unvocalized a) (a_left a) p ++ stem
       ++ getSuffix (a_unvocalized a) (a_right a) s
       = str (runes (a_unvocalized a)).
Proof.
  unfold runeLen. intros Hp Hs Hlt.
  set (rs := runes (a_unvocalized a)) in *.
  assert (E1 : (p <? 0) = false) by lia.
  assert (E2 : (s <? 0) = false) by lia.
  assert (E3 : (s >? len rs) = false) by (rewrite Z.gtb_ltb; lia).
  assert (E4 : (p <=? s) && (p <? len rs) = true) by lia.
  assert (E5 : (0 <=? p) && (p <=? s) && (s <=? len rs) = true) by lia.
  assert (E6 : (p >=? 0) && (p <=? len rs) = true) by (rewrite Z.geb_leb; lia).
  assert (E7 : (s >=? 0) && (s <=? len rs) = true) by (rewrite Z.geb_leb; lia).
  assert (E8 : (p >=? 0) || (s >=? 0) = true) by (rewrite !Z.geb_leb; lia).
  exists (str (sub rs p s)). split.
  - unfold getStem, getStem_with. cbv zeta. fold rs.
    rewrite E8, E1, E2. cbv iota. rewrite E1. cbv iota. rewrite E3. cbv iota.
    rewrite E4. unfold goslice. rewrite E5. reflexivity.
  - unfold getPrefix, getSuffix. cbv zeta. fold rs.
    rewrite E1, E2, E6, E7.
    rewrite <- !str_app. f_equal. apply firstn_sub_skipn; lia.
Qed.

Lemma prefix_stem_suffix_tile_witness :
  exists stem,
    getStem Sample.stemmer 0
      {| a_word := lit "يكتبون"; a_unvocalized := lit "يكتبون";
         a_left := 1; a_right := 4; a_stemLeft := 1; a_stemRight := 4;
         a_segmentList := [] |} 1 4 = Ok stem
    /\ getPrefix (lit "يكتبون") 1 1 ++ stem ++ getSuffix (lit "يكتبون") 4 4
       = str (runes (lit "يكتبون")).
Proof.
  apply (prefix_stem_suffix_tile Sample.stemmer
           {| a_word := lit "يكتبون"; a_unvocalized := lit "يكتبون";
              a_left := 1; a_right := 4; a_stemLeft := 1; a_stemRight := 4;
              a_segmentList := [] |} 1 4).
  - lia.
  - vm_compute. discriminate.
  - vm_compute. reflexivity.
Defined.

(** ** Noun validity and the verdict of [verifyAffix] *)

(** X3: under the tag ["noun"], [validStem] accepts exactly the non-empty
    stems of fewer than 8 characters; the prefix plays no part. *)
Theorem validStem_noun_iff (als : ArabicLightStemmer) (stem prefix : gostring) :
  validStem als stem (lit "noun") prefix = true
  <-> stem <> [] /\ runeLen stem < 8.
Proof.
  unfold validStem, runeLen. destruct stem as [|b stem'] eqn:Es.
  { split; [discriminate | intros [H _]; congruence]. }
  rewrite <- Es. change (eqb (lit "noun") (lit "verb")) with false.
  change (eqb (lit "noun") (lit "noun")) with true. cbv iota zeta.
  rewrite Z.geb_leb. destruct (8 <=? len (runes stem)) eqn:E; split.
  - discriminate.
  - intros [_ H]. lia.
  - intros _. split; [subst; discriminate | lia].
  - reflexivity.
Qed.

(** X4: when [verifyAffix] returns, its verdict is the disjunction of the
    two word classes: the affix pair is listed for verbs and the stem is a
    valid verb stem, or the pair is listed for nouns and the stem is a valid
    noun stem.  The branch "valid as both" adds nothing. *)
Theorem verifyAffix_verdict (als : ArabicLightStemmer) (fuel : nat)
        (a : stemArgs) (prefixIndex suffixIndex : Z) (b : bool) :
  verifyAffix als fuel a prefixIndex suffixIndex = Ok b ->
  exists stem,
    getStem als fuel a prefixIndex suffixIndex = Ok stem
    /\ let prefix := getPrefix (a_unvocalized a) (a_left a) prefixIndex in
       let suffix := getSuffix (a_unvocalized a) (a_right a) suffixIndex in
       let affix := prefix ++ lit "-" ++ suffix in
       b = (Utils.AffixInList affix (VERB_AFFIX_LIST als)
            && validStem als stem (lit "verb") prefix)
           || (Utils.AffixInList affix (NOUN_AFFIX_LIST als)
               && validStem als stem (lit "noun") prefix).
Proof.
  unfold verifyAffix, verifyAffix_with, getStem. cbv zeta.
  destruct (getStem_with (chooseStem als fuel) a prefixIndex suffixIndex)
    as [stem| |]; cbn [bind]; try discriminate.
  intros H. exists stem. split; [reflexivity|].
  destruct (_ && validStem als stem (lit "verb") _);
    destruct (_ && validStem als stem (lit "noun") _);
    cbn [orb] in *; now inversion H.
Qed.

Lemma verifyAffix_verdict_witness :
  exists stem,
    getStem Sample.stemmer 0
      {| a_word := lit "يكتبون"; a_unvocalized := lit "يكتبون";
         a_left := 1; a_right := 4; a_stemLeft := 1; a_stemRight := 4;
         a_segmentList := [] |} 1 4 = Ok stem
    /\ let prefix := getPrefix (lit "يكتبون") 1 1 in
       let suffix := getSuffix (lit "يكتبون") 4 4 in
       let affix := prefix ++ lit "-" ++ suffix in
       true = (Utils.AffixInList affix (VERB_AFFIX_LIST Sample.stemmer)
               && validStem Sample.stemmer stem (lit "verb") prefix)
              || (Utils.AffixInList affix (NOUN_AFFIX_LIST Sample.stemmer)
                  && validStem Sample.stemmer stem (lit "noun") prefix).
Proof.
  apply (verifyAffix_verdict Sample.stemmer 0
           {| a_word := lit "يكتبون"; a_unvocalized := lit "يكتبون";
              a_left := 1; a_right := 4; a_stemLeft := 1; a_stemRight := 4;
              a_segmentList := [] |} 1 4 true).
  vm_compute. reflexivity.
Defined.

(** ** Byte lengths of Arabic text *)

Lemma len_app {A : Type} (a b : list A) : len (a ++ b) = len a + len b.
Proof. unfold len. rewrite length_app. lia. Qed.

Lemma encodeRune_two_bytes (r : rune) :
  128 <= r < 2048 -> encodeRune r = [192 + r / 64; 128 + r mod 64].
Proof.
  intros H. unfold encodeRune.
  replace ((0 <=? r) && (r <? 128)) with false by lia.
  replace ((128 <=? r) && (r <? 2048)) with true by lia. reflexivity.
Qed.

Lemma len_str_two_bytes (rs : list rune) :
  Forall (fun r => 128 <= r < 2048) rs -> len (str rs) = 2 * len rs.
Proof.
  induction 1 as [|r rs Hr _ IH]; [reflexivity|].
  change (str (r :: rs)) with (encodeRune r ++ str rs).
  rewrite len_app, IH, (encodeRune_two_bytes r Hr).
  unfold len. cbn [List.length]. lia.
Qed.

(** X5: [isRootLengthValid] measures bytes.  On a root written in letters
    of two bytes each, as all Arabic letters are, it accepts the roots of
    one or two letters and rejects the roots of three and of four. *)
Theorem isRootLengthValid_two_byte_letters (rs : list rune) :
  Forall (fun r => 128 <= r < 2048) rs ->
  isRootLengthValid (str rs) = (len rs =? 1) || (len rs =? 2).
Proof.
  intros H. unfold isRootLengthValid. cbv zeta.
  rewrite (len_str_two_bytes rs H), Z.geb_leb.
  pose proof (len_nonneg rs). lia.
Qed.

Lemma isRootLengthValid_two_byte_letters_witness :
  isRootLengthValid (str (runes (lit "كتب")))
  = (len (runes (lit "كتب")) =? 1) || (len (runes (lit "كتب")) =? 2).
Proof.
  apply (isRootLengthValid_two_byte_letters (runes (lit "كتب"))).
  vm_compute. repeat constructor; discriminate.
Defined.

(** ** The verb normalizer *)

(** X6: [removeDoubleLetterAtEnd] compares the last two bytes.  The two
    bytes of a letter of two bytes are never equal, so a verb that ends in
    such a letter is returned unchanged, also when its last two letters are
    the same letter. *)
Theorem removeDoubleLetterAtEnd_two_byte_letter (s : gostring) (r : rune) :
  128 <= r < 2048 ->
  removeDoubleLetterAtEnd (s ++ encodeRune r) = s ++ encodeRune r.
Proof.
  intros H. unfold removeDoubleLetterAtEnd.
  rewrite (encodeRune_two_bytes r H), rev_app_distr. cbn [rev app].
  replace (128 + r mod 64 =? 192 + r / 64) with false by (symmetry; dlia).
  reflexivity.
Qed.

Lemma removeDoubleLetterAtEnd_two_byte_letter_witness :
  removeDoubleLetterAtEnd (lit "مد" ++ encodeRune 1583)
  = lit "مد" ++ encodeRune 1583.
Proof.
  apply (removeDoubleLetterAtEnd_two_byte_letter (lit "مد") 1583). lia.
Defined.

(** X7: every verb of the initial verb list is recognised by the stemmer
    that [NewArabicLightStemmer] builds: the list is stored normalized and
    [IsVerbStamp] normalizes the stem the same way before it compares. *)
Theorem IsVerbStamp_loaded_verb (t : Tables) (als : ArabicLightStemmer)
        (verb : gostring) :
  NewArabicLightStemmer t = Ok als ->
  In verb (t_INITIAL_VERB_LIST t) ->
  IsVerbStamp als verb = true.
Proof.
  intros Hnew Hin. unfold NewArabicLightStemmer in Hnew.
  destruct (createPrefixTree _) as [ptree| |]; cbn [bind] in Hnew; try discriminate.
  destruct (createSuffixTree _) as [stree| |]; cbn [bind] in Hnew; try discriminate.
  injection Hnew as <-. unfold IsVerbStamp. cbv zeta. cbn [verbList withTrees].
  apply existsb_exists.
  exists (Normalize (withTrees t [] [] []) verb). split.
  - now apply in_map.
  - apply eqb_eq. reflexivity.
Qed.

Lemma IsVerbStamp_loaded_verb_witness :
  IsVerbStamp Sample.stemmer (lit "قال") = true.
Proof.
  apply (IsVerbStamp_loaded_verb Sample.tables Sample.stemmer (lit "قال")).
  - vm_compute. reflexivity.
  - right. right. now left.
Defined.

(** ** The word processor *)

Lemma existsb_map_sanitize (f : rune -> bool) (rs : list rune) :
  f RuneError = false ->
  existsb f rs = false -> existsb f (map sanitize rs) = false.
Proof.
  intros Hf. induction rs as [|r rs IH]; cbn; [reflexivity|].
  intros H. apply orb_false_iff in H. destruct H as [H1 H2].
  rewrite (IH H2), orb_false_r. unfold sanitize.
  destruct (_ || _); assumption.
Qed.

Lemma existsb_filter_negb {A : Type} (f : A -> bool) (xs : list A) :
  existsb f (filter (fun x => negb (f x)) xs) = false.
Proof.
  induction xs as [|x xs IH]; cbn; [reflexivity|].
  destruct (f x) eqn:E; cbn; [assumption | now rewrite E].
Qed.

(** X8: [StripTashkeel] is idempotent as soon as U+FFFD is not listed as
    tashkeel: what it returns holds no tashkeel it would strip again. *)
Theorem StripTashkeel_idempotent (als : ArabicLightStemmer) (text : gostring) :
  IsTashkeel als RuneError = false ->
  StripTashkeel als (StripTashkeel als text) = StripTashkeel als text.
Proof.
  intros Hf. destruct text as [|b t]; [reflexivity|].
  destruct (IsVocalized als (b :: t)) eqn:Ev.
  - set (fs := filter (fun char => negb (IsTashkeel als char)) (runes (b :: t))).
    assert (E : StripTashkeel als (b :: t) = str fs)
      by (unfold StripTashkeel; now rewrite Ev).
    rewrite E. unfold StripTashkeel.
    destruct (str fs) as [|c out] eqn:Eo; [reflexivity|].
    rewrite <- Eo. unfold IsVocalized.
    destruct (IsAlpha als (str fs)); [reflexivity|].
    rewrite runes_str, existsb_map_sanitize; [reflexivity | assumption |].
    apply existsb_filter_negb.
  - assert (E : StripTashkeel als (b :: t) = b :: t)
      by (unfold StripTashkeel; now rewrite Ev).
    now rewrite !E.
Qed.

Lemma StripTashkeel_idempotent_witness :
  StripTashkeel Sample.stemmer (StripTashkeel Sample.stemmer (lit "كَتَبَ"))
  = StripTashkeel Sample.stemmer (lit "كَتَبَ").
Proof.
  apply (StripTashkeel_idempotent Sample.stemmer (lit "كَتَبَ")).
  vm_compute. reflexivity.
Defined.

(** ** The adjustment of a root *)

Lemma encodeRune_byte_not_letter (b : Z) (l : gostring) :
  0 <= b <= 255 -> hd 0 l >= 216 -> eqb (encodeRune b) l = false.
Proof.
  intros Hb Hl. unfold encodeRune.
  destruct ((0 <=? b) && (b <? 128)) eqn:E1.
  { destruct l as [|x l]; [reflexivity|]. cbn [eqb hd] in *.
    replace (b =? x) with false by lia. reflexivity. }
  replace ((128 <=? b) && (b <? 2048)) with true by lia.
  destruct l as [|x l]; [reflexivity|]. cbn [eqb hd] in *.
  replace (192 + b / 64 =? x) with false by (symmetry; dlia). reflexivity.
Qed.

(** X9: [ajustRoot] reads the first letter of the pattern as one byte.  A
    pattern that is neither empty nor three bytes long and does not start
    with the joker leaves the root unchanged; this includes the patterns
    that start with Alef, Waw or Yeh, for which a Waw or a Yeh was to be
    put in front of the root. *)
Theorem ajustRoot_unchanged (als : ArabicLightStemmer) (root : gostring)
        (b : Z) (rest : gostring) :
  0 <= b <= 255 ->
  len (b :: rest) <> 3 ->
  eqb (encodeRune b) (joker als) = false ->
  ajustRoot als root (b :: rest) = Ok root.
Proof.
  intros Hb Hlen Hj. unfold ajustRoot.
  assert (Hl : len (b :: rest) = 1 + len rest)
    by (unfold len; cbn [List.length]; lia).
  pose proof (len_nonneg rest) as Hr.
  assert (E3 : (len (b :: rest) =? 3) = false) by lia.
  assert (E0 : (0 <=? 0) && (0 <? len (b :: rest)) = true) by lia.
  assert (E1 : (0 <=? len (b :: rest) - 1)
               && (len (b :: rest) - 1 <? len (b :: rest)) = true) by lia.
  rewrite E3. unfold byteStr, goindex. rewrite E0, E1.
  cbn [Z.to_nat nth_error bind].
  destruct (nth_error (b :: rest) (Z.to_nat (len (b :: rest) - 1))) as [x|] eqn:En.
  2:{ apply nth_error_None in En. unfold len in *. cbn [List.length] in En. lia. }
  cbn [bind].
  rewrite (encodeRune_byte_not_letter b ALEF Hb) by (cbn; lia).
  rewrite (encodeRune_byte_not_letter b WAW Hb) by (cbn; lia).
  rewrite (encodeRune_byte_not_letter b YEH Hb) by (cbn; lia).
  rewrite Hj. reflexivity.
Qed.

Lemma ajustRoot_unchanged_witness :
  ajustRoot Sample.stemmer (lit "كت") (216 :: [167; 42; 42]) = Ok (lit "كت").
Proof.
  apply (ajustRoot_unchanged Sample.stemmer (lit "كت") 216 [167; 42; 42]).
  - lia.
  - vm_compute. discriminate.
  - vm_compute. reflexivity.
Defined.

(** ** The segment list is the admissible cross product *)

Lemma addSegment_hasPair (i j : Z) (st : segmap * zmap (list (Z * Z))) :
  seenInv st ->
  seenInv (addSegment i st j)
  /\ forall k p, hasPair (fst (addSegment i st j)) k p
                 <-> hasPair (fst st) k p \/ (j >= i + 2 /\ k = i /\ p = (i, j)).
Proof.
  intros Hinv. unfold addSegment.
  destruct (j >=? i + 2) eqn:Ej.
  2:{ split; [assumption|]. intros k p. rewrite Z.geb_leb in Ej.
      split; [auto | intros [H|[H _]]; [assumption | lia]]. }
  rewrite Z.geb_leb in Ej. apply Z.leb_le in Ej.
  destruct st as [segs seen]. unfold seenInv in *. cbn [fst snd] in *.
  unfold isSeen.
  set (seen1 := match zlookup i seen with
                | Some _ => seen
                | None => zinsert i [] seen
                end).
  assert (Hseen1 : forall k set p, zlookup k seen1 = Some set -> In p set ->
                                   hasPair segs k p).
  { intros k set p Hs Hp. subst seen1.
    destruct (zlookup i seen) eqn:Ei; [eapply Hinv; eassumption|].
    destruct (Z.eq_dec k i) as [->|Hne].
    - rewrite zlookup_zinsert_eq in Hs. inversion Hs; subst set. contradiction.
    - rewrite zlookup_zinsert_neq in Hs by auto. eapply Hinv; eassumption. }
  destruct (zlookup i seen1) as [set|] eqn:Es.
  2:{ exfalso. subst seen1. destruct (zlookup i seen) eqn:Ei; [congruence|].
      rewrite zlookup_zinsert_eq in Es. discriminate. }
  destruct (existsb (seg_eqb (i, j)) set) eqn:Ex; cbn [negb fst snd].
  - split; [exact Hseen1|]. intros k p. split; [auto|].
    intros [H|(_ & -> & ->)]; [assumption|].
    apply existsb_seg in Ex. eapply Hseen1; eassumption.
  - assert (Hnew : forall k p,
               hasPair (zappend i (i, j) segs) k p
               <-> hasPair segs k p \/ (k = i /\ p = (i, j))).
    { intros k p. unfold hasPair, zappend.
      destruct (Z.eq_dec k i) as [->|Hne].
      - destruct (zlookup i segs) as [xs|] eqn:Exs; rewrite zlookup_zinsert_eq.
        + split.
          * intros (ps & Hps & Hp). inversion Hps; subst ps.
            apply in_app_iff in Hp. destruct Hp as [Hp|[<-|[]]]; [left; eauto | right; auto].
          * intros [(ps & Hps & Hp)|(_ & ->)].
            -- inversion Hps; subst ps. eexists. split; [reflexivity|].
               apply in_app_iff. now left.
            -- eexists. split; [reflexivity|]. apply in_app_iff. right. now left.
        + split.
          * intros (ps & Hps & Hp). inversion Hps; subst ps.
            destruct Hp as [<-|[]]. right. auto.
          * intros [(ps & Hps & _)|(_ & ->)]; [discriminate|].
            eexists. split; [reflexivity | now left].
      - destruct (zlookup i segs); rewrite zlookup_zinsert_neq by auto;
          (split; [intros H; now left | intros [H|[H _]]; [assumption | congruence]]). }
    split.
    + intros k set' p Hs Hp. apply Hnew.
      destruct (Z.eq_dec k i) as [->|Hne].
      * rewrite zlookup_zinsert_eq in Hs. inversion Hs; subst set'.
        apply in_app_iff in Hp. destruct Hp as [Hp|[<-|[]]]; [|right; auto].
        left. eapply Hseen1; eassumption.
      * rewrite zlookup_zinsert_neq in Hs by auto. left.
        eapply Hseen1; eassumption.
    + intros k p. rewrite Hnew. split.
      * intros [H|[-> ->]]; [now left | right; repeat split; lia].
      * intros [H|(_ & -> & ->)]; [now left | right; auto].
Qed.

Lemma fold_rights_hasPair (i : Z) (rights : list Z) :
  forall st, seenInv st ->
    seenInv (fold_left (addSegment i) rights st)
    /\ forall k p, hasPair (fst (fold_left (addSegment i) rights st)) k p
                   <-> hasPair (fst st) k p
                       \/ (k = i /\ fst p = i /\ In (snd p) rights /\ snd p >= i + 2).
Proof.
  induction rights as [|j rights IH]; intros st Hinv; cbn [fold_left].
  - split; [assumption|]. intros k p. split; [auto | intros [H|(_ & _ & [] & _)]; exact H].
  - destruct (addSegment_hasPair i j st Hinv) as [Hinv1 H1].
    destruct (IH _ Hinv1) as [Hinv2 H2]. split; [assumption|].
    intros k p. rewrite H2, H1. split.
    + intros [[H|(Hj & -> & ->)]|(-> & Hf & Hin & Hge)].
      * now left.
      * right. cbn. repeat split; auto.
      * right. repeat split; auto. now right.
    + intros [H|(-> & Hf & [Hj|Hin] & Hge)].
      * left. now left.
      * left. right. destruct p as [a b]. cbn [fst snd] in *. subst.
        repeat split; auto.
      * right. repeat split; auto.
Qed.

Lemma buildSegments_hasPair (lefts rights : list Z) (k : Z) (p : Z * Z) :
  hasPair (buildSegments lefts rights) k p
  <-> fst p = k /\ In k lefts /\ In (snd p) rights /\ snd p >= k + 2.
Proof.
  unfold buildSegments.
  assert (G : forall lefts st, seenInv st ->
             seenInv (fold_left (fun st i => fold_left (addSegment i) rights st) lefts st)
             /\ (hasPair (fst (fold_left
                   (fun st i => fold_left (addSegment i) rights st) lefts st)) k p
                 <-> hasPair (fst st) k p
                     \/ (fst p = k /\ In k lefts /\ In (snd p) rights
                         /\ snd p >= k + 2))).
  { clear lefts. induction lefts as [|i lefts IH]; intros st Hinv; cbn [fold_left].
    - split; [assumption|]. split; [auto | intros [H|(_ & [] & _)]; exact H].
    - destruct (fold_rights_hasPair i rights st Hinv) as [Hinv1 H1].
      destruct (IH _ Hinv1) as [Hinv2 H2]. split; [assumption|].
      rewrite H2, H1. split.
      + intros [[H|(-> & Hf & Hin & Hge)]|(Hf & Hin & Hr & Hge)].
        * now left.
        * right. repeat split; auto. now left.
        * right. repeat split; auto. now right.
      + intros [H|(Hf & [<-|Hin] & Hr & Hge)].
        * left. now left.
        * left. right. auto.
        * right. auto. }
  destruct (G lefts ([], [])) as [_ H].
  { intros k0 set p0 Hs. discriminate. }
  rewrite H. split; [intros [(ps & Hps & _)|H0]; [discriminate | exact H0] | auto].
Qed.

(** X10: the segment list of [segment] is exactly the admissible part of
    the cross product of the boundaries found by the two lookups: a pair
    [(i, j)] is stored, under the key [i], if and only if [i] is a prefix
    boundary, [j] a suffix boundary and [j >= i + 2]. *)
Theorem segment_cross_product (als : ArabicLightStemmer) (word : gostring)
        (segs : segmap) (u : gostring) (l r : Z) :
  segment als word = Ok (segs, u, l, r) ->
  exists lefts rights,
    lookupPrefixes als (replaceAll word ALEF_MADDA (HAMZA ++ ALEF)) = Ok lefts
    /\ lookupSuffixes als (replaceAll word ALEF_MADDA (HAMZA ++ ALEF)) = Ok rights
    /\ forall i j, hasPair segs i (i, j)
                   <-> In i lefts /\ In j rights /\ j >= i + 2.
Proof.
  unfold segment. cbv zeta.
  destruct (lookupPrefixes als _) as [lefts| |]; cbn [bind]; try discriminate.
  destruct (lookupSuffixes als _) as [rights| |]; cbn [bind]; try discriminate.
  destruct (match lefts with [] => _ | _ => _ end); cbn [bind]; try discriminate.
  destruct (match rights with [] => _ | _ => _ end); cbn [bind]; try discriminate.
  destruct (getLeftRight _). intros Heq. injection Heq as <- _ _ _.
  exists lefts, rights. split; [reflexivity|]. split; [reflexivity|].
  intros i j. rewrite buildSegments_hasPair. cbn [fst snd]. tauto.
Qed.

Lemma segment_cross_product_witness :
  exists lefts rights,
    lookupPrefixes Sample.stemmer
      (replaceAll (lit "يكتبون") ALEF_MADDA (HAMZA ++ ALEF)) = Ok lefts
    /\ lookupSuffixes Sample.stemmer
         (replaceAll (lit "يكتبون") ALEF_MADDA (HAMZA ++ ALEF)) = Ok rights
    /\ forall i j, hasPair [(0, [(0, 4)]); (1, [(1, 4)])] i (i, j)
                   <-> In i lefts /\ In j rights /\ j >= i + 2.
Proof.
  apply (segment_cross_product Sample.stemmer (lit "يكتبون") _ (lit "يكتبون") 1 4).
  vm_compute. reflexivity.
Defined.

(** ** A segment that starts past the unvocalized word *)

Section Divergence.

Variable als : ArabicLightStemmer.
Variable rec : stemArgs -> result gostring.
Variable a : stemArgs.

(** Every call back into [chooseStem] on the same word, unvocalized word
    and segment list runs out of fuel. *)
Hypothesis rec_diverges :
  forall a', a_word a' = a_word a -> a_unvocalized a' = a_unvocalized a ->
             a_segmentList a' = a_segmentList a -> rec a' = OutOfFuel.

Lemma getStem_with_cases (p s : Z) :
  (exists stem, getStem_with rec a p s = Ok stem)
  \/ getStem_with rec a p s = OutOfFuel.
Proof.
  unfold getStem_with. cbv zeta.
  destruct ((p >=? 0) || (s >=? 0)); [|right; now apply rec_diverges].
  match goal with
  | |- context [if (?l <=? ?r) && (?l <? ?n) then _ else _] =>
      destruct ((l <=? r) && (l <? n)) eqn:E;
      [|right; now apply rec_diverges];
      left; unfold goslice;
      assert (G : (0 <=? l) && (l <=? r) && (r <=? n) = true)
  end.
  { destruct (p <? 0); destruct (a_stemLeft a <? 0) eqn:E1;
      destruct (p <? 0) eqn:E2;
      repeat match goal with
             | |- context [if ?c then _ else _] => destruct c eqn:?
             | H : context [if ?c then _ else _] |- _ => destruct c eqn:?
             end; try rewrite Z.gtb_ltb in *; lia. }
  rewrite G. cbn [bind]. eauto.
Qed.

Lemma getStem_with_past_end (k s : Z) :
  0 <= k -> runeLen (a_unvocalized a) <= k ->
  getStem_with rec a k s = OutOfFuel.
Proof.
  intros Hk Hlen. unfold getStem_with, runeLen in *. cbv zeta.
  assert (E1 : (k >=? 0) || (s >=? 0) = true) by (rewrite Z.geb_leb; lia).
  assert (E2 : (k <? 0) = false) by lia.
  rewrite E1, E2. cbv iota. rewrite E2. cbv iota.
  match goal with
  | |- context [if (k <=? ?r) && (k <? ?n) then _ else _] =>
      replace ((k <=? r) && (k <? n)) with false by lia
  end.
  now apply rec_diverges.
Qed.

Lemma verifyAffix_with_cases (p s : Z) :
  (exists b, verifyAffix_with als rec a p s = Ok b)
  \/ verifyAffix_with als rec a p s = OutOfFuel.
Proof.
  unfold verifyAffix_with. cbv zeta.
  destruct (getStem_with_cases p s) as [[stem ->]| ->]; [|now right].
  cbn [bind]. left.
  destruct (_ && validStem als stem (lit "verb") _);
    destruct (_ && validStem als stem (lit "noun") _); eauto.
Qed.

Lemma validatePairs_diverges (k : Z) (ps : list (Z * Z)) :
  forall v,
    ((exists v', validatePairs als rec a k ps v = Ok v')
     \/ validatePairs als rec a k ps v = OutOfFuel)
    /\ (0 <= k -> runeLen (a_unvocalized a) <= k -> ps <> [] ->
        validatePairs als rec a k ps v = OutOfFuel).
Proof.
  induction ps as [|p ps IH]; intros v; cbn [validatePairs].
  - split; [left; eauto | congruence].
  - split.
    + destruct (verifyAffix_with_cases k (snd p)) as [[b ->]| ->];
        [cbn [bind]; apply IH | now right].
    + intros Hk Hlen _. unfold verifyAffix_with. cbv zeta.
      now rewrite (getStem_with_past_end k (snd p) Hk Hlen).
Qed.

Lemma validateSegments_diverges (segs : segmap) :
  forall v,
    ((exists v', validateSegments als rec a segs v = Ok v')
     \/ validateSegments als rec a segs v = OutOfFuel)
    /\ (forall k ps, In (k, ps) segs -> ps <> [] ->
                     0 <= k -> runeLen (a_unvocalized a) <= k ->
                     validateSegments als rec a segs v = OutOfFuel).
Proof.
  induction segs as [|[k0 ps0] segs IH]; intros v; cbn [validateSegments].
  - split; [left; eauto | intros k ps []].
  - destruct (validatePairs_diverges k0 ps0 v) as [Hc Hd]. split.
    + destruct Hc as [[v1 ->]| ->]; [cbn [bind]; apply IH | now right].
    + intros k ps [Heq|Hin] Hne Hk Hlen.
      * inversion Heq; subst. now rewrite Hd.
      * destruct Hc as [[v1 ->]| ->]; [|reflexivity].
        cbn [bind]. eapply IH; eassumption.
Qed.

End Divergence.

(** X11: [getStem] falls back on [chooseStem] when the left boundary it is
    given lies at or past the end of the unvocalized word, and [chooseStem]
    verifies every enumerated segment through [getStem].  So on a word that
    is not a stopword, a segment list that holds a segment with such a left
    boundary sends [chooseStem] into a recursion it never leaves: whatever
    the fuel, the call neither returns nor panics, it runs out of fuel. *)
Theorem chooseStem_never_returns (als : ArabicLightStemmer) (fuel : nat)
        (a : stemArgs) (k : Z) (ps : list (Z * Z)) :
  IsStopword als (a_word a) = false ->
  In (k, ps) (a_segmentList a) -> ps <> [] ->
  0 <= k -> runeLen (a_unvocalized a) <= k ->
  chooseStem als fuel a = OutOfFuel.
Proof.
  intros Hstop Hin Hne Hk Hlen. revert a Hstop Hin Hlen.
  induction fuel as [|fuel IH]; intros a Hstop Hin Hlen; [reflexivity|].
  cbn [chooseStem]. unfold chooseStem_body. rewrite Hstop.
  destruct (a_segmentList a) as [|e segs] eqn:Es; [contradiction|].
  rewrite <- Es in *. cbn [bind].
  rewrite (proj2 (validateSegments_diverges als (chooseStem als fuel) a
                    ltac:(intros a' Hw Hu Hs; apply IH; congruence)
                    (a_segmentList a) []) k ps Hin Hne Hk Hlen).
  reflexivity.
Qed.

Lemma chooseStem_never_returns_witness :
  chooseStem Sample.stemmer 5
    {| a_word := lit "كتب"; a_unvocalized := lit "كتب";
       a_left := 3; a_right := 5; a_stemLeft := 0; a_stemRight := 3;
       a_segmentList := [(3, [(3, 5)])] |} = OutOfFuel.
Proof.
  apply (chooseStem_never_returns Sample.stemmer 5 _ 3 [(3, 5)]).
  - vm_compute. reflexivity.
  - now left.
  - discriminate.
  - lia.
  - vm_compute. discriminate.
Defined.

(** ** The most common candidate *)

Lemma fold_argmax (c : gostring -> Z) (l : list gostring) :
  forall acc : gostring * Z,
    let r := fold_left (fun (acc : gostring * Z) item =>
                          if c item >? snd acc then (item, c item) else acc)
                       l acc in
    snd acc <= snd r
    /\ (forall y, In y l -> c y <= snd r)
    /\ (r = acc \/ (In (fst r) l /\ snd r = c (fst r))).
Proof.
  induction l as [|x l IH]; intros acc; cbn [fold_left].
  - repeat split; [lia | intros y [] | now left].
  - destruct (IH (if c x >? snd acc then (x, c x) else acc)) as (H1 & H2 & H3).
    destruct (c x >? snd acc) eqn:E;
      [apply Z.gtb_lt in E | rewrite Z.gtb_ltb in E; apply Z.ltb_ge in E];
      cbn [snd] in *.
    + split; [lia|]. split.
      * intros y [<-|Hy]; [lia | auto].
      * right. destruct H3 as [->|[H3 H4]]; cbn [fst snd]; [split; auto; now left|].
        split; [now right | assumption].
    + split; [lia|]. split.
      * intros y [<-|Hy]; [lia | auto].
      * destruct H3 as [H3|[H3 H4]]; [now left | right; split; [now right | assumption]].
Qed.

Lemma insertSorted_In (x y : gostring) (l : list gostring) :
  In y (insertSorted x l) <-> y = x \/ In y l.
Proof.
  induction l as [|z l IH]; cbn.
  - intuition.
  - destruct (leb x z); cbn; [intuition | rewrite IH; intuition].
Qed.

Lemma sortStrings_In (y : gostring) (l : list gostring) :
  In y (sortStrings l) <-> In y l.
Proof.
  unfold sortStrings. induction l as [|x l IH]; cbn; [reflexivity|].
  rewrite insertSorted_In, IH. intuition.
Qed.

Lemma count_pos (x : gostring) (l : list gostring) : In x l -> 0 < count x l.
Proof.
  unfold count, len. induction l as [|y l IH]; [intros []|].
  intros [->|H]; cbn [filter].
  - rewrite eqb_refl. cbn [List.length]. lia.
  - specialize (IH H). destruct (eqb x y); cbn [List.length]; lia.
Qed.

Lemma count_filter (f : gostring -> bool) (y : gostring) (l : list gostring) :
  f y = true -> count y (filter f l) = count y l.
Proof.
  intros Hf. unfold count. f_equal. induction l as [|x l IH]; [reflexivity|].
  cbn [filter]. destruct (eqb y x) eqn:E.
  - apply eqb_eq in E. subst x. rewrite Hf. cbn [filter].
    rewrite eqb_refl. now rewrite IH.
  - destruct (f x); cbn [filter]; rewrite ?E; assumption.
Qed.

Lemma mostCommon_plain (l : list gostring) :
  l <> [] ->
  let m := fst (fold_left
                  (fun (acc : gostring * Z) item =>
                     if count item l >? snd acc then (item, count item l) else acc)
                  (sortStrings l) ([], 0)) in
  In m l /\ forall y, In y l -> count y l <= count m l.
Proof.
  intros Hne. cbv zeta.
  destruct (fold_argmax (fun item => count item l) (sortStrings l) ([], 0))
    as (H1 & H2 & H3). cbv zeta in *. cbn [snd] in H1.
  destruct l as [|x0 l0] eqn:El; [congruence|]. rewrite <- El in *.
  assert (Hx : In x0 l) by (subst; now left).
  pose proof (H2 x0 (proj2 (sortStrings_In x0 l) Hx)) as Hc.
  pose proof (count_pos x0 l Hx) as Hp.
  destruct H3 as [H3|[H3 H4]].
  - rewrite H3 in Hc. cbn [snd] in Hc. lia.
  - split; [now apply sortStrings_In|].
    intros y Hy. rewrite <- H4. apply H2. now apply sortStrings_In.
Qed.

Lemma mostCommon_props (lst : list gostring) :
  mostCommon [] = []
  /\ (lst <> [] ->
      In (mostCommon lst) lst
      /\ ((exists x, In x lst /\ len x = 3) -> len (mostCommon lst) = 3)
      /\ forall y, In y lst ->
           len y = 3 \/ (forall x, In x lst -> len x <> 3) ->
           count y lst <= count (mostCommon lst) lst).
Proof.
  split; [reflexivity|]. intros Hne. unfold mostCommon. cbv zeta.
  destruct (filter (fun item => len item =? 3) lst) as [|t0 tri] eqn:Et.
  - destruct (mostCommon_plain lst Hne) as [Hin Hmax]. cbv zeta in *.
    split; [assumption|]. split.
    + intros (x & Hx & Hl). exfalso.
      assert (In x (filter (fun item => len item =? 3) lst))
        by (apply filter_In; split; [assumption | lia]).
      rewrite Et in H. contradiction.
    + intros y Hy _. now apply Hmax.
  - rewrite <- Et in *.
    assert (Hne' : filter (fun item => len item =? 3) lst <> [])
      by (rewrite Et; discriminate).
    destruct (mostCommon_plain _ Hne') as [Hin Hmax]. cbv zeta in *.
    apply filter_In in Hin. destruct Hin as [Hin Hl3].
    split; [assumption|]. split; [intros _; lia|].
    intros y Hy [Hy3|Hnone].
    + rewrite <- (count_filter (fun item => len item =? 3) y lst) by lia.
      rewrite <- (count_filter (fun item => len item =? 3) _ lst Hl3).
      apply Hmax. apply filter_In. split; [assumption | lia].
    + exfalso. apply (Hnone _ Hin). lia.
Qed.

(** X12: [mostCommon] returns the empty string on the empty list and an
    element of the list otherwise.  When the list holds strings of three
    bytes the result is one of them, the most frequent of them; when it
    holds none the result is the most frequent of all. *)
Theorem mostCommon_spec (lst : list gostring) :
  mostCommon [] = []
  /\ (lst <> [] ->
      In (mostCommon lst) lst
      /\ ((exists x, In x lst /\ len x = 3) -> len (mostCommon lst) = 3)
      /\ forall y, In y lst ->
           len y = 3 \/ (forall x, In x lst -> len x <> 3) ->
           count y lst <= count (mostCommon lst) lst).
Proof. exact (mostCommon_props lst). Qed.

Lemma mostCommon_spec_witness :
  mostCommon [] = []
  /\ ([lit "كت"; lit "abc"; lit "كت"] <> [] ->
      In (mostCommon [lit "كت"; lit "abc"; lit "كت"])
         [lit "كت"; lit "abc"; lit "كت"]
      /\ ((exists x, In x [lit "كت"; lit "abc"; lit "كت"] /\ len x = 3) ->
          len (mostCommon [lit "كت"; lit "abc"; lit "كت"]) = 3)
      /\ forall y, In y [lit "كت"; lit "abc"; lit "كت"] ->
           len y = 3
           \/ (forall x, In x [lit "كت"; lit "abc"; lit "كت"] -> len x <> 3) ->
           count y [lit "كت"; lit "abc"; lit "كت"]
           <= count (mostCommon [lit "كت"; lit "abc"; lit "كت"])
                [lit "كت"; lit "abc"; lit "كت"]).
Proof. exact (mostCommon_spec [lit "كت"; lit "abc"; lit "كت"]). Defined.

(** ** The selection of a root among the candidates *)

Lemma filter_or_all {A : Type} (f : A -> bool) (l : list A) :
  let l' := match filter f l with [] => l | _ => filter f l end in
  (forall x, In x l' -> In x l)
  /\ (l <> [] -> l' <> [])
  /\ ((exists x, In x l /\ f x = true) -> forall x, In x l' -> f x = true).
Proof.
  cbv zeta. destruct (filter f l) as [|y fl] eqn:E.
  - split; [auto|]. split; [auto|].
    intros (x & Hx & Hf). exfalso.
    assert (In x (filter f l)) by (apply filter_In; auto).
    rewrite E in H. contradiction.
  - rewrite <- E. split; [intros x Hx; apply filter_In in Hx; tauto|].
    split; [intros _; rewrite E; discriminate|].
    intros _ x Hx. apply filter_In in Hx. tauto.
Qed.

(** X13: the selection that ends [chooseRoot] returns one of the candidate
    roots.  If a candidate is 2 to 4 bytes long, so is the root selected;
    if moreover a candidate of that length is in the root dictionary, the
    root selected is in the dictionary. *)
Theorem selectRoot_spec (als : ArabicLightStemmer) (roots : list gostring) :
  roots <> [] ->
  In (selectRoot als roots) roots
  /\ ((exists x, In x roots /\ isRootLengthValid x = true) ->
      isRootLengthValid (selectRoot als roots) = true)
  /\ ((exists x, In x roots /\ isRootLengthValid x = true /\ IsRoot als x = true) ->
      IsRoot als (selectRoot als roots) = true).
Proof.
  intros Hne. unfold selectRoot. cbv zeta.
  destruct (filter_or_all isRootLengthValid roots) as (A1 & A2 & A3).
  cbv zeta in *.
  set (r1 := match filter isRootLengthValid roots with
             | [] => roots
             | _ :: _ => filter isRootLengthValid roots
             end) in *.
  destruct (filter_or_all (IsRoot als) r1) as (B1 & B2 & B3). cbv zeta in *.
  set (r2 := match filter (IsRoot als) r1 with
             | [] => r1
             | _ :: _ => filter (IsRoot als) r1
             end) in *.
  destruct (mostCommon_props r2) as [_ Hm].
  destruct (Hm (B2 (A2 Hne))) as (Hin & _). split; [auto|]. split.
  - intros Hex. apply (A3 Hex). auto.
  - intros (x & Hx & Hl & Hd). apply B3; [|assumption].
    exists x. split; [|assumption].
    subst r1. destruct (filter isRootLengthValid roots) as [|y fl] eqn:E.
    + assumption.
    + rewrite <- E. apply filter_In. auto.
Qed.

Lemma selectRoot_spec_witness :
  In (selectRoot Sample.stemmer [lit "كتبكتب"; lit "كت"; lit "ab"]) 
     [lit "كتبكتب"; lit "كت"; lit "ab"]
  /\ ((exists x, In x [lit "كتبكتب"; lit "كت"; lit "ab"]
                 /\ isRootLengthValid x = true) ->
      isRootLengthValid
        (selectRoot Sample.stemmer [lit "كتبكتب"; lit "كت"; lit "ab"]) = true)
  /\ ((exists x, In x [lit "كتبكتب"; lit "كت"; lit "ab"]
                 /\ isRootLengthValid x = true
                 /\ IsRoot Sample.stemmer x = true) ->
      IsRoot Sample.stemmer
        (selectRoot Sample.stemmer [lit "كتبكتب"; lit "كت"; lit "ab"]) = true).
Proof.
  apply (selectRoot_spec Sample.stemmer [lit "كتبكتب"; lit "كت"; lit "ab"]).
  discriminate.
Defined.

(** ** What [chooseRoot] returns *)

(** X14: called with both indices negative on a word that is not a
    stopword, [chooseRoot] asks [getRoot] for the root of every segment and
    [getRoot] calls [chooseRoot] back with the same arguments: as soon as
    the segment list holds a segment the call never returns a root. *)
Theorem chooseRoot_never_returns (als : ArabicLightStemmer) (fuel : nat)
        (r : rootArgs) :
  IsStopword als (r_word r) = false ->
  r_prefixIndex r < 0 -> r_suffixIndex r < 0 ->
  (0 < npairs (r_segmentList r))%nat ->
  isOk (chooseRoot als fuel r) = false.
Proof.
  intros Hstop Hp Hs Hn.
  destruct (chooseRoot als fuel r) as [x| |] eqn:E; try reflexivity.
  apply chooseRoot_reentrant in E; [lia | assumption..].
Qed.

Lemma chooseRoot_never_returns_witness :
  isOk (chooseRoot Sample.stemmer 7
          {| r_word := lit "يكتبون"; r_unvocalized := lit "يكتبون";
             r_root := lit ""; r_stemLeft := 1; r_stemRight := 4;
             r_prefixIndex := -1; r_suffixIndex := -1;
             r_segmentList := [(0, [(0, 4)]); (1, [(1, 4)])] |}) = false.
Proof.
  apply (chooseRoot_never_returns Sample.stemmer 7); cbn [r_word r_prefixIndex
    r_suffixIndex r_segmentList]; try lia.
  - vm_compute. reflexivity.
  - vm_compute. lia.
Defined.

(** X15: on a word that is not a stopword, what [chooseRoot] returns does
    not depend on the word: [getRoot] drops the root that [extractRoot]
    computes, so the call returns the root it was given when the segment
    list holds a segment, and the empty string when it holds none. *)
Theorem chooseRoot_returns_given_root (als : ArabicLightStemmer) (fuel : nat)
        (r : rootArgs) (root : gostring) :
  IsStopword als (r_word r) = false ->
  chooseRoot als fuel r = Ok root ->
  root = if (0 <? Z.of_nat (npairs (r_segmentList r))) then r_root r else [].
Proof.
  intros Hstop H. destruct fuel as [|fuel]; [discriminate|].
  cbn [chooseRoot] in H. unfold chooseRoot_body in H. rewrite Hstop in H.
  destruct (candidateRoots_with als (chooseRoot als fuel) fuel r)
    as [roots| |] eqn:E; cbn [bind] in H; try discriminate.
  injection H as <-.
  pose proof (candidateRoots_all_given als fuel r roots Hstop E) as Hall.
  apply candidateRoots_spec in E. destruct E as [L _].
  rewrite (Forall_eq_repeat _ _ Hall), L.
  destruct (npairs (r_segmentList r)) as [|n]; [reflexivity|].
  assert (G : (0 <? Z.of_nat (S n)) = true) by (apply Z.ltb_lt; lia).
  rewrite G. apply selectRoot_repeat.
Qed.

Lemma chooseRoot_returns_given_root_witness :
  lit "قول"
  = if (0 <? Z.of_nat (npairs [(0, [(0, 4)]); (1, [(1, 4)])]))
    then lit "قول" else [].
Proof.
  apply (chooseRoot_returns_given_root Sample.stemmer 1
           {| r_word := lit "يكتبون"; r_unvocalized := lit "يكتبون";
              r_root := lit "قول"; r_stemLeft := 1; r_stemRight := 4;
              r_prefixIndex := 1; r_suffixIndex := 4;
              r_segmentList := [(0, [(0, 4)]); (1, [(1, 4)])] |} (lit "قول")).
  - vm_compute. reflexivity.
  - vm_compute. reflexivity.
Defined.

(** ** The terminal markers of a trie *)

Lemma shas_sinsert {V : Type} (k k' : gostring) (v : V) (m : smap V) :
  shas k (sinsert k' v m) = eqb k k' || shas k m.
Proof. unfold shas. rewrite slookup_sinsert. now destruct (eqb k k'). Qed.

Lemma eqb_sym (a b : gostring) : eqb a b = eqb b a.
Proof.
  destruct (eqb a b) eqn:E1; destruct (eqb b a) eqn:E2; try reflexivity.
  - apply eqb_eq in E1. subst. now rewrite eqb_refl in E2.
  - apply eqb_eq in E2. subst. now rewrite eqb_refl in E1.
Qed.

Lemma terminalAt_nil_tree (rs : list rune) : terminalAt [] rs = false.
Proof. destruct rs; reflexivity. Qed.

Lemma nodeAt_cons (branch : smap iface) (r : rune) (rs : list rune) :
  nodeAt branch (r :: rs)
  = match slookup (str [r]) branch with
    | Some (IMap branch') => nodeAt branch' rs
    | _ => None
    end.
Proof. reflexivity. Qed.

Lemma keyPath_cons (r : rune) (rs : list rune) :
  keyPath (r :: rs) = str [r] :: keyPath rs.
Proof. reflexivity. Qed.

Lemma terminalAt_insertAffix (chars : list rune) :
  forall affix branch branch' rs,
    ~ In 35 chars -> ~ In 35 rs ->
    insertAffix chars affix branch = Ok branch' ->
    (terminalAt branch' rs = true
     <-> terminalAt branch rs = true \/ keyPath rs = keyPath chars).
Proof.
  induction chars as [|c cs IH]; intros affix branch branch' rs Hc Hr Hi.
  - cbn [insertAffix] in Hi.
    assert (Hb : exists v, branch' = sinsert HASH v branch).
    { destruct (slookup HASH branch) as [[s|t]|]; try discriminate;
        injection Hi as <-; eauto. }
    destruct Hb as [v ->]. destruct rs as [|r rs].
    + unfold terminalAt. cbn [nodeAt]. rewrite shas_sinsert, eqb_refl. cbn.
      split; auto.
    + assert (Hr35 : r <> 35) by (intros ->; apply Hr; now left).
      unfold terminalAt. rewrite !nodeAt_cons, slookup_sinsert.
      rewrite (str_one_not_hash r Hr35).
      split; [auto | intros [H|H]; [assumption | discriminate]].
  - assert (Hc35 : c <> 35) by (intros ->; apply Hc; now left).
    assert (Hcs : ~ In 35 cs) by (intros H; apply Hc; now right).
    cbn [insertAffix] in Hi. change (encodeRune c ++ []) with (str [c]) in Hi.
    assert (Hb : exists m0 m',
               (slookup (str [c]) branch = Some (IMap m0)
                \/ (slookup (str [c]) branch = None /\ m0 = []))
               /\ insertAffix cs affix m0 = Ok m'
               /\ branch' = sinsert (str [c]) (IMap m') branch).
    { destruct (slookup (str [c]) branch) as [[s|m]|] eqn:E; try discriminate.
      - destruct (insertAffix cs affix m) as [m'| |] eqn:Em; cbn [bind] in Hi;
          try discriminate.
        injection Hi as <-. exists m, m'. auto.
      - destruct (insertAffix cs affix []) as [m'| |] eqn:Em; cbn [bind] in Hi;
          try discriminate.
        injection Hi as <-. exists [], m'. auto. }
    destruct Hb as (m0 & m' & Hm0 & Hm' & ->). clear Hi.
    destruct rs as [|r rs].
    + unfold terminalAt. cbn [nodeAt]. rewrite shas_sinsert.
      rewrite eqb_sym, (str_one_not_hash c Hc35). cbn [orb].
      split; [auto | intros [H|H]; [assumption | discriminate]].
    + assert (Hrs : ~ In 35 rs) by (intros H; apply Hr; now right).
      unfold terminalAt. rewrite !nodeAt_cons, !keyPath_cons, slookup_sinsert.
      match goal with
      | |- context [if ?cond then _ else _] => destruct cond eqn:Erc
      end.
      * apply eqb_eq in Erc. rewrite Erc.
        fold (terminalAt m' rs). rewrite (IH affix m0 m' rs Hcs Hrs Hm').
        destruct Hm0 as [E|[E ->]]; rewrite E.
        -- fold (terminalAt m0 rs). split.
           ++ intros [H|H]; [now left | right; now rewrite H].
           ++ intros [H|H]; [now left | right; now inversion H].
        -- rewrite terminalAt_nil_tree. split.
           ++ intros [H|H]; [discriminate | right; now rewrite H].
           ++ intros [H|H]; [discriminate | right; now inversion H].
      * split; [auto|]. intros [H|H]; [assumption|].
        injection H as H1 H2. exfalso.
        refine (eq_true_false_abs _ _ Erc). apply eqb_eq. exact H1.
Qed.

Lemma terminalAt_insertAll (order : list rune -> list rune)
      (affixes : list gostring) :
  forall tree tree' rs,
    Forall (fun p => ~ In 35 (order (runes p))) affixes -> ~ In 35 rs ->
    insertAll order affixes tree = Ok tree' ->
    (terminalAt tree' rs = true
     <-> terminalAt tree rs = true
         \/ exists p, In p affixes /\ keyPath rs = keyPath (order (runes p))).
Proof.
  induction affixes as [|a affixes IH]; intros tree tree' rs Hall Hr Hi;
    cbn [insertAll] in Hi.
  - injection Hi as <-. split; [auto | intros [H|(p & [] & _)]; assumption].
  - inversion Hall as [|? ? Ha Hrest]; subst.
    destruct (insertAffix (order (runes a)) a tree) as [t1| |] eqn:E;
      cbn [bind] in Hi; try discriminate.
    rewrite (IH t1 tree' rs Hrest Hr Hi).
    rewrite (terminalAt_insertAffix _ a tree t1 rs Ha Hr E). split.
    + intros [[H|H]|(p & Hp & Hk)]; [now left | right | right].
      * exists a. split; [now left | assumption].
      * exists p. split; [now right | assumption].
    + intros [H|(p & [->|Hp] & Hk)]; [left; now left | left; now right |].
      right. eauto.
Qed.

Lemma keyPath_str (a b : list rune) : keyPath a = keyPath b -> str a = str b.
Proof.
  revert b. induction a as [|x a IH]; intros [|y b] H; try discriminate;
    [reflexivity|].
  rewrite !keyPath_cons in H. injection H as H1 H2.
  change (x :: a) with ([x] ++ a). change (y :: b) with ([y] ++ b).
  rewrite !str_app, (IH b H2). f_equal. exact H1.
Qed.

Lemma decode_length_le (n : nat) :
  forall bs, (List.length bs <= n)%nat ->
             (List.length (decode bs) <= List.length bs)%nat.
Proof.
  induction n as [|n IH]; intros bs Hn.
  { destruct bs; [cbn; lia | cbn in Hn; lia]. }
  destruct bs as [|b0 t0]; [cbn; lia|]. cbn [List.length] in Hn.
  assert (H0 : (List.length (decode t0) <= List.length t0)%nat) by (apply IH; lia).
  cbn [decode].
  destruct (b0 <? 128); [cbn [List.length]; lia|].
  destruct t0 as [|b1 t1]; [cbn; lia|]. cbn [List.length] in Hn, H0.
  assert (H1 : (List.length (decode t1) <= List.length t1)%nat) by (apply IH; lia).
  destruct (inRange 194 223 b0 && isCont b1); [cbn [List.length]; lia|].
  destruct t1 as [|b2 t2]; [cbn [List.length] in *; lia|].
  cbn [List.length] in Hn, H1.
  assert (H2 : (List.length (decode t2) <= List.length t2)%nat) by (apply IH; lia).
  destruct (inRange 224 239 b0 && second_ok b0 b1 && isCont b2);
    [cbn [List.length]; lia|].
  destruct t2 as [|b3 t3]; [cbn [List.length] in *; lia|].
  cbn [List.length] in Hn, H2.
  assert (H3 : (List.length (decode t3) <= List.length t3)%nat) by (apply IH; lia).
  destruct (inRange 240 244 b0 && second_ok b0 b1 && isCont b2 && isCont b3);
    cbn [List.length] in *; lia.
Qed.

Lemma len_runes_le (s : gostring) : len (runes s) <= len s.
Proof.
  unfold len, runes. rewrite length_map.
  pose proof (decode_length_le (List.length s) s (le_n _)). lia.
Qed.

(** ** What [lookupPrefixes] records *)

Lemma nodeAt_app (tree : smap iface) (xs ys : list rune) :
  nodeAt tree (xs ++ ys)
  = match nodeAt tree xs with
    | Some b => nodeAt b ys
    | None => None
    end.
Proof.
  revert tree. induction xs as [|x xs IH]; intros tree; [reflexivity|].
  cbn [app]. rewrite !nodeAt_cons.
  destruct (slookup (str [x]) tree) as [[s|b]|]; auto.
Qed.

Section PrefixLookup.

Variable tree : smap iface.
Variable runeWord : list rune.
Variable wlen : Z.

Lemma lookupPrefixes_loop_sound (rest : list rune) :
  forall fuel done branch lefts b' i' lefts',
    runeWord = done ++ rest ->
    nodeAt tree done = Some branch ->
    lookupPrefixes_loop fuel runeWord wlen branch (len done) lefts
    = Ok (b', i', lefts') ->
    (wlen <= i'
     \/ exists d e, runeWord = d ++ e /\ e <> [] /\ i' = len d
                    /\ nodeAt tree d = Some b')
    /\ forall j, In j lefts' -> In j lefts \/ cutsAt tree runeWord j.
Proof.
  induction rest as [|r rest IH];
    intros fuel done branch lefts b' i' lefts' Hw Hn H;
    destruct fuel as [|fuel]; cbn [lookupPrefixes_loop] in H;
    destruct (len done <? wlen) eqn:Ec; cbn [negb] in H; try discriminate;
    try (injection H as <- <- <-; split; [left; lia | auto]; fail).
  - assert (Eg : goindex runeWord (len done) = Panic)
      by (rewrite Hw, app_nil_r; apply goindex_out).
    rewrite Eg in H. discriminate.
  - assert (Eg : goindex runeWord (len done) = Ok r)
      by (rewrite Hw; apply goindex_app).
    rewrite Eg in H. cbn [bind] in H.
    destruct (slookup (str [r]) branch) as [[s|b1]|] eqn:El; try discriminate.
    + assert (Hw' : runeWord = (done ++ [r]) ++ rest)
        by (now rewrite <- app_assoc).
      assert (Hn' : nodeAt tree (done ++ [r]) = Some b1).
      { rewrite nodeAt_app, Hn, nodeAt_cons, El. reflexivity. }
      replace (len done + 1) with (len (done ++ [r])) in H
        by (rewrite len_app; reflexivity).
      destruct (IH _ _ _ _ _ _ _ Hw' Hn' H) as [Hex Hl]. split; [exact Hex|].
      intros j Hj. destruct (Hl j Hj) as [Hin|Hc]; [|now right].
      destruct (shas HASH branch) eqn:Eh; [|now left].
      apply in_app_iff in Hin. destruct Hin as [Hin|[<-|[]]]; [now left|].
      right. exists done, (r :: rest). repeat split; auto; try discriminate.
      unfold terminalAt. now rewrite Hn.
    + injection H as <- <- <-. split; [|auto]. right.
      exists done, (r :: rest). repeat split; auto. discriminate.
Qed.

Lemma lookupPrefixes_loop_mono (fuel : nat) :
  forall branch i lefts b' i' lefts',
    lookupPrefixes_loop fuel runeWord wlen branch i lefts = Ok (b', i', lefts') ->
    forall j, In j lefts -> In j lefts'.
Proof.
  induction fuel as [|fuel IH]; intros branch i lefts b' i' lefts' H j Hj;
    cbn [lookupPrefixes_loop] in H;
    destruct (negb (i <? wlen)); try discriminate;
    try (injection H as <- <- <-; assumption).
  destruct (goindex runeWord i) as [r| |]; cbn [bind] in H; try discriminate.
  destruct (slookup (str [r]) branch) as [[s|b1]|]; try discriminate.
  - eapply IH; [eassumption|].
    destruct (shas HASH branch); [apply in_app_iff; now left | assumption].
  - injection H as <- <- <-. assumption.
Qed.

Lemma lookupPrefixes_loop_complete (mid : list rune) :
  forall fuel done rest branch lefts b' i' lefts',
    runeWord = done ++ mid ++ rest -> rest <> [] ->
    nodeAt tree done = Some branch ->
    terminalAt tree (done ++ mid) = true ->
    len (done ++ mid) < wlen ->
    lookupPrefixes_loop fuel runeWord wlen branch (len done) lefts
    = Ok (b', i', lefts') ->
    In (len (done ++ mid)) lefts'
    \/ (i' = len (done ++ mid) /\ nodeAt tree (done ++ mid) = Some b').
Proof.
  induction mid as [|r mid IH];
    intros fuel done rest branch lefts b' i' lefts' Hw Hne Hn Ht Hlen H.
  - rewrite app_nil_r in *. cbn [app] in Hw.
    destruct rest as [|r rest]; [congruence|].
    destruct fuel as [|fuel]; cbn [lookupPrefixes_loop] in H;
      replace (len done <? wlen) with true in H by lia; cbn [negb] in H;
      try discriminate.
    assert (Eg : goindex runeWord (len done) = Ok r)
      by (rewrite Hw; apply goindex_app).
    rewrite Eg in H. cbn [bind] in H.
    destruct (slookup (str [r]) branch) as [[s|b1]|]; try discriminate.
    + left. eapply lookupPrefixes_loop_mono; [eassumption|].
      unfold terminalAt in Ht. rewrite Hn in Ht. rewrite Ht.
      apply in_app_iff. right. now left.
    + injection H as <- <- <-. right. auto.
  - assert (Hl : len done < wlen).
    { rewrite len_app in Hlen. pose proof (len_nonneg (r :: mid)). lia. }
    destruct fuel as [|fuel]; cbn [lookupPrefixes_loop] in H;
      replace (len done <? wlen) with true in H by lia; cbn [negb] in H;
      try discriminate.
    cbn [app] in Hw.
    assert (Eg : goindex runeWord (len done) = Ok r)
      by (rewrite Hw; apply goindex_app).
    rewrite Eg in H. cbn [bind] in H.
    assert (Hd : done ++ r :: mid = (done ++ [r]) ++ mid)
      by (now rewrite <- app_assoc).
    assert (Hb : exists b1, slookup (str [r]) branch = Some (IMap b1)
                            /\ nodeAt tree (done ++ [r]) = Some b1).
    { unfold terminalAt in Ht. rewrite Hd, nodeAt_app in Ht.
      rewrite nodeAt_app, Hn, nodeAt_cons in Ht |- *.
      destruct (slookup (str [r]) branch) as [[s|b1]|]; try discriminate.
      exists b1. auto. }
    destruct Hb as (b1 & El & Hn'). rewrite El in H.
    replace (len done + 1) with (len (done ++ [r])) in H
      by (rewrite len_app; reflexivity).
    rewrite Hd in *.
    eapply (IH fuel (done ++ [r]) rest); try eassumption.
    rewrite Hw, <- !app_assoc. reflexivity.
Qed.

End PrefixLookup.

(** ** Tries built from affixes without ['#'] *)

Lemma mapsOnly_nil : mapsOnly [].
Proof.
  intros rs node k s _ Hn. destruct rs as [|r rs]; [|discriminate].
  injection Hn as <-. discriminate.
Qed.

Lemma mapsOnly_child (branch m : smap iface) (c : rune) :
  c <> 35 -> mapsOnly branch -> slookup (str [c]) branch = Some (IMap m) ->
  mapsOnly m.
Proof.
  intros Hc Hb El rs node k s Hrs Hn.
  apply (Hb (c :: rs) node k s).
  - intros [H|H]; [now apply Hc | now apply Hrs].
  - rewrite nodeAt_cons, El. exact Hn.
Qed.

Lemma mapsOnly_sinsert (branch m : smap iface) (key : gostring) :
  mapsOnly branch ->
  (forall c, c <> 35 -> key = str [c] -> mapsOnly m) ->
  mapsOnly (sinsert key (IMap m) branch).
Proof.
  intros Hb Hm rs node k s Hrs Hn. destruct rs as [|r rs].
  - injection Hn as <-. rewrite slookup_sinsert.
    destruct (eqb k key); [discriminate|]. apply (Hb [] branch k s); auto.
  - assert (Hr : r <> 35) by (intros ->; apply Hrs; now left).
    assert (Hrs' : ~ In 35 rs) by (intros H; apply Hrs; now right).
    rewrite nodeAt_cons, slookup_sinsert in Hn.
    match type of Hn with
    | context [if ?cond then _ else _] => destruct cond eqn:E
    end.
    + apply eqb_eq in E. apply (Hm r Hr (eq_sym E) rs node k s Hrs' Hn).
    + apply (Hb (r :: rs) node k s Hrs). rewrite nodeAt_cons. exact Hn.
Qed.

Lemma insertAffix_ok (chars : list rune) :
  forall affix branch,
    ~ In 35 chars -> mapsOnly branch ->
    exists branch', insertAffix chars affix branch = Ok branch'
                    /\ mapsOnly branch'.
Proof.
  induction chars as [|c cs IH]; intros affix branch Hc Hb.
  - cbn [insertAffix].
    destruct (slookup HASH branch) as [[s|t]|] eqn:E.
    + exfalso. apply (Hb [] branch HASH s); auto.
    + eexists. split; [reflexivity|]. apply mapsOnly_sinsert; [assumption|].
      intros c Hc' Hk. exfalso.
      refine (eq_true_false_abs _ _ (str_one_not_hash c Hc')).
      apply eqb_eq. now symmetry.
    + eexists. split; [reflexivity|]. apply mapsOnly_sinsert; [assumption|].
      intros c Hc' Hk. exfalso.
      refine (eq_true_false_abs _ _ (str_one_not_hash c Hc')).
      apply eqb_eq. now symmetry.
  - assert (Hc35 : c <> 35) by (intros ->; apply Hc; now left).
    assert (Hcs : ~ In 35 cs) by (intros H; apply Hc; now right).
    cbn [insertAffix]. change (encodeRune c ++ []) with (str [c]).
    destruct (slookup (str [c]) branch) as [[s|m]|] eqn:E.
    + exfalso. apply (Hb [] branch (str [c]) s); auto.
    + destruct (IH affix m Hcs (mapsOnly_child branch m c Hc35 Hb E))
        as (m' & Em & Hm').
      rewrite Em. cbn [bind]. eexists. split; [reflexivity|].
      apply mapsOnly_sinsert; auto.
    + destruct (IH affix [] Hcs mapsOnly_nil) as (m' & Em & Hm').
      rewrite Em. cbn [bind]. eexists. split; [reflexivity|].
      apply mapsOnly_sinsert; auto.
Qed.

Lemma insertAll_ok (order : list rune -> list rune) (affixes : list gostring) :
  forall tree,
    Forall (fun p => ~ In 35 (order (runes p))) affixes -> mapsOnly tree ->
    exists tree', insertAll order affixes tree = Ok tree' /\ mapsOnly tree'.
Proof.
  induction affixes as [|a affixes IH]; intros tree Hall Ht; cbn [insertAll].
  - eauto.
  - inversion Hall as [|? ? Ha Hrest]; subst.
    destruct (insertAffix_ok _ a tree Ha Ht) as (t1 & E & Ht1).
    rewrite E. cbn [bind]. apply IH; assumption.
Qed.

Lemma hashFree_rev (affixes : list gostring) :
  Forall hashFree affixes ->
  Forall (fun p => ~ In 35 (rev (runes p))) affixes.
Proof.
  apply Forall_impl. intros p Hp H. apply Hp. now apply in_rev.
Qed.

Lemma NewArabicLightStemmer_trees (t : Tables) (als : ArabicLightStemmer) :
  NewArabicLightStemmer t = Ok als ->
  createPrefixTree (DEFAULT_PREFIX_LIST t) = Ok (prefixesTree als)
  /\ createSuffixTree (DEFAULT_SUFFIX_LIST t) = Ok (suffixesTree als).
Proof.
  unfold NewArabicLightStemmer. intros H.
  destruct (createPrefixTree (DEFAULT_PREFIX_LIST t)) as [ptree| |];
    cbn [bind] in H; try discriminate.
  destruct (createSuffixTree (DEFAULT_SUFFIX_LIST t)) as [stree| |];
    cbn [bind] in H; try discriminate.
  injection H as <-. split; reflexivity.
Qed.

Lemma firstn_hashFree (rs d e : list rune) :
  ~ In 35 rs -> rs = d ++ e -> ~ In 35 d /\ ~ In 35 e.
Proof.
  intros H ->. split; intros Hin; apply H; apply in_app_iff; auto.
Qed.

Lemma lookupPrefixes_boundaries_tree (als : ArabicLightStemmer)
      (l : list gostring) (word : gostring) (lefts : list Z) :
  createPrefixTree l = Ok (prefixesTree als) ->
  Forall hashFree l ->
  hashFree word ->
  lookupPrefixes als word = Ok lefts ->
  In 0 lefts
  /\ (forall j, In j lefts ->
        j = 0
        \/ exists d e p,
             runes word = d ++ e /\ e <> [] /\ j = len d
             /\ In p l /\ str d = str (runes p))
  /\ (forall p e,
        In p l -> runes word = runes p ++ e -> e <> [] ->
        In (len (runes p)) lefts).
Proof.
  intros Ep Hall Hw H. unfold createPrefixTree in Ep.
  assert (Hterm : forall rs, ~ In 35 rs ->
            (terminalAt (prefixesTree als) rs = true
             <-> exists p, In p l
                           /\ keyPath rs = keyPath (runes p))).
  { intros rs Hrs.
    rewrite (terminalAt_insertAll (fun rs => rs) _ [] _ rs Hall Hrs Ep).
    rewrite terminalAt_nil_tree. split; [intros [H0|H0]; [discriminate|auto]|auto]. }
  unfold lookupPrefixes in H.
  destruct (lookupPrefixes_loop (S (List.length word)) (runes word) (len word)
              (prefixesTree als) 0 [0]) as [[[b' i'] lefts0]| |] eqn:El;
    cbn [bind] in H; try discriminate.
  change 0 with (len (@nil rune)) in El.
  assert (Hmono : forall j, In j lefts0 -> In j lefts).
  { intros j Hj. destruct ((i' <? len word) && shas HASH b');
      injection H as <-; [apply in_app_iff; now left | assumption]. }
  split; [|split].
  - apply Hmono. eapply lookupPrefixes_loop_mono; [exact El | now left].
  - destruct (lookupPrefixes_loop_sound (prefixesTree als) (runes word)
                (len word) (runes word) _ [] _ _ _ _ _ eq_refl eq_refl El)
      as [Hex Hl].
    assert (Hcut : forall j,
              (exists d e, runes word = d ++ e /\ e <> [] /\ j = len d
                           /\ terminalAt (prefixesTree als) d = true) ->
              exists d e p,
                runes word = d ++ e /\ e <> [] /\ j = len d
                /\ In p l /\ str d = str (runes p)).
    { intros j (d & e & Hde & Hne & Hj & Ht).
      destruct (firstn_hashFree _ d e Hw Hde) as [Hd _].
      apply (Hterm d Hd) in Ht. destruct Ht as (p & Hp & Hk).
      exists d, e, p. repeat split; auto. now apply keyPath_str. }
    intros j Hj.
    assert (Hj' : In j lefts0 \/ (j = i' /\ (i' <? len word) && shas HASH b' = true)).
    { destruct ((i' <? len word) && shas HASH b'); injection H as <-;
        [|now left].
      apply in_app_iff in Hj. destruct Hj as [Hj|[<-|[]]]; auto. }
    destruct Hj' as [Hj'|[-> Hc]].
    + destruct (Hl j Hj') as [[<-|[]]|Hc]; [now left|]. right. now apply Hcut.
    + apply andb_true_iff in Hc. destruct Hc as [Hlt Hh].
      right. apply Hcut. destruct Hex as [Hge|(d & e & Hde & Hne & Hi & Hn)];
        [lia|].
      exists d, e. repeat split; auto. unfold terminalAt. now rewrite Hn.
  - intros p e Hp Hde Hne.
    destruct (firstn_hashFree _ _ e Hw Hde) as [Hd _].
    assert (Ht : terminalAt (prefixesTree als) ([] ++ runes p) = true).
    { apply (Hterm _ Hd). eauto. }
    assert (Hlen : len ([] ++ runes p) < len word).
    { pose proof (len_runes_le word) as Hle. rewrite Hde, len_app in Hle.
      assert (0 < len e)
        by (destruct e; [congruence | unfold len; cbn [List.length]; lia]).
      cbn [app]. lia. }
    destruct (lookupPrefixes_loop_complete (prefixesTree als) (runes word)
                (len word) (runes p) _ [] e _ _ _ _ _ Hde Hne eq_refl Ht Hlen El)
      as [Hin|[Hi Hn]]; cbn [app] in *.
    + now apply Hmono.
    + unfold terminalAt in Ht. rewrite Hn in Ht.
      replace (i' <? len word) with true in H by lia. rewrite Ht in H.
      cbn [andb] in H. injection H as <-. apply in_app_iff. right.
      left. assumption.
Qed.

(** X16: the boundaries [lookupPrefixes] returns.  For a stemmer built by
    [NewArabicLightStemmer] from prefixes without ['#'] and a word without
    ['#'], a returned list holds 0; every other offset in it cuts the word
    after the letters of a listed prefix, leaving at least one letter; and
    the offset after every listed prefix that starts the word and leaves at
    least one letter is in the list. *)
Theorem lookupPrefixes_boundaries (t : Tables) (als : ArabicLightStemmer)
        (word : gostring) (lefts : list Z) :
  NewArabicLightStemmer t = Ok als ->
  Forall hashFree (DEFAULT_PREFIX_LIST t) ->
  hashFree word ->
  lookupPrefixes als word = Ok lefts ->
  In 0 lefts
  /\ (forall j, In j lefts ->
        j = 0
        \/ exists d e p,
             runes word = d ++ e /\ e <> [] /\ j = len d
             /\ In p (DEFAULT_PREFIX_LIST t) /\ str d = str (runes p))
  /\ (forall p e,
        In p (DEFAULT_PREFIX_LIST t) -> runes word = runes p ++ e -> e <> [] ->
        In (len (runes p)) lefts).
Proof.
  intros Hnew.
  destruct (NewArabicLightStemmer_trees t als Hnew) as [Ep _].
  exact (lookupPrefixes_boundaries_tree als _ word lefts Ep).
Qed.

Lemma lookupPrefixes_boundaries_witness :
  lookupPrefixes Sample.stemmer (lit "والكتاب") = Ok [0; 1; 3]
  /\ In 0 [0; 1; 3]
  /\ (forall j, In j [0; 1; 3] ->
        j = 0
        \/ exists d e p,
             runes (lit "والكتاب") = d ++ e /\ e <> [] /\ j = len d
             /\ In p (DEFAULT_PREFIX_LIST Sample.tables)
             /\ str d = str (runes p))
  /\ (forall p e,
        In p (DEFAULT_PREFIX_LIST Sample.tables) ->
        runes (lit "والكتاب") = runes p ++ e -> e <> [] ->
        In (len (runes p)) [0; 1; 3]).
Proof.
  split; [vm_compute; reflexivity|].
  apply (lookupPrefixes_boundaries Sample.tables Sample.stemmer
           (lit "والكتاب") [0; 1; 3]).
  - vm_compute. reflexivity.
  - repeat (apply Forall_cons; [vm_compute; intuition discriminate|]).
    apply Forall_nil.
  - vm_compute. intuition discriminate.
  - vm_compute. reflexivity.
Defined.

(** ** The branches of a trie *)

Lemma followed_nil_tree (rs : list rune) : followed [] rs = true -> rs = [].
Proof. destruct rs; [reflexivity | discriminate]. Qed.

Lemma followed_cons (branch : smap iface) (r : rune) (rs : list rune) :
  followed branch (r :: rs)
  = match slookup (str [r]) branch with
    | Some (IMap branch') => followed branch' rs
    | _ => false
    end.
Proof. reflexivity. Qed.

Lemma followed_insertAffix_iff (chars : list rune) :
  forall affix branch branch' rs,
    ~ In 35 chars -> ~ In 35 rs ->
    insertAffix chars affix branch = Ok branch' ->
    (followed branch' rs = true
     <-> followed branch rs = true
         \/ exists e, keyPath chars = keyPath (rs ++ e)).
Proof.
  induction chars as [|c cs IH]; intros affix branch branch' rs Hc Hr Hi.
  - cbn [insertAffix] in Hi.
    assert (Hb : exists v, branch' = sinsert HASH v branch).
    { destruct (slookup HASH branch) as [[s|t]|]; try discriminate;
        injection Hi as <-; eauto. }
    destruct Hb as [v ->]. destruct rs as [|r rs].
    + split; auto.
    + assert (Hr35 : r <> 35) by (intros ->; apply Hr; now left).
      rewrite !followed_cons, slookup_sinsert, (str_one_not_hash r Hr35).
      split; [auto | intros [H|[e H]]; [assumption | discriminate]].
  - assert (Hc35 : c <> 35) by (intros ->; apply Hc; now left).
    assert (Hcs : ~ In 35 cs) by (intros H; apply Hc; now right).
    cbn [insertAffix] in Hi. change (encodeRune c ++ []) with (str [c]) in Hi.
    assert (Hb : exists m0 m',
               (slookup (str [c]) branch = Some (IMap m0)
                \/ (slookup (str [c]) branch = None /\ m0 = []))
               /\ insertAffix cs affix m0 = Ok m'
               /\ branch' = sinsert (str [c]) (IMap m') branch).
    { destruct (slookup (str [c]) branch) as [[s|m]|] eqn:E; try discriminate.
      - destruct (insertAffix cs affix m) as [m'| |] eqn:Em; cbn [bind] in Hi;
          try discriminate.
        injection Hi as <-. exists m, m'. auto.
      - destruct (insertAffix cs affix []) as [m'| |] eqn:Em; cbn [bind] in Hi;
          try discriminate.
        injection Hi as <-. exists [], m'. auto. }
    destruct Hb as (m0 & m' & Hm0 & Hm' & ->). clear Hi.
    destruct rs as [|r rs]; [split; auto|].
    assert (Hrs : ~ In 35 rs) by (intros H; apply Hr; now right).
    cbn [app]. rewrite !followed_cons, slookup_sinsert.
    match goal with
    | |- context [if ?cond then _ else _] => destruct cond eqn:Erc
    end.
    + apply eqb_eq in Erc. rewrite Erc.
      rewrite (IH affix m0 m' rs Hcs Hrs Hm').
      destruct Hm0 as [E|[E ->]]; rewrite E.
      * split.
        -- intros [H|[e H]]; [now left | right; exists e].
           rewrite !keyPath_cons, H, Erc. reflexivity.
        -- intros [H|[e H]]; [now left | right; exists e].
           rewrite !keyPath_cons in H. now injection H.
      * split.
        -- intros [H|[e H]]; right.
           ++ apply followed_nil_tree in H. subst rs. exists cs.
              cbn [app]. rewrite !keyPath_cons, Erc. reflexivity.
           ++ exists e. rewrite !keyPath_cons, H, Erc. reflexivity.
        -- intros [H|[e H]]; [discriminate | right; exists e].
           rewrite !keyPath_cons in H. now injection H.
    + split; [auto|]. intros [H|[e H]]; [assumption|].
      rewrite !keyPath_cons in H. injection H as H1 H2. exfalso.
      refine (eq_true_false_abs _ _ Erc). apply eqb_eq. now symmetry.
Qed.

Lemma followed_insertAll_iff (order : list rune -> list rune)
      (affixes : list gostring) :
  forall tree tree' rs,
    Forall (fun p => ~ In 35 (order (runes p))) affixes -> ~ In 35 rs ->
    insertAll order affixes tree = Ok tree' ->
    (followed tree' rs = true
     <-> followed tree rs = true
         \/ exists p e, In p affixes
                        /\ keyPath (order (runes p)) = keyPath (rs ++ e)).
Proof.
  induction affixes as [|a affixes IH]; intros tree tree' rs Hall Hr Hi;
    cbn [insertAll] in Hi.
  - injection Hi as <-.
    split; [auto | intros [H|(p & e & [] & _)]; assumption].
  - inversion Hall as [|? ? Ha Hrest]; subst.
    destruct (insertAffix (order (runes a)) a tree) as [t1| |] eqn:E;
      cbn [bind] in Hi; try discriminate.
    rewrite (IH t1 tree' rs Hrest Hr Hi).
    rewrite (followed_insertAffix_iff _ a tree t1 rs Ha Hr E). split.
    + intros [[H|[e H]]|(p & e & Hp & Hk)]; [now left | right | right].
      * exists a, e. split; [now left | assumption].
      * exists p, e. split; [now right | assumption].
    + intros [H|(p & e & [->|Hp] & Hk)]; [left; now left | left; right | right].
      * now exists e.
      * now exists p, e.
Qed.

(** ** When [lookupPrefixes] returns *)

Lemma lookupPrefixes_loop_result (runeWord : list rune) (wlen : Z)
      (rest : list rune) :
  forall fuel done branch lefts,
    runeWord = done ++ rest -> ~ In 35 rest -> mapsOnly branch ->
    len runeWord <= wlen -> (List.length rest < fuel)%nat ->
    if followed branch rest && (len runeWord <? wlen)
    then lookupPrefixes_loop fuel runeWord wlen branch (len done) lefts = Panic
    else exists out,
        lookupPrefixes_loop fuel runeWord wlen branch (len done) lefts = Ok out.
Proof.
  induction rest as [|r rest IH]; intros fuel done branch lefts Hw Hr Hb Hle Hf;
    (destruct fuel as [|fuel]; [cbn in Hf; lia|]); cbn [lookupPrefixes_loop].
  - rewrite app_nil_r in Hw. subst done. cbn [followed andb].
    destruct (len runeWord <? wlen); cbn [negb]; [|eauto].
    rewrite goindex_out. reflexivity.
  - assert (Hr35 : r <> 35) by (intros ->; apply Hr; now left).
    assert (Hrs : ~ In 35 rest) by (intros H; apply Hr; now right).
    assert (Hl : len done < wlen).
    { rewrite Hw, len_app in Hle. unfold len in Hle at 2.
      cbn [List.length] in Hle. lia. }
    replace (len done <? wlen) with true by lia. cbn [negb].
    assert (Eg : goindex runeWord (len done) = Ok r)
      by (rewrite Hw; apply goindex_app).
    rewrite Eg. cbn [bind]. rewrite followed_cons.
    destruct (slookup (str [r]) branch) as [[s|b1]|] eqn:El.
    + exfalso. apply (Hb [] branch (str [r]) s); auto.
    + replace (len done + 1) with (len (done ++ [r]))
        by (rewrite len_app; reflexivity).
      apply IH; auto.
      * rewrite Hw, <- app_assoc. reflexivity.
      * eapply mapsOnly_child; eassumption.
      * cbn [List.length] in Hf. lia.
    + cbn [andb]. eauto.
Qed.

Lemma runes_nil (s : gostring) : runes s = [] -> s = [].
Proof.
  unfold runes. destruct s as [|b0 t0]; [reflexivity|]. cbn [decode].
  destruct (b0 <? 128); [discriminate|].
  destruct t0 as [|b1 t1]; [discriminate|].
  destruct (inRange 194 223 b0 && isCont b1); [discriminate|].
  destruct t1 as [|b2 t2]; [discriminate|].
  destruct (inRange 224 239 b0 && second_ok b0 b1 && isCont b2);
    [discriminate|].
  destruct t2 as [|b3 t3]; [discriminate|].
  destruct (inRange 240 244 b0 && second_ok b0 b1 && isCont b2 && isCont b3);
    discriminate.
Qed.

(** X17: when [lookupPrefixes] returns.  For a stemmer built by
    [NewArabicLightStemmer] from prefixes without ['#'] and a word without
    ['#'], the lookup either returns its list or panics on an index out of
    range, and it panics only on a word with a letter of several bytes whose
    letters begin a listed prefix or are all of one; on every such word it
    does panic. *)
Theorem lookupPrefixes_returns_or_panics (t : Tables) (als : ArabicLightStemmer)
        (word : gostring) :
  NewArabicLightStemmer t = Ok als ->
  Forall hashFree (DEFAULT_PREFIX_LIST t) ->
  hashFree word ->
  ((exists lefts, lookupPrefixes als word = Ok lefts)
   \/ (lookupPrefixes als word = Panic
       /\ len (runes word) < len word
       /\ exists p e, In p (DEFAULT_PREFIX_LIST t)
                      /\ str (runes p) = str (runes word ++ e)))
  /\ (forall p e,
        In p (DEFAULT_PREFIX_LIST t) -> runes p = runes word ++ e ->
        len (runes word) < len word ->
        lookupPrefixes als word = Panic).
Proof.
  intros Hnew Hall Hw.
  destruct (NewArabicLightStemmer_trees t als Hnew) as [Ep _].
  unfold createPrefixTree in Ep.
  destruct (insertAll_ok (fun rs => rs) _ [] Hall mapsOnly_nil)
    as (tree' & Ep' & Hmaps).
  rewrite Ep in Ep'. injection Ep' as <-.
  pose proof (followed_insertAll_iff (fun rs => rs) _ [] _ (runes word)
                Hall Hw Ep) as Hfol.
  assert (Hfuel : (List.length (runes word) < S (List.length word))%nat).
  { unfold runes. rewrite length_map.
    pose proof (decode_length_le _ word (le_n _)). lia. }
  pose proof (lookupPrefixes_loop_result (runes word) (len word) (runes word)
                (S (List.length word)) [] (prefixesTree als) [0]
                eq_refl Hw Hmaps (len_runes_le word) Hfuel) as Hres.
  change (len (@nil rune)) with 0 in Hres.
  split.
  - destruct (followed (prefixesTree als) (runes word)
              && (len (runes word) <? len word)) eqn:Ec.
    + right. apply andb_true_iff in Ec. destruct Ec as [Hf Hlt].
      split; [|split; [lia|]].
      * unfold lookupPrefixes. rewrite Hres. reflexivity.
      * apply Hfol in Hf. destruct Hf as [Hf|(p & e & Hp & Hk)].
        -- apply followed_nil_tree, runes_nil in Hf. subst word.
           cbn in Hlt. discriminate.
        -- exists p, e. split; [assumption | now apply keyPath_str].
    + left. destruct Hres as [[[b' i'] lefts0] Hres].
      unfold lookupPrefixes. rewrite Hres. cbn [bind].
      destruct ((i' <? len word) && shas HASH b'); eauto.
  - intros p e Hp Hpe Hlt.
    assert (Hf : followed (prefixesTree als) (runes word) = true).
    { apply Hfol. right. exists p, e. split; [assumption | now rewrite Hpe]. }
    rewrite Hf in Hres. replace (len (runes word) <? len word) with true in Hres
      by lia.
    cbn [andb] in Hres. unfold lookupPrefixes. rewrite Hres. reflexivity.
Qed.

Lemma lookupPrefixes_returns_or_panics_witness :
  ((exists lefts, lookupPrefixes Sample.stemmer (lit "وا") = Ok lefts)
   \/ (lookupPrefixes Sample.stemmer (lit "وا") = Panic
       /\ len (runes (lit "وا")) < len (lit "وا")
       /\ exists p e, In p (DEFAULT_PREFIX_LIST Sample.tables)
                      /\ str (runes p) = str (runes (lit "وا") ++ e)))
  /\ (forall p e,
        In p (DEFAULT_PREFIX_LIST Sample.tables) ->
        runes p = runes (lit "وا") ++ e ->
        len (runes (lit "وا")) < len (lit "وا") ->
        lookupPrefixes Sample.stemmer (lit "وا") = Panic).
Proof.
  apply (lookupPrefixes_returns_or_panics Sample.tables Sample.stemmer
           (lit "وا")).
  - vm_compute. reflexivity.
  - repeat (apply Forall_cons; [vm_compute; intuition discriminate|]).
    apply Forall_nil.
  - vm_compute. intuition discriminate.
Defined.

(** ** What [lookupSuffixes] records *)

Lemma geb_len_true {A : Type} (xs : list A) : (len xs >=? 0) = true.
Proof. rewrite Z.geb_leb. apply Z.leb_le. apply len_nonneg. Qed.

Lemma len_snoc_pred {A : Type} (xs : list A) (x : A) :
  len (xs ++ [x]) - 1 = len xs.
Proof. rewrite len_app. unfold len at 2. cbn [List.length]. lia. Qed.

Lemma nodeAt_rev_cons (tree branch : smap iface) (r : rune) (done : list rune) :
  nodeAt tree (rev done) = Some branch ->
  nodeAt tree (rev (r :: done))
  = match slookup (str [r]) branch with
    | Some (IMap branch') => Some branch'
    | _ => None
    end.
Proof.
  intros H. cbn [rev]. rewrite nodeAt_app, H, nodeAt_cons.
  destruct (slookup (str [r]) branch) as [[s|b]|]; reflexivity.
Qed.

Section SuffixLookup.

Variable tree : smap iface.
Variable runeWord : list rune.

Lemma lookupSuffixes_loop_sound (rest : list rune) :
  forall fuel done branch rights b' i' rights',
    runeWord = rest ++ done ->
    nodeAt tree (rev done) = Some branch ->
    lookupSuffixes_loop fuel runeWord branch (len rest - 1) rights
    = Ok (b', i', rights') ->
    (i' < 0
     \/ exists d e, runeWord = d ++ e /\ d <> [] /\ i' + 1 = len d
                    /\ nodeAt tree (rev e) = Some b')
    /\ forall k, In k rights' -> In k rights \/ cutsBefore tree runeWord k.
Proof.
  induction rest as [|r rest IH] using rev_ind;
    intros fuel done branch rights b' i' rights' Hw Hn H.
  - destruct fuel; cbn in H; injection H as <- <- <-; split; auto; left; lia.
  - rewrite len_snoc_pred in H. rewrite <- app_assoc in Hw. cbn [app] in Hw.
    destruct fuel as [|fuel]; cbn [lookupSuffixes_loop] in H;
      rewrite geb_len_true in H; cbn [negb] in H; try discriminate.
    assert (Eg : goindex runeWord (len rest) = Ok r)
      by (rewrite Hw; apply goindex_app).
    rewrite Eg in H. cbn [bind] in H.
    assert (Hd : rest ++ [r] <> []) by (now destruct rest).
    assert (Hl : len (rest ++ [r]) = len rest + 1)
      by (rewrite len_app; reflexivity).
    destruct (slookup (str [r]) branch) as [[s|b1]|] eqn:El; try discriminate.
    + assert (Hn' : nodeAt tree (rev (r :: done)) = Some b1)
        by (rewrite (nodeAt_rev_cons _ _ _ _ Hn), El; reflexivity).
      destruct (IH _ _ _ _ _ _ _ Hw Hn' H) as [Hex Hl']. split; [exact Hex|].
      intros k Hk. destruct (Hl' k Hk) as [Hin|Hc]; [|now right].
      destruct (shas HASH branch) eqn:Eh; [|now left].
      apply in_app_iff in Hin. destruct Hin as [Hin|[<-|[]]]; [now left|].
      right. exists (rest ++ [r]), done. rewrite <- app_assoc.
      repeat split; auto. unfold terminalAt. now rewrite Hn.
    + injection H as <- <- <-. split; [|auto]. right.
      exists (rest ++ [r]), done. rewrite <- app_assoc. repeat split; auto.
Qed.

Lemma lookupSuffixes_loop_mono (fuel : nat) :
  forall branch i rights b' i' rights',
    lookupSuffixes_loop fuel runeWord branch i rights = Ok (b', i', rights') ->
    forall k, In k rights -> In k rights'.
Proof.
  induction fuel as [|fuel IH]; intros branch i rights b' i' rights' H k Hk;
    cbn [lookupSuffixes_loop] in H;
    destruct (negb (i >=? 0)); try discriminate;
    try (injection H as <- <- <-; assumption).
  destruct (goindex runeWord i) as [r| |]; cbn [bind] in H; try discriminate.
  destruct (slookup (str [r]) branch) as [[s|b1]|]; try discriminate.
  - eapply IH; [eassumption|].
    destruct (shas HASH branch); [apply in_app_iff; now left | assumption].
  - injection H as <- <- <-. assumption.
Qed.

Lemma lookupSuffixes_loop_complete (mid : list rune) :
  forall fuel d r done branch rights b' i' rights',
    runeWord = ((d ++ [r]) ++ mid) ++ done ->
    nodeAt tree (rev done) = Some branch ->
    terminalAt tree (rev (mid ++ done)) = true ->
    lookupSuffixes_loop fuel runeWord branch
      (len ((d ++ [r]) ++ mid) - 1) rights
    = Ok (b', i', rights') ->
    In (len (d ++ [r])) rights'
    \/ (i' + 1 = len (d ++ [r])
        /\ nodeAt tree (rev (mid ++ done)) = Some b').
Proof.
  induction mid as [|c mid IH] using rev_ind;
    intros fuel d r done branch rights b' i' rights' Hw Hn Ht H.
  - rewrite app_nil_r in *. cbn [app] in *. rewrite len_snoc_pred in H.
    rewrite <- app_assoc in Hw. cbn [app] in Hw.
    destruct fuel as [|fuel]; cbn [lookupSuffixes_loop] in H;
      rewrite geb_len_true in H; cbn [negb] in H; try discriminate.
    assert (Eg : goindex runeWord (len d) = Ok r)
      by (rewrite Hw; apply goindex_app).
    rewrite Eg in H. cbn [bind] in H.
    assert (Hl : len (d ++ [r]) = len d + 1)
      by (rewrite len_app; reflexivity).
    destruct (slookup (str [r]) branch) as [[s|b1]|]; try discriminate.
    + left. eapply lookupSuffixes_loop_mono; [eassumption|].
      unfold terminalAt in Ht. rewrite Hn in Ht. rewrite Ht, Hl.
      apply in_app_iff. right. now left.
    + injection H as <- <- <-. right. auto.
  - rewrite app_assoc, len_snoc_pred in H.
    assert (Hw' : runeWord = ((d ++ [r]) ++ mid) ++ c :: done)
      by (rewrite Hw, <- !app_assoc; reflexivity).
    destruct fuel as [|fuel]; cbn [lookupSuffixes_loop] in H;
      rewrite geb_len_true in H; cbn [negb] in H; try discriminate.
    assert (Eg : goindex runeWord (len ((d ++ [r]) ++ mid)) = Ok c)
      by (rewrite Hw'; apply goindex_app).
    rewrite Eg in H. cbn [bind] in H.
    assert (Hmd : (mid ++ [c]) ++ done = mid ++ c :: done)
      by (now rewrite <- app_assoc).
    rewrite Hmd in *.
    assert (Hb : exists b1, slookup (str [c]) branch = Some (IMap b1)
                            /\ nodeAt tree (rev (c :: done)) = Some b1).
    { unfold terminalAt in Ht. rewrite rev_app_distr, nodeAt_app in Ht.
      rewrite (nodeAt_rev_cons _ _ _ _ Hn) in Ht |- *.
      destruct (slookup (str [c]) branch) as [[s|b1]|]; try discriminate.
      exists b1. auto. }
    destruct Hb as (b1 & El & Hn'). rewrite El in H.
    eapply (IH fuel d r (c :: done)); eassumption.
Qed.

End SuffixLookup.

Lemma lookupSuffixes_loop_total (runeWord : list rune) (rest : list rune) :
  forall fuel done branch rights,
    runeWord = rest ++ done -> ~ In 35 rest -> mapsOnly branch ->
    (List.length rest < fuel)%nat ->
    exists out,
      lookupSuffixes_loop fuel runeWord branch (len rest - 1) rights = Ok out.
Proof.
  induction rest as [|r rest IH] using rev_ind;
    intros fuel done branch rights Hw Hr Hb Hf.
  - destruct fuel; cbn; eauto.
  - rewrite len_snoc_pred. rewrite <- app_assoc in Hw. cbn [app] in Hw.
    rewrite length_app in Hf. cbn [List.length] in Hf.
    destruct fuel as [|fuel]; [lia|]. cbn [lookupSuffixes_loop].
    rewrite geb_len_true. cbn [negb].
    assert (Eg : goindex runeWord (len rest) = Ok r)
      by (rewrite Hw; apply goindex_app).
    rewrite Eg. cbn [bind].
    assert (Hr35 : r <> 35)
      by (intros ->; apply Hr; apply in_app_iff; right; now left).
    assert (Hrs : ~ In 35 rest)
      by (intros H; apply Hr; apply in_app_iff; now left).
    destruct (slookup (str [r]) branch) as [[s|b1]|] eqn:El.
    + exfalso. apply (Hb [] branch (str [r]) s); auto.
    + eapply IH; try eassumption; [|lia].
      eapply mapsOnly_child; eassumption.
    + eauto.
Qed.

Lemma keyPath_rev (a b : list rune) :
  keyPath (rev a) = keyPath (rev b) -> keyPath a = keyPath b.
Proof.
  unfold keyPath. rewrite !map_rev. intros H.
  rewrite <- (rev_involutive (map _ a)), H. apply rev_involutive.
Qed.

Lemma lookupSuffixes_boundaries_tree (als : ArabicLightStemmer)
      (l : list gostring) (word : gostring) :
  createSuffixTree l = Ok (suffixesTree als) ->
  Forall hashFree l ->
  Forall wellFormed l ->
  hashFree word ->
  exists rights,
    lookupSuffixes als word = Ok rights
    /\ (forall k, In k rights ->
          exists d e,
            runes word = d ++ e /\ d <> [] /\ k = len d
            /\ In (str e) l)
    /\ (forall p d,
          In p l -> runes word = d ++ runes p ->
          d <> [] -> In (len d) rights).
Proof.
  intros Es Hall Hwf Hw. unfold createSuffixTree in Es.
  pose proof (hashFree_rev _ Hall) as Hall'.
  destruct (insertAll_ok (@rev rune) _ [] Hall' mapsOnly_nil)
    as (tree' & Es' & Hmaps).
  rewrite Es in Es'. injection Es' as <-.
  assert (Hterm : forall e, ~ In 35 e ->
            (terminalAt (suffixesTree als) (rev e) = true
             <-> exists p, In p l
                           /\ keyPath e = keyPath (runes p))).
  { intros e He.
    assert (He' : ~ In 35 (rev e)) by (intros H; apply He; now apply in_rev).
    rewrite (terminalAt_insertAll (@rev rune) _ [] _ (rev e) Hall' He' Es).
    rewrite terminalAt_nil_tree. split.
    - intros [H0|(p & Hp & Hk)]; [discriminate|].
      exists p. split; [assumption | now apply keyPath_rev].
    - intros (p & Hp & Hk). right. exists p. split; [assumption|].
      unfold keyPath in *. rewrite !map_rev. f_equal. exact Hk. }
  unfold lookupSuffixes. cbv zeta.
  destruct (lookupSuffixes_loop_total (runes word) (runes word)
              (S (List.length (runes word))) [] (suffixesTree als) []
              (eq_sym (app_nil_r _)) Hw Hmaps (Nat.lt_succ_diag_r _))
    as [[[b' i'] rights0] El].
  rewrite El. cbn [bind].
  destruct (lookupSuffixes_loop_sound (suffixesTree als) (runes word)
              (runes word) _ [] _ _ _ _ _ (eq_sym (app_nil_r _)) eq_refl El)
    as [Hex Hl].
  assert (Hcut : forall k,
            (exists d e, runes word = d ++ e /\ d <> [] /\ k = len d
                         /\ terminalAt (suffixesTree als) (rev e) = true) ->
            exists d e,
              runes word = d ++ e /\ d <> [] /\ k = len d
              /\ In (str e) l).
  { intros k (d & e & Hde & Hne & Hk & Ht).
    destruct (firstn_hashFree _ d e Hw Hde) as [_ He].
    apply (Hterm e He) in Ht. destruct Ht as (p & Hp & Hk').
    exists d, e. repeat split; auto.
    rewrite (keyPath_str _ _ Hk').
    rewrite Forall_forall in Hwf. rewrite (Hwf p Hp). exact Hp. }
  exists (if (i' >=? 0) && shas HASH b' then rights0 ++ [i' + 1] else rights0).
  split; [now destruct ((i' >=? 0) && shas HASH b')|]. split.
  - intros k Hk.
    destruct ((i' >=? 0) && shas HASH b') eqn:Ec.
    + apply in_app_iff in Hk. destruct Hk as [Hk|[<-|[]]].
      * destruct (Hl k Hk) as [[]|Hc]. now apply Hcut.
      * apply andb_true_iff in Ec. destruct Ec as [Hge Hh].
        rewrite Z.geb_leb in Hge. apply Z.leb_le in Hge.
        apply Hcut. destruct Hex as [Hlt|(d & e & Hde & Hne & Hi & Hn)]; [lia|].
        exists d, e. repeat split; auto. unfold terminalAt. now rewrite Hn.
    + destruct (Hl k Hk) as [[]|Hc]. now apply Hcut.
  - intros p d Hp Hde Hne.
    destruct (firstn_hashFree _ d _ Hw Hde) as [_ He].
    assert (Ht : terminalAt (suffixesTree als) (rev (runes p ++ [])) = true).
    { rewrite app_nil_r. apply (Hterm _ He). eauto. }
    destruct (exists_last Hne) as (d0 & r & ->).
    assert (Hw' : runes word = ((d0 ++ [r]) ++ runes p) ++ [])
      by (now rewrite app_nil_r).
    assert (Hlen : len (runes word) = len ((d0 ++ [r]) ++ runes p))
      by (now rewrite Hde).
    rewrite Hlen in El.
    destruct (lookupSuffixes_loop_complete (suffixesTree als) (runes word)
                (runes p) _ d0 r [] _ _ _ _ _ Hw' eq_refl Ht El)
      as [Hin|[Hi Hn]].
    + destruct ((i' >=? 0) && shas HASH b');
        [apply in_app_iff; now left | assumption].
    + unfold terminalAt in Ht. rewrite Hn in Ht. rewrite Ht, andb_true_r.
      pose proof (len_nonneg (d0 ++ [r])) as H0.
      assert (Hd : len (d0 ++ [r]) = len d0 + 1)
        by (rewrite len_app; reflexivity).
      assert (Hge : (i' >=? 0) = true)
        by (rewrite Z.geb_leb; apply Z.leb_le; pose proof (len_nonneg d0); lia).
      rewrite Hge. apply in_app_iff. right. left. exact Hi.
Qed.

(** X18: [lookupSuffixes] always returns for a stemmer built by
    [NewArabicLightStemmer] from well-formed suffixes without ['#'] and a
    word without ['#'].  Every offset of the list cuts the word before the
    letters of a listed suffix, leaving at least one letter in front; and
    the offset before every listed suffix that ends the word and leaves at
    least one letter in front is in the list. *)
Theorem lookupSuffixes_boundaries (t : Tables) (als : ArabicLightStemmer)
        (word : gostring) :
  NewArabicLightStemmer t = Ok als ->
  Forall hashFree (DEFAULT_SUFFIX_LIST t) ->
  Forall wellFormed (DEFAULT_SUFFIX_LIST t) ->
  hashFree word ->
  exists rights,
    lookupSuffixes als word = Ok rights
    /\ (forall k, In k rights ->
          exists d e,
            runes word = d ++ e /\ d <> [] /\ k = len d
            /\ In (str e) (DEFAULT_SUFFIX_LIST t))
    /\ (forall p d,
          In p (DEFAULT_SUFFIX_LIST t) -> runes word = d ++ runes p ->
          d <> [] -> In (len d) rights).
Proof.
  intros Hnew.
  destruct (NewArabicLightStemmer_trees t als Hnew) as [_ Es].
  exact (lookupSuffixes_boundaries_tree als _ word Es).
Qed.

Lemma lookupSuffixes_boundaries_witness :
  exists rights,
    lookupSuffixes Sample.stemmer (lit "كاتبات") = Ok rights
    /\ (forall k, In k rights ->
          exists d e,
            runes (lit "كاتبات") = d ++ e /\ d <> [] /\ k = len d
            /\ In (str e) (DEFAULT_SUFFIX_LIST Sample.tables))
    /\ (forall p d,
          In p (DEFAULT_SUFFIX_LIST Sample.tables) ->
          runes (lit "كاتبات") = d ++ runes p ->
          d <> [] -> In (len d) rights).
Proof.
  apply (lookupSuffixes_boundaries Sample.tables Sample.stemmer (lit "كاتبات")).
  - vm_compute. reflexivity.
  - repeat (apply Forall_cons; [vm_compute; intuition discriminate|]).
    apply Forall_nil.
  - repeat (apply Forall_cons; [vm_compute; reflexivity|]).
    apply Forall_nil.
  - vm_compute. intuition discriminate.
Defined.

(** ** Fuel is never what stops [transform2Stars] *)

Lemma bind_noof {A B : Type} (m : result A) (k : A -> result B) :
  m <> OutOfFuel -> (forall a, m = Ok a -> k a <> OutOfFuel) ->
  bind m k <> OutOfFuel.
Proof. destruct m; cbn; intros H1 H2; [now apply H2 | discriminate | congruence]. Qed.

Lemma goindex_noof {A : Type} (xs : list A) (i : Z) : goindex xs i <> OutOfFuel.
Proof. unfold goindex. destruct (_ && _); [destruct (nth_error _ _)|]; discriminate. Qed.

Lemma goslice_noof {A : Type} (xs : list A) (lo hi : Z) :
  goslice xs lo hi <> OutOfFuel.
Proof. unfold goslice. destruct (_ && _); discriminate. Qed.

Lemma mustCompileNot_noof (letters : gostring) : mustCompileNot letters <> OutOfFuel.
Proof. destruct letters; discriminate. Qed.

Lemma maskInfix_noof (als : ArabicLightStemmer) (stem : gostring) :
  maskInfix als stem <> OutOfFuel.
Proof.
  unfold maskInfix. destruct (infixLetters als); [discriminate|].
  apply bind_noof; [apply mustCompileNot_noof | discriminate].
Qed.

Lemma trimPrefix_noof (als : ArabicLightStemmer) (fuel : nat) :
  forall prefix, (List.length (runes prefix) < fuel)%nat ->
                 trimPrefix als fuel prefix <> OutOfFuel.
Proof.
  induction fuel as [|fuel IH]; intros prefix Hf; [lia|].
  cbn [trimPrefix]. destruct (_ && _); [|discriminate].
  apply bind_noof; [apply goslice_noof|]. intros rs' Hs.
  apply goslice_ok in Hs. destruct Hs as [Hb ->]. apply IH.
  rewrite runes_str, length_map. unfold sub. rewrite length_firstn.
  cbn [Z.to_nat skipn]. unfold len in *. lia.
Qed.

Lemma trimSuffix_noof (als : ArabicLightStemmer) (fuel : nat) :
  forall suffix, (List.length (runes suffix) < fuel)%nat ->
                 trimSuffix als fuel suffix <> OutOfFuel.
Proof.
  induction fuel as [|fuel IH]; intros suffix Hf; [lia|].
  cbn [trimSuffix]. destruct (_ && _); [|discriminate].
  apply bind_noof; [apply goslice_noof|]. intros rs' Hs.
  apply goslice_ok in Hs. destruct Hs as [Hb ->]. apply IH.
  rewrite runes_str, length_map. unfold sub. rewrite length_firstn, length_skipn.
  unfold len in *. lia.
Qed.

Ltac noof :=
  repeat first
    [ apply bind_noof; [first [apply goindex_noof | apply goslice_noof
                              | apply mustCompileNot_noof | apply maskInfix_noof]
                       | intros ? ?]
    | discriminate ].

Lemma transform2Stars_noof (als : ArabicLightStemmer) (word : gostring) :
  transform2Stars als word <> OutOfFuel.
Proof.
  unfold transform2Stars. cbv zeta.
  noof.
  destruct (scanJoker _ _ _ _) as [l1 r1].
  apply bind_noof.
  { match goal with |- (if ?c then _ else _) <> _ => destruct c end; noof. }
  intros w Hw.
  destruct (scanJoker _ _ _ _) as [l2 r2].
  match goal with |- (if ?c then _ else _) <> _ => destruct c end;
    [|discriminate].
  noof.
  apply bind_noof.
  { apply trimPrefix_noof. rewrite runes_str, length_map. lia. }
  intros p Hp. noof.
  apply bind_noof.
  { apply trimSuffix_noof. rewrite runes_str, length_map. lia. }
  intros sfx Hsfx. noof.
Qed.

(** ** Building the tries *)

(** X19: [createPrefixTree] and [createSuffixTree] return their tree,
    without a failed type assertion, whenever no listed affix has the letter
    ['#'] (the suffixes being well-formed).  In the trees every listed
    prefix, read forwards, and every listed suffix, read backwards, ends on
    a node that carries the terminal marker. *)
Theorem createTrees_return (prefixes suffixes : list gostring) :
  Forall hashFree prefixes ->
  Forall hashFree suffixes ->
  Forall wellFormed suffixes ->
  exists ptree stree,
    createPrefixTree prefixes = Ok ptree
    /\ createSuffixTree suffixes = Ok stree
    /\ (forall p, In p prefixes -> terminalAt ptree (runes p) = true)
    /\ (forall p, In p suffixes -> terminalAt stree (rev (runes p)) = true).
Proof.
  intros Hp Hs _. unfold createPrefixTree, createSuffixTree.
  pose proof (hashFree_rev _ Hs) as Hs'.
  destruct (insertAll_ok (fun rs => rs) _ [] Hp mapsOnly_nil) as (pt & Ept & _).
  destruct (insertAll_ok (@rev rune) _ [] Hs' mapsOnly_nil) as (st & Est & _).
  exists pt, st. split; [exact Ept|]. split; [exact Est|]. split.
  - intros p Hin.
    apply (proj2 (terminalAt_insertAll (fun rs => rs) prefixes
                    [] pt (runes p) Hp
                    (proj1 (Forall_forall _ _) Hp p Hin) Ept)).
    right. eauto.
  - intros p Hin.
    apply (proj2 (terminalAt_insertAll (@rev rune) suffixes
                    [] st (rev (runes p)) Hs'
                    (proj1 (Forall_forall _ _) Hs' p Hin) Est)).
    right. eauto.
Qed.

Lemma createTrees_return_witness :
  exists ptree stree,
    createPrefixTree (DEFAULT_PREFIX_LIST Sample.tables) = Ok ptree
    /\ createSuffixTree (DEFAULT_SUFFIX_LIST Sample.tables) = Ok stree
    /\ (forall p, In p (DEFAULT_PREFIX_LIST Sample.tables) ->
          terminalAt ptree (runes p) = true)
    /\ (forall p, In p (DEFAULT_SUFFIX_LIST Sample.tables) ->
          terminalAt stree (rev (runes p)) = true).
Proof.
  apply (createTrees_return (DEFAULT_PREFIX_LIST Sample.tables)
           (DEFAULT_SUFFIX_LIST Sample.tables)).
  - repeat (apply Forall_cons; [vm_compute; intuition discriminate|]).
    apply Forall_nil.
  - repeat (apply Forall_cons; [vm_compute; intuition discriminate|]).
    apply Forall_nil.
  - repeat (apply Forall_cons; [vm_compute; reflexivity|]).
    apply Forall_nil.
Defined.

(** ** Words that begin a listed prefix *)

(** X20: whatever the tables without ['#'], the stemmer built by
    [NewArabicLightStemmer] panics in [LightStem] on every word with a
    letter of several bytes whose letters begin a listed prefix or are all
    of one: [lookupPrefixes] counts the letters up to the byte length of
    the word and indexes past its last letter. *)
Theorem LightStem_panics_on_prefix_beginning (t : Tables)
        (als : ArabicLightStemmer) (fuel : nat) (word p : gostring)
        (e : list rune) :
  NewArabicLightStemmer t = Ok als ->
  Forall hashFree (DEFAULT_PREFIX_LIST t) ->
  word <> [] ->
  hashFree (replaceAll word ALEF_MADDA (HAMZA ++ ALEF)) ->
  In p (DEFAULT_PREFIX_LIST t) ->
  runes p = runes (replaceAll word ALEF_MADDA (HAMZA ++ ALEF)) ++ e ->
  len (runes (replaceAll word ALEF_MADDA (HAMZA ++ ALEF)))
  < len (replaceAll word ALEF_MADDA (HAMZA ++ ALEF)) ->
  LightStem als fuel word = Panic.
Proof.
  intros Hnew Hall Hne Hw Hp Hpe Hlen.
  destruct (NewArabicLightStemmer_trees t als Hnew) as [Ep _].
  unfold createPrefixTree in Ep.
  assert (Hf : followed (prefixesTree als)
                 (runes (replaceAll word ALEF_MADDA (HAMZA ++ ALEF))) = true).
  { apply (followed_insertAll_iff (fun rs => rs) _ [] _ _ Hall Hw Ep).
    right. exists p, e. split; [assumption | now rewrite Hpe]. }
  unfold LightStem. destruct word as [|b word'] eqn:Ew; [congruence|].
  rewrite <- Ew in *. clear Ew b word' Hne.
  destruct (transform2Stars als word) as [[[[sw su] sl] sr]| |] eqn:Et;
    cbn [bind]; [|reflexivity|].
  - unfold segment. rewrite (lookupPrefixes_runs_off als _ Hf Hlen). reflexivity.
  - exfalso. exact (transform2Stars_noof als word Et).
Qed.

Lemma LightStem_panics_on_prefix_beginning_witness :
  LightStem Sample.stemmer 3 (lit "وا") = Panic.
Proof.
  apply (LightStem_panics_on_prefix_beginning Sample.tables Sample.stemmer 3
           (lit "وا") (lit "وال") (runes (lit "ل"))).
  - vm_compute. reflexivity.
  - repeat (apply Forall_cons; [vm_compute; intuition discriminate|]).
    apply Forall_nil.
  - discriminate.
  - vm_compute. intuition discriminate.
  - vm_compute. tauto.
  - vm_compute. reflexivity.
  - vm_compute. reflexivity.
Defined.

(** ** The setters *)

(** X21: [SetPrefixList] takes effect on the lookup.  After the prefix list
    is replaced by one without ['#'], the stemmer holds the new list and
    [lookupPrefixes] finds the boundaries of the new prefixes: 0, and the
    offsets after the listed prefixes that start the word and leave at least
    one letter. *)
Theorem SetPrefixList_takes_effect (als als' : ArabicLightStemmer)
        (newPrefixList : list gostring) (word : gostring) (lefts : list Z) :
  SetPrefixList als newPrefixList = Ok als' ->
  Forall hashFree newPrefixList ->
  hashFree word ->
  lookupPrefixes als' word = Ok lefts ->
  prefixList als' = newPrefixList
  /\ In 0 lefts
  /\ (forall j, In j lefts ->
        j = 0
        \/ exists d e p,
             runes word = d ++ e /\ e <> [] /\ j = len d
             /\ In p newPrefixList /\ str d = str (runes p))
  /\ (forall p e,
        In p newPrefixList -> runes word = runes p ++ e -> e <> [] ->
        In (len (runes p)) lefts).
Proof.
  unfold SetPrefixList. intros Hset Hall Hw H.
  destruct (createPrefixTree newPrefixList) as [tree| |] eqn:Et;
    cbn [bind] in Hset; try discriminate.
  injection Hset as <-. split; [reflexivity|].
  apply (lookupPrefixes_boundaries_tree
           (withLists als newPrefixList (suffixList als) tree)
           newPrefixList word lefts); auto.
Qed.

Lemma SetPrefixList_takes_effect_witness :
  exists als',
    SetPrefixList Sample.stemmer [lit "كا"; lit "ك"] = Ok als'
    /\ lookupPrefixes als' (lit "كاتب") = Ok [0; 1; 2]
    /\ prefixList als' = [lit "كا"; lit "ك"]
    /\ In 0 [0; 1; 2]
    /\ (forall j, In j [0; 1; 2] ->
          j = 0
          \/ exists d e p,
               runes (lit "كاتب") = d ++ e /\ e <> [] /\ j = len d
               /\ In p [lit "كا"; lit "ك"] /\ str d = str (runes p))
    /\ (forall p e,
          In p [lit "كا"; lit "ك"] -> runes (lit "كاتب") = runes p ++ e ->
          e <> [] -> In (len (runes p)) [0; 1; 2]).
Proof.
  destruct (SetPrefixList Sample.stemmer [lit "كا"; lit "ك"])
    as [als'| |] eqn:E; try (vm_compute in E; discriminate).
  exists als'. split; [reflexivity|].
  assert (El : lookupPrefixes als' (lit "كاتب") = Ok [0; 1; 2]).
  { vm_compute in E. injection E as <-. vm_compute. reflexivity. }
  split; [exact El|].
  apply (SetPrefixList_takes_effect Sample.stemmer als' [lit "كا"; lit "ك"]
           (lit "كاتب") [0; 1; 2] E).
  - repeat (apply Forall_cons; [vm_compute; intuition discriminate|]).
    apply Forall_nil.
  - vm_compute. intuition discriminate.
  - exact El.
Defined.

(** X22: [SetSuffixList] does not reach the lookup.  After the suffix list
    of a stemmer built by [NewArabicLightStemmer] is replaced, the stemmer
    holds the new list, but [lookupSuffixes] returns what it returned
    before: the boundaries of the suffixes the stemmer was built with. *)
Theorem SetSuffixList_keeps_old_boundaries (t : Tables)
        (als als' : ArabicLightStemmer) (newSuffixList : list gostring)
        (word : gostring) :
  NewArabicLightStemmer t = Ok als ->
  SetSuffixList als newSuffixList = Ok als' ->
  Forall hashFree (DEFAULT_SUFFIX_LIST t) ->
  Forall wellFormed (DEFAULT_SUFFIX_LIST t) ->
  hashFree word ->
  suffixList als' = newSuffixList
  /\ exists rights,
       lookupSuffixes als' word = Ok rights
       /\ lookupSuffixes als word = Ok rights
       /\ (forall k, In k rights ->
             exists d e,
               runes word = d ++ e /\ d <> [] /\ k = len d
               /\ In (str e) (DEFAULT_SUFFIX_LIST t))
       /\ (forall p d,
             In p (DEFAULT_SUFFIX_LIST t) -> runes word = d ++ runes p ->
             d <> [] -> In (len d) rights).
Proof.
  unfold SetSuffixList. intros Hnew Hset Hall Hwf Hw.
  destruct (createSuffixTree newSuffixList) as [tree| |];
    cbn [bind] in Hset; try discriminate.
  injection Hset as <-. split; [reflexivity|].
  destruct (NewArabicLightStemmer_trees t als Hnew) as [_ Es].
  destruct (lookupSuffixes_boundaries_tree als _ word Es Hall Hwf Hw)
    as (rights & Hr & Hs & Hc).
  exists rights. split; [exact Hr|]. split; [exact Hr|]. split; assumption.
Qed.

Lemma SetSuffixList_keeps_old_boundaries_witness :
  exists als',
    SetSuffixList Sample.stemmer [lit "بات"] = Ok als'
    /\ suffixList als' = [lit "بات"]
    /\ exists rights,
         lookupSuffixes als' (lit "كاتبات") = Ok rights
         /\ lookupSuffixes Sample.stemmer (lit "كاتبات") = Ok rights
         /\ (forall k, In k rights ->
               exists d e,
                 runes (lit "كاتبات") = d ++ e /\ d <> [] /\ k = len d
                 /\ In (str e) (DEFAULT_SUFFIX_LIST Sample.tables))
         /\ (forall p d,
               In p (DEFAULT_SUFFIX_LIST Sample.tables) ->
               runes (lit "كاتبات") = d ++ runes p ->
               d <> [] -> In (len d) rights).
Proof.
  destruct (SetSuffixList Sample.stemmer [lit "بات"])
    as [als'| |] eqn:E; try (vm_compute in E; discriminate).
  exists als'. split; [reflexivity|].
  apply (SetSuffixList_keeps_old_boundaries Sample.tables Sample.stemmer als'
           [lit "بات"] (lit "كاتبات")).
  - vm_compute. reflexivity.
  - exact E.
  - repeat (apply Forall_cons; [vm_compute; intuition discriminate|]).
    apply Forall_nil.
  - repeat (apply Forall_cons; [vm_compute; reflexivity|]).
    apply Forall_nil.
  - vm_compute. intuition discriminate.
Defined.

(** X23: [SetJoker] cuts by bytes.  A joker of two bytes or more that
    begins with a byte of a letter of several bytes is stored as that one
    byte, which is not a letter: it reads back as the one rune U+FFFD. *)
Theorem SetJoker_first_byte (als : ArabicLightStemmer) (b0 b1 : Z)
        (rest : gostring) :
  128 <= b0 ->
  exists als',
    SetJoker als (b0 :: b1 :: rest) = Ok als'
    /\ joker als' = [b0]
    /\ runes (joker als') = [RuneError]
    /\ joker als' <> str (runes (joker als')).
Proof.
  intros Hb. unfold SetJoker.
  assert (Hl : (len (b0 :: b1 :: rest) >? 1) = true).
  { rewrite Z.gtb_ltb. apply Z.ltb_lt. unfold len. cbn [List.length]. lia. }
  rewrite Hl.
  assert (Hs : goslice (b0 :: b1 :: rest) 0 1 = Ok [b0]).
  { apply goslice_ok. split; [|reflexivity].
    unfold len. cbn [List.length]. lia. }
  rewrite Hs. cbn [bind]. eexists. split; [reflexivity|].
  cbn [withJoker joker]. split; [reflexivity|].
  assert (Hr : runes [b0] = [RuneError]).
  { unfold runes. cbn [decode]. replace (b0 <? 128) with false by lia.
    reflexivity. }
  rewrite Hr. split; [reflexivity|]. discriminate.
Qed.

Lemma SetJoker_first_byte_witness :
  exists als',
    SetJoker Sample.stemmer (lit "ـ") = Ok als'
    /\ joker als' = [217]
    /\ runes (joker als') = [RuneError]
    /\ joker als' <> str (runes (joker als')).
Proof.
  apply (SetJoker_first_byte Sample.stemmer 217 128 []). lia.
Defined.

(** X24: with the empty joker, which [SetJoker] stores as it is,
    [LightStem] panics on every word but the empty one: [transform2Stars]
    takes the first rune of the joker. *)
Theorem LightStem_panics_with_empty_joker (als : ArabicLightStemmer)
        (fuel : nat) (word : gostring) :
  word <> [] ->
  exists als',
    SetJoker als [] = Ok als'
    /\ LightStem als' fuel word = Panic.
Proof.
  intros Hne. eexists. split; [reflexivity|].
  unfold LightStem. destruct word as [|b word'] eqn:Ew; [congruence|].
  rewrite <- Ew. clear Ew b word' Hne.
  assert (Ht : transform2Stars (withJoker als []) word = Panic).
  { unfold transform2Stars. cbv zeta.
    destruct (mustCompileNot _) as [re| |] eqn:Em; [reflexivity..|].
    exfalso. exact (mustCompileNot_noof _ Em). }
  rewrite Ht. reflexivity.
Qed.

Lemma LightStem_panics_with_empty_joker_witness :
  exists als',
    SetJoker Sample.stemmer [] = Ok als'
    /\ LightStem als' 5 (lit "كتاب") = Panic.
Proof.
  apply (LightStem_panics_with_empty_joker Sample.stemmer 5 (lit "كتاب")).
  discriminate.
Defined.

(** ** [transform2Stars] on a configured stemmer *)


Lemma scanJoker_bounds (runeWord : list rune) (jokerRune : rune) :
  forall i l0 r0,
    0 <= i ->
    (l0 = -1 /\ r0 = -1) \/ 0 <= l0 <= r0 /\ r0 < i ->
    let '(l, r) := scanJoker runeWord jokerRune i (l0, r0) in
    (l = -1 /\ r = -1) \/ 0 <= l <= r /\ r < i + len runeWord.
Proof.
  induction runeWord as [|c rw IH]; intros i l0 r0 Hi Hinv.
  - cbn [scanJoker]. unfold len. cbn [List.length]. lia.
  - cbn [scanJoker fst snd].
    assert (Hl : len (c :: rw) = 1 + len rw)
      by (unfold len; cbn [List.length]; lia).
    rewrite Hl.
    destruct (c =? jokerRune).
    + destruct (l0 =? -1) eqn:El.
      * specialize (IH (i + 1) i i).
        destruct (scanJoker rw jokerRune (i + 1) (i, i)) as [l r].
        assert (H : (l = -1 /\ r = -1) \/ 0 <= l <= r /\ r < i + 1 + len rw)
          by (apply IH; lia).
        lia.
      * specialize (IH (i + 1) l0 i).
        destruct (scanJoker rw jokerRune (i + 1) (l0, i)) as [l r].
        assert (H : (l = -1 /\ r = -1) \/ 0 <= l <= r /\ r < i + 1 + len rw)
          by (apply IH; lia).
        lia.
    + specialize (IH (i + 1) l0 r0).
      destruct (scanJoker rw jokerRune (i + 1) (l0, r0)) as [l r].
      assert (H : (l = -1 /\ r = -1) \/ 0 <= l <= r /\ r < i + 1 + len rw)
        by (apply IH; lia).
      lia.
Qed.

Lemma eqb_nil_false (s : gostring) : eqb s [] = false -> 0 < len (runes s).
Proof.
  intros H. destruct (runes s) eqn:E.
  - apply runes_nil in E. subst s. discriminate.
  - unfold len. cbn [List.length]. lia.
Qed.

Lemma trimPrefix_returns (als : ArabicLightStemmer) (fuel : nat) :
  forall prefix,
    (List.length (runes prefix) < fuel)%nat ->
    exists p, trimPrefix als fuel prefix = Ok p
              /\ len (runes p) <= len (runes prefix).
Proof.
  induction fuel as [|fuel IH]; intros prefix Hf; [lia|].
  cbn [trimPrefix].
  destruct (negb (eqb prefix []) && negb (Utils.Contains (prefixList als) prefix))
    eqn:Ec; [|exists prefix; split; [reflexivity | lia]].
  apply andb_true_iff in Ec. destruct Ec as [Ec _].
  apply negb_true_iff, eqb_nil_false in Ec.
  assert (Hs : goslice (runes prefix) 0 (len (runes prefix) - 1)
               = Ok (sub (runes prefix) 0 (len (runes prefix) - 1))).
  { apply goslice_ok. split; [lia | reflexivity]. }
  rewrite Hs. cbn [bind].
  assert (Hl : len (runes (str (sub (runes prefix) 0 (len (runes prefix) - 1))))
               = len (runes prefix) - 1).
  { rewrite len_runes_str. unfold sub, len in *. rewrite length_firstn.
    cbn [Z.to_nat skipn]. lia. }
  destruct (IH (str (sub (runes prefix) 0 (len (runes prefix) - 1))))
    as (p & Hp & Hle).
  { unfold len in *. lia. }
  exists p. split; [exact Hp | lia].
Qed.

Lemma trimSuffix_returns (als : ArabicLightStemmer) (fuel : nat) :
  forall suffix,
    (List.length (runes suffix) < fuel)%nat ->
    exists p, trimSuffix als fuel suffix = Ok p
              /\ len (runes p) <= len (runes suffix).
Proof.
  induction fuel as [|fuel IH]; intros suffix Hf; [lia|].
  cbn [trimSuffix].
  destruct (negb (eqb suffix []) && negb (Utils.Contains (suffixList als) suffix))
    eqn:Ec; [|exists suffix; split; [reflexivity | lia]].
  apply andb_true_iff in Ec. destruct Ec as [Ec _].
  apply negb_true_iff, eqb_nil_false in Ec.
  assert (Hs : goslice (runes suffix) 1 (len (runes suffix))
               = Ok (sub (runes suffix) 1 (len (runes suffix)))).
  { apply goslice_ok. split; [lia | reflexivity]. }
  rewrite Hs. cbn [bind].
  assert (Hl : len (runes (str (sub (runes suffix) 1 (len (runes suffix)))))
               = len (runes suffix) - 1).
  { rewrite len_runes_str. unfold sub, len in *.
    rewrite length_firstn, length_skipn. lia. }
  destruct (IH (str (sub (runes suffix) 1 (len (runes suffix)))))
    as (p & Hp & Hle).
  { unfold len in *. lia. }
  exists p. split; [exact Hp | lia].
Qed.

Lemma mustCompileNot_returns (letters : gostring) :
  letters <> [] -> mustCompileNot letters = Ok letters.
Proof. destruct letters; [congruence | reflexivity]. Qed.

Lemma maskInfix_returns (als : ArabicLightStemmer) (stem : gostring) :
  exists s, maskInfix als stem = Ok s.
Proof.
  unfold maskInfix. destruct (infixLetters als) eqn:E; [eauto|].
  rewrite mustCompileNot_returns by discriminate. cbn [bind]. eauto.
Qed.

Lemma goslice_returns {A : Type} (xs : list A) (lo hi : Z) :
  0 <= lo <= hi -> hi <= len xs -> goslice xs lo hi = Ok (sub xs lo hi).
Proof. intros H1 H2. apply goslice_ok. auto. Qed.

Lemma len_sub {A : Type} (xs : list A) (lo hi : Z) :
  0 <= lo <= hi -> hi <= len xs -> len (sub xs lo hi) = hi - lo.
Proof.
  intros H1 H2. unfold sub, len in *. rewrite length_firstn, length_skipn. lia.
Qed.

(** X25: [transform2Stars] returns on every word, without a slice out of
    range or a pattern that does not compile, when the prefix, suffix and
    infix letters are classes of plain letters (no range, escape or
    bracket), the prefix and the suffix letters are not empty, the joker is
    not empty and has no [$], the maximal prefix length is at least 1 and
    the maximal suffix length is not negative.  It returns the word without
    its tashkeel, and a left bound that is negative or is at most the right
    bound. *)
Theorem transform2Stars_returns (als : ArabicLightStemmer) (word : gostring) :
  plainClass (prefixLetters als) = true ->
  plainClass (suffixLetters als) = true ->
  plainClass (infixLetters als) = true ->
  plainReplacement (joker als) = true ->
  prefixLetters als <> [] ->
  suffixLetters als <> [] ->
  joker als <> [] ->
  1 <= maxPrefixLength als ->
  0 <= maxSuffixLength als ->
  exists starword left_ right_,
    transform2Stars als word
    = Ok (starword, StripTashkeel als word, left_, right_)
    /\ (left_ < 0 \/ 0 <= left_ <= right_).
Proof.
  intros _ _ _ _ Hpl Hsl Hj Hmp Hms. unfold transform2Stars. cbv zeta.
  rewrite mustCompileNot_returns
    by (destruct (prefixLetters als); [congruence | discriminate]).
  cbn [bind].
  destruct (runes (joker als)) as [|jr jrs] eqn:Ej;
    [apply runes_nil in Ej; congruence|].
  change (goindex (jr :: jrs) 0) with (Ok jr). cbn [bind].
  match goal with
  | |- context [scanJoker ?rw jr 0 (-1, -1)] =>
    pose proof (scanJoker_bounds rw jr 0 (-1) (-1) (Z.le_refl 0)
                  (or_introl (conj eq_refl eq_refl))) as Hb1;
      destruct (scanJoker rw jr 0 (-1, -1)) as [l1 r1];
      set (rw1 := rw) in *
  end.
  match goal with
  | |- exists _ _ _, bind ?m _ = _ /\ _ => assert (Hw : exists w, m = Ok w)
  end.
  { destruct (l1 >=? 0) eqn:El; [|eauto].
    rewrite Z.geb_leb in El. apply Z.leb_le in El.
    pose proof (len_nonneg rw1).
    rewrite !goslice_returns by lia. cbn [bind].
    rewrite (mustCompileNot_returns _ Hpl). cbn [bind].
    destruct (maskInfix_returns als
                (str (sub rw1 (Z.min l1 (maxPrefixLength als - 1))
                        (Z.max (r1 + 1) (len rw1 - maxSuffixLength als)))))
      as [s Hs].
    rewrite Hs. cbn [bind].
    rewrite (mustCompileNot_returns _ Hsl). cbn [bind]. eauto. }
  destruct Hw as [w Hw]. rewrite Hw. cbn [bind]. clear Hw Hb1 l1 r1.
  pose proof (scanJoker_bounds (runes w) jr 0 (-1) (-1) (Z.le_refl 0)
                (or_introl (conj eq_refl eq_refl))) as Hb2.
  destruct (scanJoker (runes w) jr 0 (-1, -1)) as [l2 r2].
  pose proof (len_nonneg (runes w)) as Hlw.
  match goal with
  | |- context [if ?c >=? 0 then _ else _] => set (left0 := c) in *
  end.
  destruct (left0 >=? 0) eqn:El;
    [|rewrite Z.geb_leb in El; apply Z.leb_gt in El;
      do 3 eexists; split; [reflexivity | left; exact El]].
  rewrite Z.geb_leb in El. apply Z.leb_le in El.
  assert (Hl0 : left0 <= len (runes w)).
  { subst left0. destruct (l2 <? 0) eqn:E; lia. }
  rewrite goslice_returns by lia. cbn [bind].
  destruct (trimPrefix_returns als (S (List.length (sub (runes w) 0 left0)))
              (str (sub (runes w) 0 left0))) as (p & Hp & Hple).
  { rewrite runes_str, length_map. lia. }
  rewrite Hp. cbn [bind].
  rewrite len_runes_str, len_sub in Hple by lia.
  pose proof (len_nonneg (runes p)) as Hp0.
  match goal with
  | |- context [goslice (runes w) ?c (len (runes w))] => set (right0 := c) in *
  end.
  assert (Hr0 : len (runes p) <= right0 <= len (runes w)
                /\ (0 <= l2 -> left0 <= right0)).
  { subst right0 left0. destruct (r2 <? 0) eqn:E; destruct (l2 <? 0) eqn:E'; lia. }
  rewrite goslice_returns by lia. cbn [bind].
  destruct (trimSuffix_returns als
              (S (List.length (sub (runes w) right0 (len (runes w)))))
              (str (sub (runes w) right0 (len (runes w))))) as (sx & Hsx & Hsle).
  { rewrite runes_str, length_map. lia. }
  rewrite Hsx. cbn [bind].
  rewrite len_runes_str, len_sub in Hsle by lia.
  pose proof (len_nonneg (runes sx)) as Hs0.
  rewrite goslice_returns by lia. cbn [bind].
  match goal with
  | |- context [maskInfix als ?s] => destruct (maskInfix_returns als s) as [st Hst]
  end.
  rewrite Hst. cbn [bind]. do 3 eexists. split; [reflexivity|]. right. lia.
Qed.

Lemma transform2Stars_returns_witness :
  exists starword left_ right_,
    transform2Stars Sample.stemmer (lit "يكتبون")
    = Ok (starword, StripTashkeel Sample.stemmer (lit "يكتبون"), left_, right_)
    /\ (left_ < 0 \/ 0 <= left_ <= right_).
Proof.
  apply (transform2Stars_returns Sample.stemmer (lit "يكتبون")).
  - vm_compute. reflexivity.
  - vm_compute. reflexivity.
  - vm_compute. reflexivity.
  - vm_compute. reflexivity.
  - vm_compute. discriminate.
  - vm_compute. discriminate.
  - vm_compute. discriminate.
  - vm_compute. discriminate.
  - vm_compute. discriminate.
Defined.


(** ** The roots manager *)

Lemma count_app (x : gostring) (a b : list gostring) :
  count x (a ++ b) = count x a + count x b.
Proof. unfold count. now rewrite filter_app, len_app. Qed.

Section RootsManagerSpec.

Variable als : ArabicLightStemmer.
Variable iter : list gostring -> list gostring.
Hypothesis iter_keys : forall lst x, In x (iter lst) <-> In x lst.

Lemma MostCommon_max (lst : list gostring) :
  lst <> [] ->
  In (RootsManager.MostCommon iter lst) lst
  /\ forall y, In y lst ->
       count y lst <= count (RootsManager.MostCommon iter lst) lst.
Proof.
  intros Hne. unfold RootsManager.MostCommon.
  destruct (fold_argmax (fun item => count item lst) (iter lst) ([], 0))
    as (H1 & H2 & H3). cbv zeta in *. cbn [snd] in H1.
  destruct lst as [|x0 l0] eqn:El; [congruence|]. rewrite <- El in *.
  assert (Hx : In x0 lst) by (subst; now left).
  pose proof (H2 x0 (proj2 (iter_keys lst x0) Hx)) as Hc.
  pose proof (count_pos x0 lst Hx) as Hp.
  destruct H3 as [H3|[H3 H4]].
  - rewrite H3 in Hc. cbn [snd] in Hc. lia.
  - split; [now apply iter_keys|].
    intros y Hy. rewrite <- H4. apply H2. now apply iter_keys.
Qed.

(** X26: [ChooseRoot] of the roots manager, whatever the order in which Go
    ranges over the count map.  When no candidate is accepted it returns
    the empty string.  Otherwise it returns an accepted candidate (the
    normalized root or stem of an affixation, of three or four letters,
    without Alef, in the dictionary) that no accepted candidate outvotes. *)
Theorem ChooseRoot_spec (affixationList : list (smap gostring)) :
  let root := RootsManager.ChooseRoot als iter affixationList in
  ((forall r, ~ acceptedRoot als affixationList r) /\ root = [])
  \/ (acceptedRoot als affixationList root
      /\ forall r, acceptedRoot als affixationList r ->
                   votes affixationList r <= votes affixationList root).
Proof.
  cbv zeta. unfold RootsManager.ChooseRoot. cbv zeta. cbn [app].
  set (stems := map (fun a => RootsManager.NormalizeRoot
                                (RootsManager.field a (lit "stem")))
                    affixationList).
  set (roots_ := map (fun a => RootsManager.NormalizeRoot
                                 (RootsManager.field a (lit "root")))
                     affixationList).
  set (A1 := RootsManager.LookupRoots als
               (RootsManager.FilterRootLengthValid roots_)).
  set (A2 := RootsManager.LookupRoots als
               (RootsManager.FilterRootLengthValid stems)).
  assert (Hall : forall r, In r (A1 ++ A2)
                           <-> acceptedRoot als affixationList r).
  { intros r. unfold A1, A2, RootsManager.LookupRoots,
      RootsManager.FilterRootLengthValid, acceptedRoot.
    rewrite in_app_iff, !filter_In. cbv zeta.
    rewrite !andb_true_iff, negb_true_iff, Z.geb_leb, !Z.leb_le.
    unfold roots_, stems. rewrite !in_map_iff. split.
    - intros [[[(a & Ea & Ha) Hf] Hr]|[[(a & Ea & Ha) Hf] Hr]];
        (split; [exists a; auto | tauto]).
    - intros ((a & Ha & [Ea | Ea]) & Hlen & Hc & Hr); [left | right];
        (split; [split; [eauto | split; assumption] | assumption]). }
  assert (Hvotes : forall r, acceptedRoot als affixationList r ->
                             count r (A1 ++ A2) = votes affixationList r).
  { intros r (_ & Hlen & Hc & Hr). unfold A1, A2, votes.
    rewrite count_app. unfold RootsManager.LookupRoots,
      RootsManager.FilterRootLengthValid.
    rewrite !count_filter; auto; cbv zeta;
      rewrite Hc, Z.geb_leb; cbn [negb];
      rewrite !andb_true_r; apply andb_true_iff; split; apply Z.leb_le; lia. }
  destruct (A1 ++ A2) as [|x0 l0] eqn:El.
  - left. split.
    + intros r Hr. apply Hall in Hr. exact Hr.
    + apply app_eq_nil in El. destruct El as [_ E2]. rewrite E2. reflexivity.
  - rewrite <- El in *.
    assert (Hne : A1 ++ A2 <> []) by (rewrite El; discriminate).
    assert (Hpos : (len (A1 ++ A2) >? 0) = true).
    { rewrite Z.gtb_ltb. apply Z.ltb_lt. rewrite El. unfold len.
      cbn [List.length]. lia. }
    rewrite Hpos. right.
    destruct (MostCommon_max (A1 ++ A2) Hne) as [Hin Hmax].
    split; [now apply Hall|].
    intros r Hr. rewrite <- !Hvotes; [|now apply Hall|assumption].
    apply Hmax. now apply Hall.
Qed.

End RootsManagerSpec.

Lemma ChooseRoot_spec_witness :
  ((forall r,
       ~ acceptedRoot Sample.stemmer
           [ [(lit "root", lit "كتب"); (lit "stem", lit "كتاب")];
        [(lit "root", lit "ضرب"); (lit "stem", lit "كتب")];
        [(lit "stem", lit "كتب")] ] r)
   /\ RootsManager.ChooseRoot Sample.stemmer (nodup (list_eq_dec Z.eq_dec))
        [ [(lit "root", lit "كتب"); (lit "stem", lit "كتاب")];
        [(lit "root", lit "ضرب"); (lit "stem", lit "كتب")];
        [(lit "stem", lit "كتب")] ] = [])
  \/ (acceptedRoot Sample.stemmer
        [ [(lit "root", lit "كتب"); (lit "stem", lit "كتاب")];
        [(lit "root", lit "ضرب"); (lit "stem", lit "كتب")];
        [(lit "stem", lit "كتب")] ]
        (RootsManager.ChooseRoot Sample.stemmer (nodup (list_eq_dec Z.eq_dec))
           [ [(lit "root", lit "كتب"); (lit "stem", lit "كتاب")];
        [(lit "root", lit "ضرب"); (lit "stem", lit "كتب")];
        [(lit "stem", lit "كتب")] ])
      /\ forall r,
          acceptedRoot Sample.stemmer
            [ [(lit "root", lit "كتب"); (lit "stem", lit "كتاب")];
        [(lit "root", lit "ضرب"); (lit "stem", lit "كتب")];
        [(lit "stem", lit "كتب")] ] r ->
          votes [ [(lit "root", lit "كتب"); (lit "stem", lit "كتاب")];
        [(lit "root", lit "ضرب"); (lit "stem", lit "كتب")];
        [(lit "stem", lit "كتب")] ] r
          <= votes [ [(lit "root", lit "كتب"); (lit "stem", lit "كتاب")];
        [(lit "root", lit "ضرب"); (lit "stem", lit "كتب")];
        [(lit "stem", lit "كتب")] ]
               (RootsManager.ChooseRoot Sample.stemmer
                  (nodup (list_eq_dec Z.eq_dec))
                  [ [(lit "root", lit "كتب"); (lit "stem", lit "كتاب")];
        [(lit "root", lit "ضرب"); (lit "stem", lit "كتب")];
        [(lit "stem", lit "كتب")] ])).
Proof.
  apply (ChooseRoot_spec Sample.stemmer (nodup (list_eq_dec Z.eq_dec))).
  intros lst x. apply nodup_In.
Defined.

(** ** The verb normalizer *)


Lemma hasPrefix_app (p s : gostring) : hasPrefix (p ++ s) p = true.
Proof.
  induction p as [|x p IH]; [destruct s; reflexivity|].
  cbn [app hasPrefix]. now rewrite Z.eqb_refl, IH.
Qed.

Lemma removeDoubleLetterAtEnd_keeps_hamza (y : gostring) :
  hasPrefix (removeDoubleLetterAtEnd (HAMZA ++ y)) HAMZA = true.
Proof.
  unfold removeDoubleLetterAtEnd.
  destruct (rev (HAMZA ++ y)) as [|a [|b l]] eqn:E; try apply hasPrefix_app.
  destruct (a =? b) eqn:Eab; [|apply hasPrefix_app].
  destruct y as [|c y'] using rev_ind.
  - vm_compute in E. injection E as <- <- _. discriminate.
  - rewrite app_assoc, removelast_last. apply hasPrefix_app.
Qed.

(** X27: [Normalize] measures the verb in bytes before it drops a leading
    Alef with Hamza above.  On a verb without tashkeel written in letters of
    two bytes after that Alef, the Alef is dropped when one letter follows
    (four bytes); when none or more than one follows, so also from a verb of
    four letters, it is kept and the result begins with Hamza. *)
Theorem Normalize_four_bytes (als : ArabicLightStemmer) (rs : list rune) :
  Forall (fun r => 128 <= r < 2048) rs ->
  StripTashkeel als (ALEF_HAMZA_ABOVE ++ str rs) = ALEF_HAMZA_ABOVE ++ str rs ->
  (len rs = 1 ->
   Normalize als (ALEF_HAMZA_ABOVE ++ str rs)
   = removeDoubleLetterAtEnd (removeWeakLetters (normalizeHamza (str rs))))
  /\ (len rs <> 1 ->
      hasPrefix (Normalize als (ALEF_HAMZA_ABOVE ++ str rs)) HAMZA = true).
Proof.
  intros Hrs Hst.
  pose proof (len_str_two_bytes rs Hrs) as Hl.
  assert (Hlen : len (ALEF_HAMZA_ABOVE ++ str rs) = 2 + 2 * len rs)
    by (rewrite len_app, Hl; reflexivity).
  assert (Hn : Normalize als (ALEF_HAMZA_ABOVE ++ str rs)
               = let verb := ALEF_HAMZA_ABOVE ++ str rs in
                 let verb :=
                   if (len verb =? 4) && hasPrefix verb ALEF_HAMZA_ABOVE
                   then skipn (List.length ALEF_HAMZA_ABOVE) verb
                   else verb in
                 removeDoubleLetterAtEnd
                   (removeWeakLetters (normalizeHamza verb))).
  { unfold Normalize. change (ALEF_HAMZA_ABOVE ++ str rs)
      with (216 :: 163 :: str rs) in *. cbv zeta. rewrite Hst. reflexivity. }
  rewrite Hn. cbv zeta. rewrite Hlen, hasPrefix_app, andb_true_r. split.
  - intros H1. replace (2 + 2 * len rs =? 4) with true by lia.
    rewrite skipn_app, Nat.sub_diag, skipn_all. reflexivity.
  - intros H1. replace (2 + 2 * len rs =? 4) with false by lia.
    assert (E1 : normalizeHamza (ALEF_HAMZA_ABOVE ++ str rs)
                 = HAMZA ++ mapRunes
                              (fun r => negb (inClass (lit "أإءؤئآ") r))
                              (lit "ء") (decode (str rs)) (str rs)).
    { unfold normalizeHamza, replaceIn.
      change (ALEF_HAMZA_ABOVE ++ str rs) with (216 :: 163 :: str rs).
      rewrite decode_cons2 by reflexivity. reflexivity. }
    rewrite E1.
    set (x := mapRunes _ _ _ _).
    assert (E2 : removeWeakLetters (HAMZA ++ x)
                 = HAMZA ++ mapRunes
                              (fun r => negb (inClass (lit "اويى") r))
                              [] (decode x) x).
    { unfold removeWeakLetters, replaceIn.
      change (HAMZA ++ x) with (216 :: 161 :: x).
      rewrite decode_cons2 by reflexivity. reflexivity. }
    rewrite E2. apply removeDoubleLetterAtEnd_keeps_hamza.
Qed.

Lemma Normalize_four_bytes_witness :
  (len (runes (lit "خرج")) = 1 ->
   Normalize Sample.stemmer (ALEF_HAMZA_ABOVE ++ str (runes (lit "خرج")))
   = removeDoubleLetterAtEnd
       (removeWeakLetters (normalizeHamza (str (runes (lit "خرج"))))))
  /\ (len (runes (lit "خرج")) <> 1 ->
      hasPrefix
        (Normalize Sample.stemmer (ALEF_HAMZA_ABOVE ++ str (runes (lit "خرج"))))
        HAMZA = true).
Proof.
  apply (Normalize_four_bytes Sample.stemmer (runes (lit "خرج"))).
  - apply Forall_forall. intros r Hr. vm_compute in Hr.
    destruct Hr as [<-|[<-|[<-|[]]]]; lia.
  - vm_compute. reflexivity.
Defined.
